(** * pressrelease_sentiment: a shallow embedding of the text-to-sentiment core

    The development follows [pressrelease_sentiment.py]: strings and the
    regular expressions of the date helpers, the keyword filter, the German
    lexicon scorer, the labelling rule, the release aggregate and the loop of
    [run_pipeline].

    Conventions of the embedding.
    - A Python [str] is a list of code points.  The alphabet is Latin-1
      (U+0000..U+00FF), one [ascii] per code point: it holds every literal
      of the program (the umlauts and the sharp s included), and Python's
      [lower], [strip], [\d], [\s], [\w] are tabulated on it exactly.
    - Floats.  [aggregate_release] adds and divides floats, and every
      such operation rounds: the module [Binary64] writes it over IEEE
      754 binary64 numbers, and the property of [aggregate_release] is
      settled there.  Elsewhere (the scores of sentences, the
      thresholds, the rounded numbers of a row) a float is an exact
      rational ([Q]), and so is the function [aggregate_release] over
      [Q] that the loop of [run_pipeline] is written with: an
      idealisation in which rounding is not modelled.
    - Library calls (language detection, sentence tokenizer, the English
      analyzer, PDF text extraction, [datetime.fromisoformat], the HTML
      parser, the URL resolver, the file system) are parameters; an
      exception they raise is the value [None], and it leaves the calling
      function as [Raised] where the call stands outside a [try]. *)

From Stdlib Require Import String Ascii Bool Arith ZArith NArith QArith Qminmax Qabs Qround Lia Lqa List SpecFloat.
Import ListNotations.
Local Open Scope string_scope.
Local Open Scope list_scope.
Local Open Scope nat_scope.

Set Implicit Arguments.

(** ** Strings over Latin-1 *)

Module Str.

Definition str := list ascii.

Definition code (c : ascii) : N := N_of_ascii c.

Definition between (lo hi : N) (c : ascii) : bool :=
  ((lo <=? code c) && (code c <=? hi))%N.

(** A string literal of this file is UTF-8; [u] decodes the one- and
    two-byte sequences that denote Latin-1 code points. *)
Fixpoint u (s : string) : str :=
  match s with
  | EmptyString => []
  | String c s' =>
      match s' with
      | String c2 s'' =>
          if (code c =? 194)%N then c2 :: u s''
          else if (code c =? 195)%N then ascii_of_N (code c2 + 64) :: u s''
          else c :: u s'
      | EmptyString => [c]
      end
  end.

Definition eqb (a b : str) : bool :=
  if list_eq_dec ascii_dec a b then true else false.

(** [\d]: the decimal digits (category Nd) of Latin-1. *)
Definition is_digit : ascii -> bool := between 48 57.

(** [\s] and [str.isspace]: TAB..CR, FS..US, SPACE, NEL, NBSP. *)
Definition is_space (c : ascii) : bool :=
  between 9 13 c || between 28 32 c || (code c =? 133)%N || (code c =? 160)%N.

(** [str.isalnum] on Latin-1: letters, digits and the numeric signs. *)
Definition is_alnum (c : ascii) : bool :=
  between 48 57 c || between 65 90 c || between 97 122 c
  || (code c =? 170)%N || (code c =? 178)%N || (code c =? 179)%N
  || (code c =? 181)%N || (code c =? 185)%N || (code c =? 186)%N
  || between 188 190 c || between 192 214 c || between 216 246 c
  || between 248 255 c.

(** [\w]: alphanumeric or the underscore. *)
Definition is_word (c : ascii) : bool := is_alnum c || (code c =? 95)%N.

(** [str.lower] of one code point: A-Z and the accented capitals
    U+00C0..U+00DE (the multiplication sign U+00D7 apart) move by 32. *)
Definition lower_char (c : ascii) : ascii :=
  if between 65 90 c || (between 192 222 c && negb (code c =? 215)%N)
  then ascii_of_N (code c + 32) else c.

Definition lower (s : str) : str := map lower_char s.

Fixpoint lstrip (s : str) : str :=
  match s with
  | c :: s' => if is_space c then lstrip s' else s
  | [] => []
  end.

Definition rstrip (s : str) : str := rev (lstrip (rev s)).

Definition strip (s : str) : str := rstrip (lstrip s).

Fixpoint startswith (p s : str) : bool :=
  match p, s with
  | [], _ => true
  | a :: p', b :: s' => if ascii_dec a b then startswith p' s' else false
  | _ :: _, [] => false
  end.

Definition endswith (p s : str) : bool := startswith (rev p) (rev s).

(** [k in s]: [k] occurs in [s] as a contiguous substring. *)
Fixpoint contains (k s : str) : bool :=
  startswith k s ||
  match s with
  | [] => false
  | _ :: s' => contains k s'
  end.

(** [sep.join(parts)]. *)
Fixpoint join (sep : str) (parts : list str) : str :=
  match parts with
  | [] => []
  | [p] => p
  | p :: rest => p ++ sep ++ join sep rest
  end.

(** [int(s)] on a string of decimal digits. *)
Definition digit_val (c : ascii) : Z := Z.of_N (code c) - 48.

Definition int_of (s : str) : Z :=
  fold_left (fun acc c => 10 * acc + digit_val c)%Z s 0%Z.

End Str.

Import Str.

(** ** Results that may raise *)

(** A call that can raise outside a [try] returns [Raised]; a [try ...
    except Exception: pass] turns [Raised] into the fall-through. *)
Inductive exn (A : Type) : Type :=
| Ok (a : A)
| Raised.
Arguments Ok {A} a.
Arguments Raised {A}.

Definition bind {A B : Type} (x : exn A) (f : A -> exn B) : exn B :=
  match x with
  | Ok a => f a
  | Raised => Raised
  end.

Notation "x <- c ;; k" := (bind c (fun x => k))
  (at level 61, c at next level, right associativity).

(** [try: return c / except Exception: pass], followed by [rest]. *)
Definition try_return {A : Type} (c : exn A) (rest : option A) : option A :=
  match c with
  | Ok a => Some a
  | Raised => rest
  end.

(** ** Regular expressions: the fragment of [re] the program uses *)

Module Re.

(** Repetition is over a character class only ([\d{2}], [\d{1,2}], [\s+],
    [\s*], [[A-Za-z...]+]), as everywhere in the program. *)
Inductive regex : Type :=
| Eps
| Chr (c : ascii)
| Cls (p : ascii -> bool)
| Rep (p : ascii -> bool) (lo : nat) (hi : option nat)
| Cat (r1 r2 : regex)
| Alt (r1 r2 : regex)
| Grp (name : string) (r : regex)
| WordB
| Behind (p : ascii -> bool).

Fixpoint lit (w : str) : regex :=
  match w with
  | [] => Eps
  | c :: w' => Cat (Chr c) (lit w')
  end.

(** A position in the subject: the text before it (nearest character
    first), the text after it, and the groups captured so far. *)
Record state : Type := St {
  before : str;
  rest : str;
  caps : list (string * str)
}.

Definition pos (st : state) : nat := length (before st).

Definition word_before (st : state) : bool :=
  match before st with
  | c :: _ => is_word c
  | [] => false
  end.

Definition word_after (st : state) : bool :=
  match rest st with
  | c :: _ => is_word c
  | [] => false
  end.

Definition may_more (hi : option nat) : bool :=
  match hi with
  | Some O => false
  | _ => true
  end.

Section Matcher.

Variable A : Type.

(** Greedy [p{lo,hi}]: take one more character while allowed, and give
    characters back one at a time when the continuation fails. *)
Fixpoint rep (p : ascii -> bool) (lo : nat) (hi : option nat)
    (b s : str) (cs : list (string * str)) (k : state -> option A) : option A :=
  let stop := match lo with
              | O => k (St b s cs)
              | S _ => None
              end in
  match s with
  | c :: s' =>
      if p c && may_more hi then
        match rep p (Nat.pred lo) (option_map Nat.pred hi) (c :: b) s' cs k with
        | Some x => Some x
        | None => stop
        end
      else stop
  | [] => stop
  end.

(** Backtracking matcher in continuation-passing style: alternatives are
    tried left to right, the first complete match is returned. *)
Fixpoint run (r : regex) (st : state) (k : state -> option A) : option A :=
  match r with
  | Eps => k st
  | Chr c =>
      match rest st with
      | x :: s' => if ascii_dec c x then k (St (x :: before st) s' (caps st)) else None
      | [] => None
      end
  | Cls p =>
      match rest st with
      | x :: s' => if p x then k (St (x :: before st) s' (caps st)) else None
      | [] => None
      end
  | Rep p lo hi => rep p lo hi (before st) (rest st) (caps st) k
  | Cat r1 r2 => run r1 st (fun st' => run r2 st' k)
  | Alt r1 r2 =>
      match run r1 st k with
      | Some x => Some x
      | None => run r2 st k
      end
  | Grp name r1 =>
      run r1 st (fun st' =>
        k (St (before st') (rest st')
              ((name, firstn (pos st' - pos st) (rest st)) :: caps st')))
  | WordB => if xorb (word_before st) (word_after st) then k st else None
  | Behind p =>
      match before st with
      | c :: _ => if p c then k st else None
      | [] => None
      end
  end.

End Matcher.

(** A match object: where the match starts, and the state at its end. *)
Record match_obj : Type := Match {
  m_start : nat;
  m_end : state
}.

Definition match_here (r : regex) (b s : str) : option state :=
  run r (St b s []) (fun st => Some st).

(** [re.search]: the leftmost position at which the pattern matches. *)
Fixpoint search_from (r : regex) (b s : str) : option match_obj :=
  match match_here r b s with
  | Some st => Some (Match (length b) st)
  | None =>
      match s with
      | [] => None
      | c :: s' => search_from r (c :: b) s'
      end
  end.

Definition search (r : regex) (text : str) : option match_obj :=
  search_from r [] text.

Fixpoint lookup (name : string) (cs : list (string * str)) : option str :=
  match cs with
  | [] => None
  | (n, v) :: cs' => if String.eqb name n then Some v else lookup name cs'
  end.

(** [m.group(name)]; every group of the program's patterns takes part in
    every match, the empty string stands for a group that did not. *)
Definition group (name : string) (mo : match_obj) : str :=
  match lookup name (caps (m_end mo)) with
  | Some v => v
  | None => []
  end.

(** [re.split] for a pattern that never matches the empty string: the
    pieces between successive non-overlapping matches.  [b] is the text
    before the current piece, [piece] the piece read so far (reversed). *)
Fixpoint split_from (fuel : nat) (r : regex) (b piece s : str) : list str :=
  match fuel with
  | O => [rev piece ++ s]
  | S fuel' =>
      match match_here r b s with
      | Some st =>
          if (length b <? pos st)%nat
          then rev piece :: split_from fuel' r (before st) [] (rest st)
          else match s with
               | [] => [rev piece]
               | c :: s' => split_from fuel' r (c :: b) (c :: piece) s'
               end
      | None =>
          match s with
          | [] => [rev piece]
          | c :: s' => split_from fuel' r (c :: b) (c :: piece) s'
          end
      end
  end.

Definition split (r : regex) (text : str) : list str :=
  split_from (S (length text)) r [] [] text.

End Re.

Import Re.

Declare Scope re_scope.
Delimit Scope re_scope with re.
Infix "+++" := Cat (at level 60, right associativity) : re_scope.

Arguments u s%_string.

Definition is_empty (s : str) : bool :=
  match s with
  | [] => true
  | _ :: _ => false
  end.

(** ** Library calls *)

Module Dates.

Record datetime : Type := Datetime {
  year : Z;
  month : Z;
  day : Z
}.

Definition is_leap (y : Z) : bool :=
  ((y mod 4 =? 0) && (negb (y mod 100 =? 0) || (y mod 400 =? 0)))%Z.

Definition days_in_month (y m : Z) : Z :=
  if (m =? 2)%Z then (if is_leap y then 29 else 28)%Z
  else if ((m =? 4) || (m =? 6) || (m =? 9) || (m =? 11))%Z then 30%Z
  else 31%Z.

(** [datetime(y, m, d)]: raises [ValueError] outside the calendar. *)
Definition datetime_new (y m d : Z) : exn datetime :=
  if ((1 <=? y) && (y <=? 9999) && (1 <=? m) && (m <=? 12)
      && (1 <=? d) && (d <=? days_in_month y m))%Z
  then Ok (Datetime y m d) else Raised.

End Dates.

Import Dates.

(** The libraries the program calls.  [None] stands for an exception
    raised by the call.
    - [detect]: [langdetect.detect];
    - [sent_tokenize text language]: [nltk.tokenize.sent_tokenize];
    - [polarity_compound]: the [compound] entry of
      [analyzer_en.polarity_scores];
    - [pdf_extract_text]: [pdfminer.high_level.extract_text];
    - [fromisoformat]: [datetime.fromisoformat], the year, month and day
      of the value it returns. *)
Class Libs : Type := {
  detect : str -> option str;
  sent_tokenize : str -> str -> option (list str);
  polarity_compound : str -> Q;
  pdf_extract_text : str -> option str;
  fromisoformat : str -> option datetime
}.

(** ** Date helpers *)

Definition MONTHS_DE : list (str * Z) :=
  [ (u "januar", 1); (u "februar", 2); (u "märz", 3); (u "maerz", 3);
    (u "april", 4); (u "mai", 5); (u "juni", 6); (u "juli", 7);
    (u "august", 8); (u "september", 9); (u "oktober", 10);
    (u "november", 11); (u "dezember", 12) ]%Z.

Definition MONTHS_EN : list (str * Z) :=
  [ (u "january", 1); (u "february", 2); (u "march", 3); (u "april", 4);
    (u "may", 5); (u "june", 6); (u "july", 7); (u "august", 8);
    (u "september", 9); (u "october", 10); (u "november", 11);
    (u "december", 12) ]%Z.

(** [d.get(k)] on a dict written as its items. *)
Fixpoint get {V : Type} (k : str) (d : list (str * V)) : option V :=
  match d with
  | [] => None
  | (k', v) :: d' => if Str.eqb k k' then Some v else get k d'
  end.

(** Truth value of [None] or an [int]. *)
Definition truthy (x : option Z) : bool :=
  match x with
  | Some n => negb (n =? 0)%Z
  | None => false
  end.

(** [x or y]. *)
Definition py_or (x y : option Z) : option Z := if truthy x then x else y.

(** [MONTHS_EN.get(mon) or MONTHS_DE.get(mon)]. *)
Definition month_lookup (mon : str) : option Z :=
  py_or (get mon MONTHS_EN) (get mon MONTHS_DE).

(** [[.\-\/]] *)
Definition is_sep (c : ascii) : bool :=
  (code c =? 46)%N || (code c =? 45)%N || (code c =? 47)%N.

(** [[A-Za-zäöüÄÖÜ]] *)
Definition is_letter (c : ascii) : bool :=
  between 65 90 c || between 97 122 c
  || (code c =? 228)%N || (code c =? 246)%N || (code c =? 252)%N
  || (code c =? 196)%N || (code c =? 214)%N || (code c =? 220)%N.

Local Open Scope re_scope.

(** [20\d{2}] *)
Definition re_20dd : regex := lit (u "20") +++ Rep is_digit 2 (Some 2).

(** [(?P<y>20\d{2})[.\-\/](?P<m>\d{1,2})[.\-\/](?P<d>\d{1,2})] *)
Definition re_ymd : regex :=
  Grp "y" re_20dd +++ Cls is_sep +++ Grp "m" (Rep is_digit 1 (Some 2))
  +++ Cls is_sep +++ Grp "d" (Rep is_digit 1 (Some 2)).

(** [(?P<d>\d{1,2})\s+(?P<mon>[A-Za-zäöüÄÖÜ]+)\s+(?P<y>20\d{2})] *)
Definition re_dmy : regex :=
  Grp "d" (Rep is_digit 1 (Some 2)) +++ Rep is_space 1 None
  +++ Grp "mon" (Rep is_letter 1 None) +++ Rep is_space 1 None
  +++ Grp "y" re_20dd.

(** [(?P<mon>[A-Za-zäöüÄÖÜ]+)\s+(?P<d>\d{1,2}),\s*(?P<y>20\d{2})] *)
Definition re_mdy : regex :=
  Grp "mon" (Rep is_letter 1 None) +++ Rep is_space 1 None
  +++ Grp "d" (Rep is_digit 1 (Some 2)) +++ Chr ","
  +++ Rep is_space 0 None +++ Grp "y" re_20dd.

(** [(20\d{2})] *)
Definition re_year : regex := Grp "1" re_20dd.

(** [([A-Za-zäöüÄÖÜ]+)\s+] followed by the digits of the year found. *)
Definition re_word_year (y : str) : regex :=
  Grp "1" (Rep is_letter 1 None) +++ Rep is_space 1 None +++ lit y.

(** [20\d{2}[.\-\/](\d{1,2})] *)
Definition re_year_num : regex :=
  re_20dd +++ Cls is_sep +++ Grp "1" (Rep is_digit 1 (Some 2)).

Local Close Scope re_scope.

(** The three regular-expression stages of [_parse_date_string], last
    first: each returns its date or falls through to the next. *)
Definition parse_mdy (s : str) : option datetime :=
  match search re_mdy s with
  | Some m =>
      let mon := lower (group "mon" m) in
      match month_lookup mon with
      | Some monnum =>
          if (monnum =? 0)%Z then None
          else try_return
                 (datetime_new (int_of (group "y" m)) monnum (int_of (group "d" m)))
                 None
      | None => None
      end
  | None => None
  end.

Definition parse_dmy (s : str) : option datetime :=
  match search re_dmy s with
  | Some m =>
      let mon := lower (group "mon" m) in
      match month_lookup mon with
      | Some monnum =>
          if (monnum =? 0)%Z then parse_mdy s
          else try_return
                 (datetime_new (int_of (group "y" m)) monnum (int_of (group "d" m)))
                 (parse_mdy s)
      | None => parse_mdy s
      end
  | None => parse_mdy s
  end.

Definition parse_ymd (s : str) : option datetime :=
  match search re_ymd s with
  | Some m =>
      try_return
        (datetime_new (int_of (group "y" m)) (int_of (group "m" m))
                      (int_of (group "d" m)))
        (parse_dmy s)
  | None => parse_dmy s
  end.

Section WithLibs.

Context {L : Libs}.

Definition _parse_date_string (s : str) : option datetime :=
  if is_empty s then None
  else
    let s := strip s in
    match fromisoformat s with
    | Some d => Some d
    | None => parse_ymd s
    end.

End WithLibs.

Definition _find_date_in_text (text : str) : exn (option datetime) :=
  if is_empty text then Ok None
  else
    match search re_year text with
    | Some m =>
        let year := int_of (group "1" m) in
        let by_number :=
          match search re_year_num text with
          | Some m3 =>
              match datetime_new year (int_of (group "1" m3)) 1 with
              | Ok d => Ok (Some d)
              | Raised => d <- datetime_new year 1 1 ;; Ok (Some d)
              end
          | None => d <- datetime_new year 1 1 ;; Ok (Some d)
          end in
        match search (re_word_year (group "1" m)) text with
        | Some m2 =>
            let mon := lower (group "1" m2) in
            match month_lookup mon with
            | Some monnum =>
                if (monnum =? 0)%Z then by_number
                else d <- datetime_new year monnum 1 ;; Ok (Some d)
            | None => by_number
            end
        | None => by_number
        end
    | None => Ok None
    end.

(** ** Text processing and sentiment *)

Definition AI_KEYWORDS_EN : list str :=
  [ u "artificial intelligence"; u "ai"; u "machine learning";
    u "deep learning"; u "neural network"; u "nlp";
    u "natural language processing"; u "computer vision";
    u "generative ai"; u "foundation model"; u "large language model";
    u "llm" ].

Definition AI_KEYWORDS_DE : list str :=
  [ u "künstliche intelligenz"; u "ki"; u "maschinelles lernen";
    u "deep learning"; u "neuronales netz"; u "nlp";
    u "natürliche sprachverarbeitung"; u "computer vision";
    u "generative ki"; u "foundation model"; u "großes sprachmodell";
    u "llm" ].

Definition MIN_SENTENCE_LEN : nat := 20.

Inductive label : Type := positive | neutral | negative.

(** [SENTIMENT_THRESHOLDS["positive"]] and [SENTIMENT_THRESHOLDS["negative"]]. *)
Definition THRESHOLD_positive : Q := 0.05.
Definition THRESHOLD_negative : Q := -0.05.

(** [lang and lang.startswith("de")] *)
Definition is_de (lang : str) : bool :=
  negb (is_empty lang) && startswith (u "de") lang.

(** [[.!?]] *)
Definition is_terminal (c : ascii) : bool :=
  (code c =? 46)%N || (code c =? 33)%N || (code c =? 63)%N.

(** [(?<=[.!?])\s+] *)
Definition re_sentence_gap : regex :=
  Cat (Behind is_terminal) (Rep is_space 1 None).

Definition sentence_mentions_ai (sentence lang : str) : bool :=
  let s := lower sentence in
  let keys := if is_de lang then AI_KEYWORDS_DE else AI_KEYWORDS_EN in
  existsb (fun k => contains k s) keys.

(** The loop of [extract_ai_sentences] over the sentences of a text. *)
Fixpoint ai_sentences_of (lang : str) (sents : list str) : list (str * str) :=
  match sents with
  | [] => []
  | s :: sents' =>
      if length s <? MIN_SENTENCE_LEN then ai_sentences_of lang sents'
      else if sentence_mentions_ai s lang
           then (lang, strip s) :: ai_sentences_of lang sents'
           else ai_sentences_of lang sents'
  end.

Definition GERMAN_LEXICON : list (str * Q) :=
  [ (u "gut", 2.0); (u "positiv", 1.5); (u "erfolgreich", 1.5);
    (u "stark", 1.0); (u "stärken", 1.0); (u "verbessert", 1.2);
    (u "schwach", -1.0); (u "problem", -1.5); (u "kritisch", -1.5);
    (u "fehler", -1.5); (u "risiko", -1.5); (u "negativ", -1.5);
    (u "verlust", -1.5) ]%Q.

(** [r'\b' + re.escape(w) + r'\b']; the words of the lexicon hold no
    special character, so the escaped word is the word. *)
Definition re_word (w : str) : regex :=
  Cat WordB (Cat (lit w) WordB).

(** [\b(nicht|kein|keine|nie|ohne)\b] *)
Definition re_negation : regex :=
  Cat WordB
    (Cat (Grp "1" (Alt (lit (u "nicht")) (Alt (lit (u "kein"))
            (Alt (lit (u "keine")) (Alt (lit (u "nie")) (lit (u "ohne")))))))
         WordB).

(** A match object is true, [None] is false. *)
Definition found (m : option match_obj) : bool :=
  match m with
  | Some _ => true
  | None => false
  end.

(** The [for w, val in GERMAN_LEXICON.items()] loop. *)
Fixpoint lexicon_sum (items : list (str * Q)) (s : str) (score : Q) : Q :=
  match items with
  | [] => score
  | (w, val) :: items' =>
      if found (search (re_word w) s)
      then lexicon_sum items' s (score + val)%Q
      else lexicon_sum items' s score
  end.

Definition Qltb (a b : Q) : bool := negb (Qle_bool b a).

Definition german_score (sentence : str) : Q :=
  let s := lower sentence in
  let score := lexicon_sum GERMAN_LEXICON s 0.0%Q in
  let score := if found (search re_negation s) then (- score)%Q else score in
  if Qltb 0 score then Qmin (score / 3.0) 1.0
  else if Qltb score 0 then Qmax (score / 3.0) (-1.0)
  else 0.0%Q.

Definition label_from_score (score : Q) : label * Q :=
  if Qle_bool THRESHOLD_positive score then (positive, score)
  else if Qle_bool score THRESHOLD_negative then (negative, score)
  else (neutral, score).

Record aggregate : Type := Aggregate {
  agg_label : label;
  agg_score : Q;
  agg_confidence : Q;
  agg_count : nat
}.

(** [sum(xs)] on floats and on ints. *)
Definition py_sum (xs : list Q) : Q := fold_left Qplus xs 0%Q.
Definition py_sum_int (xs : list Z) : Z := fold_left Z.add xs 0%Z.

(** [float(n)] and [len(xs)] as a float. *)
Definition float_of_int (n : Z) : Q := inject_Z n.
Definition len {X : Type} (xs : list X) : Z := Z.of_nat (length xs).

(** [aggregate_release] in exact arithmetic: the sum and the two
    quotients do not round.  [Binary64.aggregate_release] below is the
    function as floats compute it. *)
Definition aggregate_release (scores : list Q) : aggregate :=
  if match scores with [] => true | _ :: _ => false end
  then Aggregate neutral 0.0 0.0 0
  else
    let avg := (py_sum scores / float_of_int (len scores))%Q in
    let non_neutral :=
      py_sum_int (map (fun _ => 1%Z)
                      (filter (fun s => Qltb 0.05 (Qabs s)) scores)) in
    let conf := (float_of_int non_neutral / float_of_int (len scores))%Q in
    let '(lbl, _) := label_from_score avg in
    Aggregate lbl avg conf (length scores).

(** ** The release aggregate in binary floating point

    [aggregate_release] adds the scores and divides twice, and on Python
    floats each of these operations rounds to the nearest double.  The
    module [Binary64] writes the function over IEEE 754 binary64 numbers:
    [spec_float] of the standard library with precision 53 and exponents
    below 1024, whose operations round to nearest, ties to even, as the
    hardware does.
    - [sum(scores)] starts from the [int] 0 and adds the scores from the
      left, one rounded addition each (CPython up to 3.11; later
      versions compensate the rounding errors of the additions);
    - dividing a float by an [int] converts the [int] first, as
      [float(n)] does;
    - a decimal literal is the double nearest to the decimal value: the
      rounded quotient of two integers that are themselves doubles. *)
Module Binary64.

Definition float : Type := spec_float.

(** [float(n)] for an [int]: the nearest double, ties to even. *)
Definition of_int (n : Z) : float := binary_normalize 53 1024 n 0 false.

Definition add : float -> float -> float := SFadd 53 1024.
Definition div : float -> float -> float := SFdiv 53 1024.
Definition neg : float -> float := SFopp.
Definition abs : float -> float := SFabs.

(** [x < y] and [x <= y]: false when either side is a NaN. *)
Definition ltb : float -> float -> bool := SFltb.
Definition leb : float -> float -> bool := SFleb.

Definition zero : float := S754_zero false.

(** The literal with decimal value [num / den], for integers that are
    doubles. *)
Definition literal (num den : Z) : float := div (of_int num) (of_int den).

(** [SENTIMENT_THRESHOLDS]: [0.05] and [-0.05]. *)
Definition THRESHOLD_positive : float := literal 5 100.
Definition THRESHOLD_negative : float := neg (literal 5 100).

Definition label_from_score (score : float) : label * float :=
  if leb THRESHOLD_positive score then (positive, score)
  else if leb score THRESHOLD_negative then (negative, score)
  else (neutral, score).

Record aggregate : Type := Aggregate {
  agg_label : label;
  agg_score : float;
  agg_confidence : float;
  agg_count : nat
}.

(** [sum(xs)] on floats. *)
Definition py_sum (xs : list float) : float := fold_left add xs zero.

Definition aggregate_release (scores : list float) : aggregate :=
  if match scores with [] => true | _ :: _ => false end
  then Aggregate neutral zero zero 0
  else
    let avg := div (py_sum scores) (of_int (len scores)) in
    let non_neutral :=
      py_sum_int (map (fun _ => 1%Z)
                      (filter (fun s => ltb (literal 5 100) (abs s)) scores)) in
    let conf := div (of_int non_neutral) (of_int (len scores)) in
    let '(lbl, _) := label_from_score avg in
    Aggregate lbl avg conf (length scores).




End Binary64.

(** ** Runner *)

Record release : Type := Release {
  url : str;
  title : str;
  text : str;
  local : bool;
  publish_date : option datetime;
  company : str
}.

Definition set_text (item : release) (txt : str) : release :=
  Release (url item) (title item) txt (local item) (publish_date item)
          (company item).

Record examples : Type := Examples {
  ex_positive : list str;
  ex_neutral : list str;
  ex_negative : list str
}.

(** [examples[lbl]] and [examples[lbl].append(sent)]. *)
Definition bucket (lbl : label) (ex : examples) : list str :=
  match lbl with
  | positive => ex_positive ex
  | neutral => ex_neutral ex
  | negative => ex_negative ex
  end.

Definition append (lbl : label) (sent : str) (ex : examples) : examples :=
  match lbl with
  | positive => Examples (ex_positive ex ++ [sent]) (ex_neutral ex) (ex_negative ex)
  | neutral => Examples (ex_positive ex) (ex_neutral ex ++ [sent]) (ex_negative ex)
  | negative => Examples (ex_positive ex) (ex_neutral ex) (ex_negative ex ++ [sent])
  end.

Record row : Type := Row {
  row_company : str;
  row_title : str;
  row_url : str;
  row_year_month : option (Z * Z);
  row_label : label;
  row_score : Q;
  row_confidence : Q;
  row_ai_sentence_count : nat;
  row_example_positive : str;
  row_example_neutral : str;
  row_example_negative : str
}.

(** [round(x, ndigits)] in exact arithmetic: the multiple of
    [10^-ndigits] nearest to [x], ties to the even one.  On a float
    Python rounds the value of the double in this way and returns the
    double nearest to the result. *)
Definition py_round (x : Q) (ndigits : nat) : Q :=
  let scale := inject_Z (10 ^ Z.of_nat ndigits) in
  let y := (x * scale)%Q in
  let f := Qfloor y in
  let frac := (y - inject_Z f)%Q in
  let n := if Qltb frac (1 # 2) then f
           else if Qltb (1 # 2) frac then (f + 1)%Z
           else if Z.even f then f else (f + 1)%Z in
  (inject_Z n / scale)%Q.

Section Runner.

Context {L : Libs}.

Definition detect_lang (text : str) : str :=
  match detect text with
  | Some lang => lang
  | None => u "unknown"
  end.

Definition split_sentences (text lang : str) : list str :=
  match (if is_de lang
         then sent_tokenize text (u "german")
         else sent_tokenize text (u "english")) with
  | Some sents => sents
  | None =>
      map strip
          (filter (fun s => negb (is_empty (strip s)))
                  (Re.split re_sentence_gap text))
  end.

Definition extract_ai_sentences (text : str) : list (str * str) :=
  let lang := detect_lang text in
  let sents := split_sentences text lang in
  ai_sentences_of lang sents.

Definition score_sentence (lang sentence : str) : Q :=
  if is_de lang then german_score sentence
  else polarity_compound sentence.

Definition ensure_text (item : release) : release :=
  if negb (is_empty (text item)) then item
  else if endswith (u ".pdf") (lower (url item))
          || (local item && endswith (u ".pdf") (lower (url item)))
  then match pdf_extract_text (url item) with
       | Some txt => set_text item txt
       | None => set_text item []
       end
  else set_text item [].

Definition extract_year_month (publish_date : option datetime)
    (text title url : str) : exn (option (Z * Z)) :=
  match publish_date with
  | Some d => Ok (Some (year d, month d))
  | None =>
      parsed <- _find_date_in_text text ;;
      match parsed with
      | Some d => Ok (Some (year d, month d))
      | None =>
          parsed <- _find_date_in_text title ;;
          match parsed with
          | Some d => Ok (Some (year d, month d))
          | None =>
              parsed <- _find_date_in_text url ;;
              match parsed with
              | Some d => Ok (Some (year d, month d))
              | None => Ok None
              end
          end
      end
  end.

(** The inner loop of [run_pipeline]: the scores and the example buckets
    after the sentences [ai_sents]. *)
Fixpoint score_loop (ai_sents : list (str * str)) (sent_scores : list Q)
    (ex : examples) : list Q * examples :=
  match ai_sents with
  | [] => (sent_scores, ex)
  | (lang, sent) :: ai_sents' =>
      let sc := score_sentence lang sent in
      let '(lbl, _) := label_from_score sc in
      let sent_scores := sent_scores ++ [sc] in
      let ex := if length (bucket lbl ex) <? 3 then append lbl sent ex else ex in
      score_loop ai_sents' sent_scores ex
  end.

(** One turn of the outer loop: [None] is [continue], [Some row] the row
    appended to [rows]. *)
Definition process_release (r : release) : exn (option row) :=
  let r := ensure_text r in
  let text := text r in
  if is_empty text || (length text <? 50) then Ok None
  else
    let ai_sents := extract_ai_sentences text in
    let '(sent_scores, examples) :=
      score_loop ai_sents [] (Examples [] [] []) in
    let agg := aggregate_release sent_scores in
    ym <- extract_year_month (publish_date r) text (title r) (url r) ;;
    Ok (Some (Row (company r) (title r) (url r) ym (agg_label agg)
                  (py_round (agg_score agg) 4)
                  (py_round (agg_confidence agg) 3)
                  (agg_count agg)
                  (join (u " | ") (ex_positive examples))
                  (join (u " | ") (ex_neutral examples))
                  (join (u " | ") (ex_negative examples)))).

(** The rows [run_pipeline] holds after the loop over [releases]. *)
Fixpoint run_pipeline (releases : list release) : exn (list row) :=
  match releases with
  | [] => Ok []
  | r :: releases' =>
      o <- process_release r ;;
      rows <- run_pipeline releases' ;;
      Ok (match o with
          | Some row => row :: rows
          | None => rows
          end)
  end.

End Runner.

(** ** A sample environment

    One concrete choice of the libraries, on which the properties can be
    evaluated: every text is German, the tokenizer fails (so the regular
    expression fallback splits the text), the English analyzer is silent,
    no PDF can be read, and the ISO parser reads [YYYY-MM-DD] only. *)

Definition iso_date_only (s : str) : option datetime :=
  match s with
  | [y1; y2; y3; y4; d1; m1; m2; d2; dd1; dd2] =>
      if forallb is_digit [y1; y2; y3; y4; m1; m2; dd1; dd2]
         && (code d1 =? 45)%N && (code d2 =? 45)%N
      then try_return
             (datetime_new (int_of [y1; y2; y3; y4]) (int_of [m1; m2])
                           (int_of [dd1; dd2]))
             None
      else None
  | _ => None
  end.

Definition sample_libs : Libs := {|
  detect := fun _ => Some (u "de");
  sent_tokenize := fun _ _ => None;
  polarity_compound := fun _ => 0%Q;
  pdf_extract_text := fun _ => None;
  fromisoformat := iso_date_only
|}.

(** A second environment, in which a PDF can be read, and a release as
    [collect_press_releases] builds it for a local PDF file: no text. *)
Definition pdf_libs : Libs := {|
  detect := fun _ => Some (u "de");
  sent_tokenize := fun _ _ => None;
  polarity_compound := fun _ => 0%Q;
  pdf_extract_text := fun _ =>
    Some (u "Die KI ist gut. Der Bericht ist lang genug, um gelesen zu werden.");
  fromisoformat := iso_date_only
|}.

Definition pdf_item : release := {|
  url := u "local_releases/sap_2021.pdf";
  title := u "sap_2021.pdf";
  text := [];
  local := true;
  publish_date := None;
  company := u "sap"
|}.

(** ** Specification-side definitions

    What the specification's words denote, written independently of the
    program; the properties below compare the program with them. *)

Module Spec.

(** The mean of a list of scores. *)
Definition total (xs : list Q) : Q := fold_right Qplus 0%Q xs.


(** The number of scores whose absolute value is strictly above 0.05. *)
Definition count_non_neutral (xs : list Q) : nat :=
  length (filter (fun s => if Qlt_le_dec 0.05 (Qabs s) then true else false) xs).

(** The longest prefix of [s] whose characters satisfy [p], and what
    follows it. *)
Fixpoint take_while (p : ascii -> bool) (s : str) : str :=
  match s with
  | c :: s' => if p c then c :: take_while p s' else []
  | [] => []
  end.

Fixpoint drop_while (p : ascii -> bool) (s : str) : str :=
  match s with
  | c :: s' => if p c then drop_while p s' else s
  | [] => []
  end.

(** [n] is within the upper bound of a repetition. *)
Definition within (hi : option nat) (n : nat) : bool :=
  match hi with
  | Some h => n <=? h
  | None => true
  end.

(** Whole words.  [is_word_head s] tells whether [s] starts with a word
    character; a boundary lies between the text [b] (nearest character
    first) and the text [s] when exactly one of them does.  [w] occurs in
    [text] as a whole word when [text] splits around an occurrence of [w]
    with a boundary on both sides of it. *)
Definition is_word_head (s : str) : bool :=
  match s with
  | c :: _ => is_word c
  | [] => false
  end.

Definition boundary (b s : str) : bool :=
  xorb (is_word_head b) (is_word_head s).

Definition word_at (w b s : str) : bool :=
  boundary b s && startswith w s
  && boundary (rev w ++ b) (skipn (length w) s).

Definition whole_word (w text : str) : Prop :=
  exists pre post : str,
    text = pre ++ w ++ post /\
    boundary (rev pre) (w ++ post) = true /\
    boundary (rev w ++ rev pre) post = true.

(** The negation tokens. *)
Definition NEGATIONS : list str :=
  [u "nicht"; u "kein"; u "keine"; u "nie"; u "ohne"].

(** *** Dates in free text

    [first_at f b s] scans the text [s] from left to right and returns what
    the local test [f] finds at the first position where it finds
    something; [b] is the text before the current position, nearest
    character first. *)
Fixpoint first_at {X : Type} (f : str -> str -> option X) (b s : str)
    : option X :=
  match f b s with
  | Some x => Some x
  | None =>
      match s with
      | [] => None
      | c :: s' => first_at f (c :: b) s'
      end
  end.

(** A year token, "20" and two digits, at the head of [s]. *)
Definition year_at (s : str) : option str :=
  match s with
  | a :: b :: c :: d :: _ =>
      if Str.eqb [a; b] (u "20") && is_digit c && is_digit d
      then Some [a; b; c; d] else None
  | _ => None
  end.

(** A year token, a separator and one or two digits (two when two stand
    there) at the head of [s]: the digits. *)
Definition year_num_at (s : str) : option str :=
  match year_at s, skipn 4 s with
  | Some _, sep :: m1 :: s' =>
      if is_sep sep && is_digit m1
      then Some (match s' with
                 | m2 :: _ => if is_digit m2 then [m1; m2] else [m1]
                 | [] => [m1]
                 end)
      else None
  | _, _ => None
  end.

(** A run of letters, then whitespace, then the digits [y] at the head of
    [s]: the run of letters. *)
Definition word_year_at (y s : str) : option str :=
  let w := take_while is_letter s in
  let ws := take_while is_space (drop_while is_letter s) in
  if (1 <=? length w) && (1 <=? length ws)
     && startswith y (drop_while is_space (drop_while is_letter s))
  then Some w else None.

(** The month given by digits: the number after the first year token that
    is followed by a separator and digits, when it is a month; else 1. *)
Definition numeric_month (text : str) : Z :=
  match first_at (fun _ s => year_num_at s) [] text with
  | Some ds =>
      if ((1 <=? int_of ds) && (int_of ds <=? 12))%Z then int_of ds else 1%Z
  | None => 1%Z
  end.

(** The month named by a word, else the month given by digits. *)
Definition month_from (word : option str) (text : str) : Z :=
  match word with
  | Some w =>
      match month_lookup (lower w) with
      | Some n => n
      | None => numeric_month text
      end
  | None => numeric_month text
  end.

(** What [_find_date_in_text] computes: the year is the first year token;
    the word that may name the month is the first run of letters in the
    text that is followed by whitespace and the digits of that year. *)
Definition find_date (text : str) : option datetime :=
  match first_at (fun _ s => year_at s) [] text with
  | Some y =>
      Some (Datetime (int_of y)
                     (month_from (first_at (fun _ s => word_year_at y s) [] text) text)
                     1)
  | None => None
  end.

(** The word that stands immediately before a position: the letters
    before the whitespace before it. *)
Definition word_before (b : str) : option str :=
  let ws := take_while is_space b in
  let w := take_while is_letter (drop_while is_space b) in
  if (1 <=? length ws) && (1 <=? length w) then Some (rev w) else None.

(** The same with the word taken as the specification words it: the word
    that may name the month is the one immediately before the first year
    token. *)
Definition find_date_worded (text : str) : option datetime :=
  match first_at (fun b s => option_map (fun y => (b, y)) (year_at s)) [] text with
  | Some (b, y) =>
      Some (Datetime (int_of y) (month_from (word_before b) text) 1)
  | None => None
  end.

(** The text holds a year token. *)
Definition has_year_token (text : str) : Prop :=
  exists (pre : str) (d1 d2 : ascii) (post : str),
    text = pre ++ u "20" ++ d1 :: d2 :: post /\
    is_digit d1 = true /\ is_digit d2 = true.

(** *** Explicit date strings

    The three regular-expression attempts of [_parse_date_string], each on
    its own: the date it reads, or nothing. *)
Definition attempt_ymd (s : str) : option datetime :=
  match search re_ymd s with
  | Some m =>
      try_return
        (datetime_new (int_of (group "y" m)) (int_of (group "m" m))
                      (int_of (group "d" m)))
        None
  | None => None
  end.

Definition named_month (m : match_obj) : option datetime :=
  match month_lookup (lower (group "mon" m)) with
  | Some monnum =>
      if (monnum =? 0)%Z then None
      else try_return
             (datetime_new (int_of (group "y" m)) monnum (int_of (group "d" m)))
             None
  | None => None
  end.

Definition attempt_dmy (s : str) : option datetime :=
  match search re_dmy s with
  | Some m => named_month m
  | None => None
  end.

Definition attempt_mdy (s : str) : option datetime :=
  match search re_mdy s with
  | Some m => named_month m
  | None => None
  end.

(** The first attempt that succeeds. *)
Fixpoint first_success (attempts : list (option datetime)) : option datetime :=
  match attempts with
  | [] => None
  | Some d :: _ => Some d
  | None :: rest => first_success rest
  end.

(** The normalization of a raw lexicon score. *)
Definition normalise (raw : Q) : Q :=
  if Qlt_le_dec 0 raw then Qmin (raw / 3.0) 1.0
  else if Qlt_le_dec raw 0 then Qmax (raw / 3.0) (-1.0)
  else 0.0%Q.

(** The weights of the lexicon terms that occur in [s] as whole words, and
    the raw score of a sentence: their sum, negated when a negation token
    occurs as a whole word. *)
Definition matched_weights (s : str) : list Q :=
  map snd (filter (fun item => found (search (re_word (fst item)) s))
                  GERMAN_LEXICON).

Definition raw_score (sentence : str) : Q :=
  let s := lower sentence in
  if found (search re_negation s)
  then (- total (matched_weights s))%Q
  else total (matched_weights s).

(** The keyword set of a language tag, and AI relevance of a sentence. *)
Definition keywords (lang : str) : list str :=
  if startswith (u "de") lang then AI_KEYWORDS_DE else AI_KEYWORDS_EN.

Definition ai_relevant (lang s : str) : bool :=
  (20 <=? length s) && existsb (fun k => contains k (lower s)) (keywords lang).

Definition label_eqb (a b : label) : bool :=
  match a, b with
  | positive, positive | neutral, neutral | negative, negative => true
  | _, _ => false
  end.

End Spec.

Section SpecRunner.

Context {L : Libs}.

(** The per-sentence label of an AI sentence, and the sentences of a
    release that carry a given label, in their original order. *)
Definition sentence_label (item : str * str) : label :=
  fst (label_from_score (score_sentence (fst item) (snd item))).

Definition labelled (lbl : label) (ai_sents : list (str * str)) : list str :=
  map snd (filter (fun item => Spec.label_eqb (sentence_label item) lbl) ai_sents).

End SpecRunner.

(** ** Further specification-side definitions *)

(** The order of the labels: negative below neutral below positive. *)
Definition label_rank (l : label) : Z :=
  match l with
  | negative => (-1)%Z
  | neutral => 0%Z
  | positive => 1%Z
  end.

(** The keywords that are not another keyword with a word in front. *)
Definition core_keywords (keys : list str) : list str :=
  filter (fun k => negb (startswith (u "generative ") k)) keys.

(** A release with its [local] flag set to [b]. *)
Definition with_local (item : release) (b : bool) : release :=
  Release (url item) (title item) (text item) b (publish_date item)
          (company item).

(** The year and month of a date. *)
Definition year_month (d : datetime) : Z * Z := (year d, month d).

(** The year and month of a release: those of its publish date when it has
    one, else of the first of text, title and URL in which a date is
    found. *)
Definition year_month_of (pd : option datetime) (text title url : str)
    : option (Z * Z) :=
  match pd with
  | Some d => Some (year_month d)
  | None =>
      option_map year_month
        (Spec.first_success
           [Spec.find_date text; Spec.find_date title; Spec.find_date url])
  end.

Section SpecRow.

Context {L : Libs}.

(** The release passes the length test of [run_pipeline]. *)
Definition long_enough (r : release) : bool :=
  50 <=? length (text (ensure_text r)).

(** The row of a release in closed form: the aggregate of the scores of
    its AI sentences, and for each label the first three of them. *)
Definition row_of (r : release) : row :=
  let txt := text (ensure_text r) in
  let ai := extract_ai_sentences txt in
  let agg :=
    aggregate_release (map (fun item => score_sentence (fst item) (snd item)) ai) in
  Row (company r) (title r) (url r)
      (year_month_of (publish_date r) txt (title r) (url r))
      (agg_label agg)
      (py_round (agg_score agg) 4)
      (py_round (agg_confidence agg) 3)
      (length ai)
      (join (u " | ") (firstn 3 (labelled positive ai)))
      (join (u " | ") (firstn 3 (labelled neutral ai)))
      (join (u " | ") (firstn 3 (labelled negative ai))).

End SpecRow.

(** The names of the groups of a pattern. *)
Fixpoint group_names (r : regex) : list string :=
  match r with
  | Cat r1 r2 | Alt r1 r2 => group_names r1 ++ group_names r2
  | Grp name r1 => name :: group_names r1
  | _ => []
  end.

(** A year token: "20" and two digits. *)
Definition is_year_token (y : str) : Prop :=
  exists c d : ascii,
    y = ["2"%char; "0"%char; c; d] /\ is_digit c = true /\ is_digit d = true.

(** A date of the years 2000 to 2099 that exists in the calendar. *)
Definition in_calendar (d : datetime) : Prop :=
  (2000 <= year d <= 2099)%Z /\ (1 <= month d <= 12)%Z /\
  (1 <= day d <= days_in_month (year d) (month d))%Z.

(** ** ISO 8601 calendar dates *)





(** ** Collecting releases *)

Definition TECDAX_COMPANIES : list (str * str) :=
  [ (u "elmos", u "https://www.elmos.com/english/about-elmos/newsroom/press-releases.html");
    (u "hensoldt", u "https://investors.hensoldt.net/news/");
    (u "ionos", u "https://www.ionos-group.com/newsroom/");
    (u "nemetschek", u "https://www.nemetschek.com/en/news-media/newsroom/");
    (u "sap", u "https://news.sap.com/press-room/");
    (u "suess", u "https://www.suss.com/en/news");
    (u "zeiss med", u "https://www.zeiss.com/meditec-ag/en/media-news.html");
    (u "evotec", u "https://www.evotec.com/ir-news/news");
    (u "formycon", u "https://www.formycon.com/en/news-media/press-releases/");
    (u "sma solar", u "https://www.sma.de/en/investor-relations/news");
    (u "stratec", u "https://www.stratec.com/news");
    (u "verbio", u "https://www.verbio.de/en/investor-relations/corporate-news/") ].

Definition LOCAL_FALLBACK_DIR : str := u "local_releases".

(** [d.keys()], in the order the dict was written. *)
Definition keys {V : Type} (d : list (str * V)) : list str := map fst d.

(** The loop of [_infer_company_from_filename]: the first key whose
    lowercased form occurs in [lname], else the empty string. *)
Fixpoint first_key_in (ks : list str) (lname : str) : str :=
  match ks with
  | [] => []
  | key :: ks' =>
      if contains (lower key) lname then key else first_key_in ks' lname
  end.

Definition _infer_company_from_filename (fname : str) : str :=
  let lname := lower fname in
  first_key_in (keys TECDAX_COMPANIES) lname.

(** [os.path.join(a, b)] on a POSIX system, for a relative or absolute
    [b]. *)
Definition path_join (a b : str) : str :=
  if startswith (u "/") b then b
  else if is_empty a || endswith (u "/") a then a ++ b
  else a ++ u "/" ++ b.

(** Reading a file: [read_text path] is what [open(path, "r",
    encoding="utf-8", errors="ignore")] and [f.read()] return, [None] when
    either raises. *)
Class Files : Type := {
  read_text : str -> option str
}.

Section Collect.

Context {F : Files}.

(** One turn of the loop of [collect_press_releases] over the names in
    [LOCAL_FALLBACK_DIR]: [Some item] is the item appended to [results],
    [None] stands for [continue]. *)
Definition local_release (fname : str) : option release :=
  let path := path_join LOCAL_FALLBACK_DIR fname in
  if endswith (u ".pdf") (lower fname) then
    Some (Release path fname [] true None (_infer_company_from_filename fname))
  else
    match read_text path with
    | Some content =>
        match _find_date_in_text fname with
        | Ok pd =>
            Some (Release path fname content true pd
                          (_infer_company_from_filename fname))
        | Raised => None
        end
    | None => None
    end.

(** The items the loop appends for the directory listing [fnames]. *)
Fixpoint local_releases (fnames : list str) : list release :=
  match fnames with
  | [] => []
  | fname :: fnames' =>
      match local_release fname with
      | Some item => item :: local_releases fnames'
      | None => local_releases fnames'
      end
  end.

End Collect.

(** A directory with one text file, for evaluating the properties. *)
Definition sample_files : Files := {|
  read_text := fun path =>
    if Str.eqb path (u "local_releases/sap maerz 2021.txt")
    then Some (u "Die KI ist gut. Der Bericht vom 3. Mai 2022 ist lang genug.")
    else None
|}.

(** ** Links of a press page *)

(** [s.split(sep)] for a non-empty separator: the pieces between the
    occurrences of [sep], found from left to right without overlap.
    [skip] counts the characters of an occurrence still to pass, [piece]
    is the piece read so far (reversed). *)
Fixpoint split_on_from (sep : str) (skip : nat) (piece s : str) : list str :=
  match s with
  | [] => [rev piece]
  | c :: s' =>
      match skip with
      | S skip' => split_on_from sep skip' piece s'
      | O =>
          if startswith sep s
          then rev piece :: split_on_from sep (length sep - 1) [] s'
          else split_on_from sep 0 (c :: piece) s'
      end
  end.

Definition split_on (sep s : str) : list str := split_on_from sep 0 [] s.

(** [base_url.split("//")[-1].split("/")[0]] *)
Definition base_domain_of (base_url : str) : str :=
  hd [] (split_on (u "/") (last (split_on (u "//") base_url) [])).

(** A page as the program reads it off the tree that
    [BeautifulSoup(html, "html.parser")] builds:
    - [anchors_href]: the [href] values of
      [soup.find_all("a", href=True)], in document order;
    - [soup_heading]: [get_text(strip=True)] of
      [soup.find(["h1", "h2"])], [None] without such a tag;
    - [soup_paragraphs]: [p.get_text(" ", strip=True)] for the [p] of
      [soup.find_all("p")];
    - [soup_times]: [t.get("datetime")] and
      [t.get_text(" ", strip=True)] for the [t] of
      [soup.find_all(["time"])];
    - [soup_text]: [soup.get_text(" ", strip=True)]. *)
Record soup : Type := Soup {
  anchors_href : list str;
  soup_heading : option str;
  soup_paragraphs : list str;
  soup_times : list (option str * str);
  soup_text : str
}.

(** The HTML library and the URL resolver.  Both are called outside any
    [try], so an exception of theirs leaves the calling function:
    - [BeautifulSoup html]: the tree of [BeautifulSoup(html,
      "html.parser")], [None] when building it raises (the parser rejects
      some markup);
    - [urljoin base href]: [requests.compat.urljoin], [None] when it
      raises ([ValueError] on a reference it cannot split). *)
Class Web : Type := {
  BeautifulSoup : str -> option soup;
  urljoin : str -> str -> option str
}.

(** The value of a library call, or the exception it raises. *)
Definition returned {A : Type} (x : option A) : exn A :=
  match x with
  | Some a => Ok a
  | None => Raised
  end.

(** [links.add(href)]: a set is written as the list of its elements in
    the order they were first added.  Python leaves the order of
    [list(links)] open; the properties below speak of membership only. *)
Definition set_add (x : str) (links : list str) : list str :=
  if existsb (Str.eqb x) links then links else links ++ [x].

Section Links.

Context {W : Web}.

(** The test of [extract_press_links] on a resolved link. *)
Definition is_press_link (base_domain href : str) : bool :=
  negb (is_empty base_domain) && contains base_domain href
  && (contains (u "press") (lower href) || contains (u "news") (lower href)
      || contains (u "presse") (lower href)).

(** [a["href"].strip()], resolved against [base_url] when it starts with
    a slash. *)
Definition resolve (base_url raw : str) : exn str :=
  let href := strip raw in
  if startswith (u "/") href then returned (urljoin base_url href) else Ok href.

(** The [for a in soup.find_all("a", href=True)] loop. *)
Fixpoint links_loop (hrefs : list str) (base_url base_domain : str)
    (links : list str) : exn (list str) :=
  match hrefs with
  | [] => Ok links
  | raw :: hrefs' =>
      href <- resolve base_url raw ;;
      links_loop hrefs' base_url base_domain
        (if is_press_link base_domain href then set_add href links else links)
  end.

Definition extract_press_links (domain_html base_url : str) : exn (list str) :=
  page <- returned (BeautifulSoup domain_html) ;;
  let base_domain := base_domain_of base_url in
  links_loop (anchors_href page) base_url base_domain [].

End Links.

(** An environment in which the language of no text is detected. *)
Definition undetected_libs : Libs := {|
  detect := fun _ => None;
  sent_tokenize := fun _ _ => None;
  polarity_compound := fun _ => 0.5%Q;
  pdf_extract_text := fun _ => None;
  fromisoformat := iso_date_only
|}.

(** One or two digits. *)
Definition is_day_or_month (ds : str) : Prop :=
  (exists a : ascii, ds = [a] /\ is_digit a = true) \/
  (exists a b : ascii, ds = [a; b] /\ is_digit a = true /\ is_digit b = true).


(** ** Scraping a page *)

(** The network and the article parser, for a page at [url] with source
    [html]:
    - [fetch_with_requests url], [fetch_with_playwright url]: the text
      the two fetchers return, the empty string when anything raises;
    - [article url html]: the values of [title], [text] and
      [publish_date] after the [try] block that runs newspaper's
      [Article(url)], [download(input_html=html)] and [parse()]: the
      article's title, text and date as far as they were set, the initial
      [""], [""] and [None] otherwise. *)
Class Page : Type := {
  fetch_with_requests : str -> str;
  fetch_with_playwright : str -> str;
  article : str -> str -> str * str * option datetime
}.

Definition newline : ascii := ascii_of_nat 10.

Section Scrape.

Context {L : Libs} {P : Page} {W : Web}.

(** The date a [time] tag gives through its [datetime] attribute: the
    attribute must be set, not empty, and valid for the strict parser. *)
Definition attribute_date (attr : option str) : option datetime :=
  match attr with
  | Some a => if is_empty a then None else fromisoformat a
  | None => None
  end.

(** The [for t in time_tags] loop: the first tag that gives a date,
    through its attribute or else its text, sets [publish_date] and ends
    the loop. *)
Fixpoint time_tags_loop (time_tags : list (option str * str))
    (publish_date : option datetime) : option datetime :=
  match time_tags with
  | [] => publish_date
  | (attr, txt) :: time_tags' =>
      match attribute_date attr with
      | Some d => Some d
      | None =>
          match _parse_date_string txt with
          | Some parsed => Some parsed
          | None => time_tags_loop time_tags' publish_date
          end
      end
  end.

Definition scrape_press_release_page (url company_key : str)
    : exn (list release) :=
  let html := fetch_with_requests url in
  let html := if is_empty html then fetch_with_playwright url else html in
  if is_empty html then Ok []
  else
    let '(title, text, publish_date) := article url html in
    if is_empty text then
      page <- returned (BeautifulSoup html) ;;
      let title :=
        match soup_heading page with
        | Some heading => heading
        | None => title
        end in
      let paragraphs := soup_paragraphs page in
      let text :=
        match paragraphs with
        | [] => text
        | _ :: _ => join [newline; newline] paragraphs
        end in
      let publish_date := time_tags_loop (soup_times page) publish_date in
      match publish_date with
      | Some d => Ok [Release url title text false (Some d) company_key]
      | None =>
          parsed <- _find_date_in_text (soup_text page) ;;
          Ok [Release url title text false parsed company_key]
      end
    else Ok [Release url title text false publish_date company_key].

End Scrape.

Section SpecScrape.

Context {L : Libs} {P : Page}.

(** The page source the scraper works on. *)
Definition page_source (url : str) : str :=
  if is_empty (fetch_with_requests url) then fetch_with_playwright url
  else fetch_with_requests url.

(** The dates a page offers when the article gave no text, in the order
    the scraper prefers them: for each [time] tag in document order its
    attribute, then its text; then the article's date; then a date found
    in the text of the whole page. *)
Definition page_dates (page : soup) (article_date : option datetime)
    : list (option datetime) :=
  flat_map (fun tag => [attribute_date (fst tag); _parse_date_string (snd tag)])
           (soup_times page)
  ++ [article_date; Spec.find_date (soup_text page)].

End SpecScrape.

(** ** The whole collection *)

(** The local directory and the order of a set:
    - [isdir], [listdir]: [os.path.isdir] and [os.listdir], which raises
      when the directory cannot be read;
    - [set_order l]: [list(s)] for the set [s] of the strings of [l];
      Python fixes no order, [set_order] is the one it happens to give. *)
Class Dir : Type := {
  isdir : str -> bool;
  listdir : str -> exn (list str);
  set_order : list str -> list str
}.

Section CollectAll.

Context {L : Libs} {P : Page} {W : Web} {F : Files} {D : Dir}.

(** The [for u in list(candidate_urls)[:30]] loop. *)
Fixpoint scrape_all (urls : list str) (name : str) : exn (list release) :=
  match urls with
  | [] => Ok []
  | u :: urls' =>
      items <- scrape_press_release_page u name ;;
      more <- scrape_all urls' name ;;
      Ok (items ++ more)
  end.

(** One turn of the loop over [TECDAX_COMPANIES.items()]: the items the
    pages of one company add to [results]. *)
Definition company_releases (name url : str) : exn (list release) :=
  if is_empty url then Ok []
  else
    let html := fetch_with_requests url in
    let html := if is_empty html then fetch_with_playwright url else html in
    if is_empty html then Ok []
    else
      links <- extract_press_links html url ;;
      let candidate_urls := set_order (url :: links) in
      scrape_all (firstn 30 candidate_urls) name.

Fixpoint web_releases (companies : list (str * str)) : exn (list release) :=
  match companies with
  | [] => Ok []
  | (name, url) :: companies' =>
      items <- company_releases name url ;;
      more <- web_releases companies' ;;
      Ok (items ++ more)
  end.

Definition collect_press_releases : exn (list release) :=
  results <- web_releases TECDAX_COMPANIES ;;
  if isdir LOCAL_FALLBACK_DIR
  then
    fnames <- listdir LOCAL_FALLBACK_DIR ;;
    Ok (results ++ local_releases fnames)
  else Ok results.

(** [run_pipeline] from the start: collect, then process. *)
Definition run_pipeline_collected : exn (list row) :=
  releases <- collect_press_releases ;;
  run_pipeline releases.

End CollectAll.

(** What holds of an item scraped from the pages [pages] for [name]. *)
Definition scraped_from (name : str) (pages : list str) (item : release) : Prop :=
  company item = name /\ local item = false /\ In (url item) pages.

(** What holds of an item built for a local file. *)
Definition local_item (fnames : list str) (item : release) : Prop :=
  local item = true /\ In (title item) fnames /\
  url item = path_join LOCAL_FALLBACK_DIR (title item) /\
  company item = _infer_company_from_filename (title item).

(** A small web for evaluating the properties: every page can be
    fetched, holds one link back to the news of its site and no article;
    the local directory holds the sample text file. *)
Definition sample_page : Page := {|
  fetch_with_requests := fun _ => u "<html></html>";
  fetch_with_playwright := fun _ => [];
  article := fun _ _ => ([], [], None)
|}.

Definition sample_web : Web := {|
  BeautifulSoup := fun _ => Some (Soup [u "/news/1"] None [] [] []);
  urljoin := fun base href => Some (base ++ href)
|}.

Definition sample_dir : Dir := {|
  isdir := fun _ => true;
  listdir := fun _ => Ok [u "sap maerz 2021.txt"; u "notes.md"];
  set_order := fun l => rev (nodup (list_eq_dec ascii_dec) l)
|}.

(** * Properties *)

(** ** Rationals and comparisons *)

Lemma Qltb_lt (a b : Q) : Qltb a b = true <-> (a < b)%Q.
Proof.
  unfold Qltb. rewrite negb_true_iff. split.
  - intros H. apply Qnot_le_lt. intros Hle.
    apply Qle_bool_iff in Hle. congruence.
  - intros H. destruct (Qle_bool b a) eqn:E; [|reflexivity].
    apply Qle_bool_iff in E. exfalso. exact (Qlt_not_le _ _ H E).
Qed.

Lemma Qltb_ge (a b : Q) : Qltb a b = false <-> (b <= a)%Q.
Proof.
  unfold Qltb. rewrite negb_false_iff. apply Qle_bool_iff.
Qed.

Lemma Qle_bool_false (a b : Q) : Qle_bool a b = false <-> (b < a)%Q.
Proof.
  split.
  - intros H. apply Qnot_le_lt. intros Hle.
    apply Qle_bool_iff in Hle. congruence.
  - intros H. destruct (Qle_bool a b) eqn:E; [|reflexivity].
    apply Qle_bool_iff in E. exfalso. exact (Qlt_not_le _ _ H E).
Qed.

Lemma Qle_bool_proper (a a' b b' : Q) :
  (a == a')%Q -> (b == b')%Q -> Qle_bool a b = Qle_bool a' b'.
Proof.
  intros Ha Hb.
  destruct (Qle_bool a b) eqn:E1, (Qle_bool a' b') eqn:E2; try reflexivity.
  - apply Qle_bool_iff in E1. apply Qle_bool_false in E2.
    rewrite Ha, Hb in E1. exfalso. exact (Qlt_not_le _ _ E2 E1).
  - apply Qle_bool_iff in E2. apply Qle_bool_false in E1.
    rewrite <- Ha, <- Hb in E2. exfalso. exact (Qlt_not_le _ _ E1 E2).
Qed.

(** ** The labelling rule *)

Lemma label_from_score_fst (score : Q) :
  fst (label_from_score score) =
  if Qle_bool THRESHOLD_positive score then positive
  else if Qle_bool score THRESHOLD_negative then negative else neutral.
Proof.
  unfold label_from_score.
  destruct (Qle_bool THRESHOLD_positive score);
    [|destruct (Qle_bool score THRESHOLD_negative)]; reflexivity.
Qed.

Lemma label_from_score_snd (score : Q) : snd (label_from_score score) = score.
Proof.
  unfold label_from_score.
  destruct (Qle_bool THRESHOLD_positive score);
    [|destruct (Qle_bool score THRESHOLD_negative)]; reflexivity.
Qed.

Lemma label_from_score_proper (a b : Q) :
  (a == b)%Q -> fst (label_from_score a) = fst (label_from_score b).
Proof.
  intros H. rewrite !label_from_score_fst.
  rewrite (Qle_bool_proper (a := THRESHOLD_positive) (b := a)
             (Qeq_refl THRESHOLD_positive) H).
  rewrite (Qle_bool_proper (a := a) (b := THRESHOLD_negative)
             H (Qeq_refl THRESHOLD_negative)).
  reflexivity.
Qed.

Lemma label_positive_iff (score : Q) :
  fst (label_from_score score) = positive <-> (0.05 <= score)%Q.
Proof.
  rewrite label_from_score_fst.
  destruct (Qle_bool THRESHOLD_positive score) eqn:E.
  - apply Qle_bool_iff in E. tauto.
  - apply Qle_bool_false in E. split.
    + destruct (Qle_bool score THRESHOLD_negative); discriminate.
    + intros H. exfalso. exact (Qlt_not_le _ _ E H).
Qed.

Lemma label_negative_iff (score : Q) :
  fst (label_from_score score) = negative <-> (score <= -0.05)%Q.
Proof.
  rewrite label_from_score_fst.
  destruct (Qle_bool THRESHOLD_positive score) eqn:E.
  - apply Qle_bool_iff in E. split; [discriminate|].
    intros H. exfalso.
    assert (Hc : (THRESHOLD_positive <= -0.05)%Q) by (eapply Qle_trans; eauto).
    revert Hc. unfold THRESHOLD_positive, Qle. simpl. lia.
  - destruct (Qle_bool score THRESHOLD_negative) eqn:E2.
    + apply Qle_bool_iff in E2. tauto.
    + apply Qle_bool_false in E2. split; [discriminate|].
      intros H. exfalso. exact (Qlt_not_le _ _ E2 H).
Qed.

Lemma label_neutral_iff (score : Q) :
  fst (label_from_score score) = neutral <->
  (-0.05 < score)%Q /\ (score < 0.05)%Q.
Proof.
  rewrite label_from_score_fst.
  destruct (Qle_bool THRESHOLD_positive score) eqn:E.
  - apply Qle_bool_iff in E. split; [discriminate|].
    intros [_ H]. exfalso. exact (Qlt_not_le _ _ H E).
  - apply Qle_bool_false in E.
    destruct (Qle_bool score THRESHOLD_negative) eqn:E2.
    + apply Qle_bool_iff in E2. split; [discriminate|].
      intros [H _]. exfalso. exact (Qlt_not_le _ _ H E2).
    + apply Qle_bool_false in E2. tauto.
Qed.

Lemma aggregate_label_score (s : Q) (scores : list Q) :
  agg_label (aggregate_release (s :: scores)) =
  fst (label_from_score (agg_score (aggregate_release (s :: scores)))).
Proof.
  unfold aggregate_release.
  destruct (label_from_score
              (py_sum (s :: scores) / float_of_int (len (s :: scores)))) as [lbl sc] eqn:E.
  simpl. rewrite E. reflexivity.
Qed.

(** C6: [label_from_score] returns the score unchanged with the label
    positive exactly when the score is at least 0.05, negative exactly when
    it is at most -0.05, and neutral exactly when it lies strictly between;
    0.05, -0.05 and 0.0 are labelled positive, negative and neutral; the
    label of a release aggregate and the label that selects a sentence's
    example bucket in the loop of [run_pipeline] both are this function's. *)
Theorem label_from_score_thresholds :
  (forall score : Q,
     snd (label_from_score score) = score /\
     (fst (label_from_score score) = positive <-> (0.05 <= score)%Q) /\
     (fst (label_from_score score) = negative <-> (score <= -0.05)%Q) /\
     (fst (label_from_score score) = neutral <->
        (-0.05 < score)%Q /\ (score < 0.05)%Q)) /\
  label_from_score 0.05 = (positive, 0.05%Q) /\
  label_from_score (-0.05) = (negative, (-0.05)%Q) /\
  label_from_score 0.0 = (neutral, 0.0%Q) /\
  (forall (s : Q) (scores : list Q),
     agg_label (aggregate_release (s :: scores)) =
     fst (label_from_score (agg_score (aggregate_release (s :: scores))))) /\
  (forall (L : Libs) (lang sent : str) (scores : list Q) (ex : examples),
     score_loop [(lang, sent)] scores ex =
     (scores ++ [score_sentence lang sent],
      let lbl := fst (label_from_score (score_sentence lang sent)) in
      if length (bucket lbl ex) <? 3 then append lbl sent ex else ex)).
Proof.
  split; [|split; [|split; [|split; [|split]]]].
  - intros score. split; [apply label_from_score_snd|].
    split; [apply label_positive_iff|].
    split; [apply label_negative_iff|apply label_neutral_iff].
  - reflexivity.
  - reflexivity.
  - reflexivity.
  - apply aggregate_label_score.
  - intros L lang sent scores ex. simpl.
    destruct (label_from_score (score_sentence lang sent)) as [lbl sc].
    reflexivity.
Qed.

(** ** The release aggregate *)

Lemma py_sum_total_from (xs : list Q) (a : Q) :
  (fold_left Qplus xs a == a + Spec.total xs)%Q.
Proof.
  revert a. induction xs as [|x xs IH]; intros a; simpl.
  - ring.
  - rewrite IH. ring.
Qed.

Lemma py_sum_total (xs : list Q) : (py_sum xs == Spec.total xs)%Q.
Proof.
  unfold py_sum. rewrite py_sum_total_from. ring.
Qed.

Lemma py_sum_int_ones_from {X : Type} (xs : list X) (a : Z) :
  fold_left Z.add (map (fun _ => 1%Z) xs) a = (a + Z.of_nat (length xs))%Z.
Proof.
  revert a. induction xs as [|x xs IH]; intros a.
  - simpl. lia.
  - cbn [map fold_left length]. rewrite IH. lia.
Qed.

Lemma py_sum_int_ones {X : Type} (xs : list X) :
  py_sum_int (map (fun _ => 1%Z) xs) = Z.of_nat (length xs).
Proof.
  unfold py_sum_int. rewrite py_sum_int_ones_from. lia.
Qed.

Lemma non_neutral_filter (xs : list Q) :
  filter (fun s => Qltb 0.05 (Qabs s)) xs =
  filter (fun s => if Qlt_le_dec 0.05 (Qabs s) then true else false) xs.
Proof.
  apply filter_ext. intros s.
  destruct (Qlt_le_dec 0.05 (Qabs s)) as [H|H].
  - apply Qltb_lt. exact H.
  - apply Qltb_ge. exact H.
Qed.

Lemma non_neutral_count (xs : list Q) :
  py_sum_int (map (fun _ => 1%Z) (filter (fun s => Qltb 0.05 (Qabs s)) xs)) =
  Z.of_nat (Spec.count_non_neutral xs).
Proof.
  rewrite py_sum_int_ones, non_neutral_filter. reflexivity.
Qed.

Lemma count_non_neutral_le (xs : list Q) :
  Spec.count_non_neutral xs <= length xs.
Proof. apply filter_length_le. Qed.

Lemma fraction_in_unit (k n : nat) :
  k <= n -> 0 < n ->
  (0 <= inject_Z (Z.of_nat k) / inject_Z (Z.of_nat n))%Q /\
  (inject_Z (Z.of_nat k) / inject_Z (Z.of_nat n) <= 1)%Q.
Proof.
  intros Hkn Hn.
  assert (Hpos : (0 < inject_Z (Z.of_nat n))%Q).
  { unfold Qlt, inject_Z. simpl. lia. }
  split.
  - apply Qle_shift_div_l; [exact Hpos|].
    rewrite Qmult_0_l. change 0%Q with (inject_Z 0).
    rewrite <- Zle_Qle. lia.
  - apply Qle_shift_div_r; [exact Hpos|].
    rewrite Qmult_1_l. rewrite <- Zle_Qle. lia.
Qed.

Lemma aggregate_release_cons (s : Q) (scores : list Q) :
  let xs := s :: scores in
  aggregate_release xs =
  Aggregate (fst (label_from_score (py_sum xs / float_of_int (len xs))))
            (py_sum xs / float_of_int (len xs))
            (float_of_int
               (py_sum_int (map (fun _ => 1%Z)
                                (filter (fun s => Qltb 0.05 (Qabs s)) xs)))
             / float_of_int (len xs))
            (length xs).
Proof.
  intros xs. unfold aggregate_release. fold xs.
  destruct (label_from_score (py_sum xs / float_of_int (len xs))) as [lbl sc].
  reflexivity.
Qed.

(** ** Rounding in binary64 *)

Module Rounding.

Import Binary64.

Local Open Scope Z_scope.
Local Unset Implicit Arguments.







Lemma Zdigits2_nonneg (m : Z) : 0 <= Zdigits2 m.
Proof. destruct m; cbn; lia. Qed.

















End Rounding.




(** ** The German lexicon scorer *)

Lemma lexicon_sum_total (items : list (str * Q)) (s : str) (a : Q) :
  (lexicon_sum items s a ==
   a + Spec.total (map snd (filter (fun item => found (search (re_word (fst item)) s))
                                   items)))%Q.
Proof.
  revert a. induction items as [|[w val] items IH]; intros a; simpl.
  - ring.
  - destruct (found (search (re_word w) s)); simpl; rewrite IH; ring.
Qed.

Lemma german_score_normalise (raw : Q) :
  (if Qltb 0 raw then Qmin (raw / 3.0) 1.0
   else if Qltb raw 0 then Qmax (raw / 3.0) (-1.0)
   else 0.0%Q) = Spec.normalise raw.
Proof.
  unfold Spec.normalise.
  destruct (Qlt_le_dec 0 raw) as [H|H].
  - apply Qltb_lt in H. rewrite H. reflexivity.
  - apply Qltb_ge in H. rewrite H.
    destruct (Qlt_le_dec raw 0) as [H'|H'].
    + apply Qltb_lt in H'. rewrite H'. reflexivity.
    + apply Qltb_ge in H'. rewrite H'. reflexivity.
Qed.

Lemma normalise_proper (a b : Q) :
  (a == b)%Q -> (Spec.normalise a == Spec.normalise b)%Q.
Proof.
  intros E. unfold Spec.normalise.
  destruct (Qlt_le_dec 0 a) as [Ha|Ha], (Qlt_le_dec 0 b) as [Hb|Hb].
  - rewrite E. reflexivity.
  - rewrite E in Ha. exfalso. exact (Qlt_not_le _ _ Ha Hb).
  - rewrite <- E in Hb. exfalso. exact (Qlt_not_le _ _ Hb Ha).
  - destruct (Qlt_le_dec a 0) as [Ha'|Ha'], (Qlt_le_dec b 0) as [Hb'|Hb'].
    + rewrite E. reflexivity.
    + rewrite E in Ha'. exfalso. exact (Qlt_not_le _ _ Ha' Hb').
    + rewrite <- E in Hb'. exfalso. exact (Qlt_not_le _ _ Hb' Ha').
    + reflexivity.
Qed.

Lemma third_nonneg (raw : Q) : (0 <= raw)%Q -> (0 <= raw / 3.0)%Q.
Proof.
  intros H. apply Qle_shift_div_l; [reflexivity|].
  rewrite Qmult_0_l. exact H.
Qed.

Lemma third_nonpos (raw : Q) : (raw <= 0)%Q -> (raw / 3.0 <= 0)%Q.
Proof.
  intros H. apply Qle_shift_div_r; [reflexivity|].
  rewrite Qmult_0_l. exact H.
Qed.

Lemma normalise_range (raw : Q) :
  (-1 <= Spec.normalise raw)%Q /\ (Spec.normalise raw <= 1)%Q.
Proof.
  unfold Spec.normalise.
  destruct (Qlt_le_dec 0 raw) as [H|H]; [|destruct (Qlt_le_dec raw 0) as [H'|H']].
  - split.
    + apply Q.min_glb; [|discriminate].
      apply Qle_trans with 0%Q; [discriminate|].
      apply third_nonneg, Qlt_le_weak, H.
    + apply Qle_trans with 1.0%Q; [apply Q.le_min_r|discriminate].
  - split.
    + apply Qle_trans with (-1.0)%Q; [discriminate|apply Q.le_max_r].
    + apply Q.max_lub; [|discriminate].
      apply Qle_trans with 0%Q; [|discriminate].
      apply third_nonpos, Qlt_le_weak, H'.
  - split; discriminate.
Qed.

Lemma german_score_raw (sentence : str) :
  (german_score sentence == Spec.normalise (Spec.raw_score sentence))%Q.
Proof.
  unfold german_score. cbv zeta. rewrite german_score_normalise.
  apply normalise_proper. unfold Spec.raw_score. cbv zeta.
  destruct (found (search re_negation (lower sentence))).
  - rewrite lexicon_sum_total. unfold Spec.matched_weights. ring.
  - rewrite lexicon_sum_total. unfold Spec.matched_weights. ring.
Qed.

Lemma german_score_range (sentence : str) :
  (-1 <= german_score sentence)%Q /\ (german_score sentence <= 1)%Q.
Proof.
  rewrite german_score_raw. apply normalise_range.
Qed.

(** C5: provided the English analyzer's compound value lies in [-1, 1],
    [score_sentence] returns a value in [-1, 1] for every sentence and
    every language tag; for a tag that starts with "de" the value is the
    normalization of the raw lexicon score (min(raw/3, 1) when raw > 0,
    max(raw/3, -1) when raw < 0, 0 otherwise), and for every other tag it
    is the analyzer's compound value itself. *)
Theorem score_sentence_range (L : Libs)
    (compound_range :
       forall s : str, (-1 <= polarity_compound s)%Q /\ (polarity_compound s <= 1)%Q)
    (lang sentence : str) :
  ((-1 <= score_sentence lang sentence)%Q /\ (score_sentence lang sentence <= 1)%Q) /\
  (is_de lang = true ->
     (score_sentence lang sentence == Spec.normalise (Spec.raw_score sentence))%Q) /\
  (is_de lang = false -> score_sentence lang sentence = polarity_compound sentence).
Proof.
  unfold score_sentence. destruct (is_de lang).
  - split; [apply german_score_range|].
    split; [intros _; apply german_score_raw|discriminate].
  - split; [apply compound_range|].
    split; [discriminate|reflexivity].
Qed.

Lemma score_sentence_range_witness :
  ((-1 <= @score_sentence sample_libs (u "de") (u "Die KI ist nicht gut."))%Q /\
   (@score_sentence sample_libs (u "de") (u "Die KI ist nicht gut.") <= 1)%Q) /\
  ((-1 <= @score_sentence sample_libs (u "en") (u "The AI is good."))%Q /\
   (@score_sentence sample_libs (u "en") (u "The AI is good.") <= 1)%Q).
Proof.
  assert (H : forall s : str,
             (-1 <= @polarity_compound sample_libs s)%Q /\
             (@polarity_compound sample_libs s <= 1)%Q).
  { intros s. simpl. split; discriminate. }
  split.
  - exact (proj1 (score_sentence_range sample_libs H (u "de") (u "Die KI ist nicht gut."))).
  - exact (proj1 (score_sentence_range sample_libs H (u "en") (u "The AI is good."))).
Defined.

(** ** The example buckets *)

Lemma label_eqb_eq (a b : label) : Spec.label_eqb a b = true <-> a = b.
Proof. destruct a, b; simpl; split; congruence. Qed.

Lemma label_eqb_refl (a : label) : Spec.label_eqb a a = true.
Proof. destruct a; reflexivity. Qed.

Lemma bucket_append_same (lbl : label) (sent : str) (ex : examples) :
  bucket lbl (append lbl sent ex) = bucket lbl ex ++ [sent].
Proof. destruct lbl; reflexivity. Qed.

Lemma bucket_append_other (lbl lbl' : label) (sent : str) (ex : examples) :
  lbl <> lbl' -> bucket lbl (append lbl' sent ex) = bucket lbl ex.
Proof. destruct lbl, lbl'; simpl; congruence. Qed.

Lemma firstn_cap_snoc {X : Type} (b : list X) (x : X) (xs : list X) :
  length b < 3 ->
  (b ++ [x]) ++ firstn (3 - length (b ++ [x])) xs =
  b ++ firstn (3 - length b) (x :: xs).
Proof.
  intros H. destruct b as [|b0 [|b1 [|b2 b]]]; simpl in *; try lia; reflexivity.
Qed.

Lemma firstn_cap_full {X : Type} (b : list X) (x : X) (xs : list X) :
  3 <= length b ->
  b ++ firstn (3 - length b) xs = b ++ firstn (3 - length b) (x :: xs).
Proof.
  intros H. replace (3 - length b) with 0 by lia. reflexivity.
Qed.

Section Loop.

Context {L : Libs}.

Lemma score_loop_step (lang sent : str) (rest : list (str * str))
    (scores : list Q) (ex : examples) :
  score_loop ((lang, sent) :: rest) scores ex =
  score_loop rest (scores ++ [score_sentence lang sent])
    (if length (bucket (sentence_label (lang, sent)) ex) <? 3
     then append (sentence_label (lang, sent)) sent ex else ex).
Proof.
  unfold sentence_label. simpl.
  destruct (label_from_score (score_sentence lang sent)) as [lbl sc].
  reflexivity.
Qed.

Lemma score_loop_scores (ai_sents : list (str * str)) (scores : list Q)
    (ex : examples) :
  fst (score_loop ai_sents scores ex) =
  scores ++ map (fun item => score_sentence (fst item) (snd item)) ai_sents.
Proof.
  revert scores ex. induction ai_sents as [|[lang sent] rest IH]; intros scores ex.
  - simpl. rewrite app_nil_r. reflexivity.
  - rewrite score_loop_step, IH. simpl. rewrite <- app_assoc. reflexivity.
Qed.

Lemma score_loop_bucket (ai_sents : list (str * str)) (scores : list Q)
    (ex : examples) (lbl : label) :
  bucket lbl (snd (score_loop ai_sents scores ex)) =
  bucket lbl ex ++ firstn (3 - length (bucket lbl ex)) (labelled lbl ai_sents).
Proof.
  revert scores ex. induction ai_sents as [|[lang sent] rest IH]; intros scores ex.
  - simpl. rewrite firstn_nil, app_nil_r. reflexivity.
  - rewrite score_loop_step, IH. unfold labelled. cbn [filter].
    destruct (Spec.label_eqb (sentence_label (lang, sent)) lbl) eqn:E.
    + apply label_eqb_eq in E. rewrite E. cbn [map snd].
      destruct (length (bucket lbl ex) <? 3) eqn:Hlen.
      * apply Nat.ltb_lt in Hlen. rewrite bucket_append_same.
        apply firstn_cap_snoc. exact Hlen.
      * apply Nat.ltb_ge in Hlen. apply firstn_cap_full. exact Hlen.
    + assert (Hne : lbl <> sentence_label (lang, sent)).
      { intros ->. rewrite label_eqb_refl in E. discriminate. }
      destruct (length (bucket (sentence_label (lang, sent)) ex) <? 3).
      * rewrite bucket_append_other by exact Hne. reflexivity.
      * reflexivity.
Qed.

Lemma labelled_all (lbl : label) (ai_sents : list (str * str)) :
  Forall (fun item => sentence_label item = lbl) ai_sents ->
  labelled lbl ai_sents = map snd ai_sents.
Proof.
  intros H. unfold labelled. induction H as [|item rest Hitem _ IH].
  - reflexivity.
  - cbn [filter]. rewrite Hitem, label_eqb_refl. cbn [map]. rewrite IH.
    reflexivity.
Qed.

End Loop.

(** C7: from any state of the loop of [run_pipeline], after the AI
    sentences [ai_sents] the bucket of each label holds what it held
    followed by the first sentences of that label, in their original order,
    up to three entries in all (each label has its own cap); started from
    empty buckets, every bucket is the first three sentences of its label
    and holds at most three; when all of five sentences are labelled
    positive, [example_positive] holds the first three of them in order. *)
Theorem example_buckets (L : Libs) (ai_sents : list (str * str)) (lbl : label) :
  (forall (scores : list Q) (ex : examples),
     bucket lbl (snd (score_loop ai_sents scores ex)) =
     bucket lbl ex ++ firstn (3 - length (bucket lbl ex)) (labelled lbl ai_sents)) /\
  bucket lbl (snd (score_loop ai_sents [] (Examples [] [] []))) =
    firstn 3 (labelled lbl ai_sents) /\
  length (bucket lbl (snd (score_loop ai_sents [] (Examples [] [] [])))) <= 3 /\
  (forall a b c d e : str * str,
     ai_sents = [a; b; c; d; e] ->
     Forall (fun item => sentence_label item = positive) ai_sents ->
     ex_positive (snd (score_loop ai_sents [] (Examples [] [] []))) =
     [snd a; snd b; snd c]).
Proof.
  assert (Hempty : forall l,
             bucket l (snd (score_loop ai_sents [] (Examples [] [] []))) =
             firstn 3 (labelled l ai_sents)).
  { intros l. rewrite score_loop_bucket. destruct l; reflexivity. }
  split; [intros scores ex; apply score_loop_bucket|].
  split; [apply Hempty|].
  split.
  - rewrite Hempty. apply firstn_le_length.
  - intros a b c d e Hlist Hall.
    change (ex_positive (snd (score_loop ai_sents [] (Examples [] [] []))))
      with (bucket positive (snd (score_loop ai_sents [] (Examples [] [] [])))).
    rewrite Hempty, (labelled_all Hall), Hlist. reflexivity.
Qed.

(** ** Substrings and the keyword filter *)

Lemma str_eqb_eq (a b : str) : Str.eqb a b = true <-> a = b.
Proof.
  unfold Str.eqb. destruct (list_eq_dec ascii_dec a b); split; congruence.
Qed.

Lemma str_eqb_refl (a : str) : Str.eqb a a = true.
Proof. apply str_eqb_eq. reflexivity. Qed.

Lemma startswith_spec (p s : str) :
  startswith p s = true <-> exists post, s = p ++ post.
Proof.
  revert s. induction p as [|a p IH]; intros s; simpl.
  - split; [intros _; exists s; reflexivity | reflexivity].
  - destruct s as [|b s].
    + split; [discriminate | intros [post H]; discriminate].
    + destruct (ascii_dec a b) as [->|Hne].
      * rewrite IH. split; intros [post H]; exists post.
        -- simpl. now rewrite H.
        -- simpl in H. now inversion H.
      * split; [discriminate|]. intros [post H]. simpl in H.
        inversion H. congruence.
Qed.

Lemma contains_spec (k s : str) :
  contains k s = true <-> exists pre post, s = pre ++ k ++ post.
Proof.
  induction s as [|c s IH].
  - simpl. rewrite orb_false_r, startswith_spec. split.
    + intros [post H]. exists [], post. exact H.
    + intros [pre [post H]]. destruct pre as [|x pre]; [|discriminate].
      exists post. exact H.
  - simpl. rewrite orb_true_iff, startswith_spec, IH. split.
    + intros [[post H]|[pre [post H]]].
      * exists [], post. exact H.
      * exists (c :: pre), post. simpl. now rewrite H.
    + intros [pre [post H]]. destruct pre as [|x pre].
      * left. exists post. exact H.
      * right. exists pre, post. simpl in H. now inversion H.
Qed.

Lemma is_de_startswith (lang : str) : is_de lang = startswith (u "de") lang.
Proof. destruct lang; reflexivity. Qed.

Lemma sentence_mentions_ai_keywords (s lang : str) :
  sentence_mentions_ai s lang =
  existsb (fun k => contains k (lower s)) (Spec.keywords lang).
Proof.
  unfold sentence_mentions_ai, Spec.keywords. rewrite is_de_startswith.
  reflexivity.
Qed.

Lemma ai_sentences_of_filter (lang : str) (sents : list str) :
  ai_sentences_of lang sents =
  map (fun s => (lang, strip s)) (filter (Spec.ai_relevant lang) sents).
Proof.
  induction sents as [|s sents IH].
  - reflexivity.
  - cbn [ai_sentences_of filter]. unfold Spec.ai_relevant at 1.
    rewrite <- sentence_mentions_ai_keywords. unfold MIN_SENTENCE_LEN.
    destruct (length s <? 20) eqn:Hlen.
    + apply Nat.ltb_lt in Hlen.
      assert (H20 : (20 <=? length s) = false) by (apply Nat.leb_gt; exact Hlen).
      rewrite H20. exact IH.
    + apply Nat.ltb_ge in Hlen.
      assert (H20 : (20 <=? length s) = true) by (apply Nat.leb_le; exact Hlen).
      rewrite H20. cbn [andb].
      destruct (sentence_mentions_ai s lang); [cbn [map]; rewrite IH|]; easy.
Qed.

Lemma ai_relevant_iff (lang s : str) :
  Spec.ai_relevant lang s = true <->
  20 <= length s /\
  exists k pre post : str, In k (Spec.keywords lang) /\ lower s = pre ++ k ++ post.
Proof.
  unfold Spec.ai_relevant.
  rewrite andb_true_iff, Nat.leb_le, existsb_exists. split.
  - intros [Hlen [k [Hin Hk]]]. split; [exact Hlen|].
    apply contains_spec in Hk. destruct Hk as [pre [post Hk]].
    exists k, pre, post. split; assumption.
  - intros [Hlen [k [pre [post [Hin Hk]]]]]. split; [exact Hlen|].
    exists k. split; [exact Hin|]. apply contains_spec. exists pre, post. exact Hk.
Qed.

(** C4: the sentences [extract_ai_sentences] keeps are, in order and
    stripped, exactly the sentences of the text that are AI-relevant for
    the language tag detected once for the whole text; a sentence is
    AI-relevant exactly when it has at least 20 characters and its
    lowercased form contains, as a substring, a phrase of the German
    keyword set when the tag starts with "de" and of the English set
    otherwise; "ai" matches inside "maintenance" and "ki" inside
    "kindergarten". *)
Theorem ai_relevance (L : Libs) :
  (forall text : str,
     extract_ai_sentences text =
     map (fun s => (detect_lang text, strip s))
         (filter (Spec.ai_relevant (detect_lang text))
                 (split_sentences text (detect_lang text)))) /\
  (forall lang s : str,
     Spec.ai_relevant lang s = true <->
     20 <= length s /\
     exists k pre post : str,
       In k (if startswith (u "de") lang then AI_KEYWORDS_DE else AI_KEYWORDS_EN) /\
       lower s = pre ++ k ++ post) /\
  (forall (lang : str) (sents : list str),
     ai_sentences_of lang sents =
     map (fun s => (lang, strip s)) (filter (Spec.ai_relevant lang) sents)) /\
  ai_sentences_of (u "en") [u "The maintenance crew left."; u "Maintenance."] =
    [(u "en", u "The maintenance crew left.")] /\
  ai_sentences_of (u "de") [u "Der Kindergarten ist neu."] =
    [(u "de", u "Der Kindergarten ist neu.")] /\
  ai_sentences_of (u "en") [u "Der Kindergarten ist neu."] = [].
Proof.
  split; [|split; [|split; [|split; [|split]]]].
  - intros text. unfold extract_ai_sentences. cbv zeta.
    apply ai_sentences_of_filter.
  - intros lang s. apply ai_relevant_iff.
  - apply ai_sentences_of_filter.
  - vm_compute. reflexivity.
  - vm_compute. reflexivity.
  - vm_compute. reflexivity.
Qed.

(** ** The matcher *)

Lemma take_drop_while (p : ascii -> bool) (s : str) :
  Spec.take_while p s ++ Spec.drop_while p s = s.
Proof.
  induction s as [|c s IH]; simpl; [reflexivity|].
  destruct (p c); simpl; [rewrite IH|]; reflexivity.
Qed.

Lemma take_while_all (p : ascii -> bool) (s : str) :
  forallb p (Spec.take_while p s) = true.
Proof.
  induction s as [|c s IH]; simpl; [reflexivity|].
  destruct (p c) eqn:E; simpl; [rewrite E, IH|]; reflexivity.
Qed.

Lemma take_while_app (p : ascii -> bool) (w s : str) :
  forallb p w = true ->
  (match s with c :: _ => p c = false | [] => True end) ->
  Spec.take_while p (w ++ s) = w /\ Spec.drop_while p (w ++ s) = s.
Proof.
  intros Hw Hs. induction w as [|c w IH]; simpl in *.
  - destruct s as [|c s]; simpl; [split; reflexivity|].
    rewrite Hs. split; reflexivity.
  - apply andb_true_iff in Hw. destruct Hw as [Hc Hw]. rewrite Hc.
    destruct (IH Hw) as [H1 H2]. rewrite H1, H2. split; reflexivity.
Qed.

Section MatcherFacts.

Variable A : Type.

(** A literal matches exactly when the subject starts with it. *)
Lemma run_lit (w : str) (st : state) (k : state -> option A) :
  run (lit w) st k =
  if startswith w (rest st)
  then k (St (rev w ++ before st) (skipn (length w) (rest st)) (caps st))
  else None.
Proof.
  revert st. induction w as [|c w IH]; intros [b s cs]; simpl.
  - reflexivity.
  - destruct s as [|x s]; [reflexivity|].
    destruct (ascii_dec c x) as [->|Hne]; [|reflexivity].
    rewrite IH. simpl. rewrite <- app_assoc. reflexivity.
Qed.

(** A greedy repetition whose continuation cannot start with a character
    of the class takes the whole run or fails. *)
Lemma rep_exclusive (p : ascii -> bool) (k : state -> option A) :
  (forall (b' : str) (c : ascii) (s' : str) (cs' : list (string * str)),
     p c = true -> k (St b' (c :: s') cs') = None) ->
  forall (s : str) (lo : nat) (hi : option nat) (b : str)
         (cs : list (string * str)),
    rep p lo hi b s cs k =
    if (lo <=? length (Spec.take_while p s))
       && Spec.within hi (length (Spec.take_while p s))
    then k (St (rev (Spec.take_while p s) ++ b) (Spec.drop_while p s) cs)
    else None.
Proof.
  intros Hk. induction s as [|c s IH]; intros lo hi b cs.
  - simpl. destruct lo; simpl; [|reflexivity].
    destruct hi as [h|]; simpl; reflexivity.
  - cbn [rep Spec.take_while Spec.drop_while]. destruct (p c) eqn:Hc.
    + assert (Hstop : match lo with
                      | 0 => k (St b (c :: s) cs)
                      | S _ => None
                      end = None).
      { destruct lo; [apply Hk; exact Hc|reflexivity]. }
      rewrite Hstop. cbn [andb length].
      destruct hi as [[|h]|]; cbn [may_more option_map Nat.pred Spec.within].
      * rewrite andb_false_r. reflexivity.
      * rewrite IH. cbn [Spec.within].
        replace (Nat.pred lo <=? length (Spec.take_while p s))
          with (lo <=? S (length (Spec.take_while p s)))
          by (destruct lo; reflexivity).
        replace (length (Spec.take_while p s) <=? h)
          with (S (length (Spec.take_while p s)) <=? S h) by reflexivity.
        cbn [rev]. rewrite <- app_assoc. cbn [app]. clear Hstop.
        destruct ((lo <=? S (length (Spec.take_while p s)))
                  && (S (length (Spec.take_while p s)) <=? S h));
          [destruct (k _)|]; reflexivity.
      * rewrite IH. cbn [Spec.within option_map].
        replace (Nat.pred lo <=? length (Spec.take_while p s))
          with (lo <=? S (length (Spec.take_while p s)))
          by (destruct lo; reflexivity).
        cbn [rev]. rewrite <- app_assoc. cbn [app]. clear Hstop.
        destruct ((lo <=? S (length (Spec.take_while p s))) && true);
          [destruct (k _)|]; reflexivity.
    + cbn [andb length]. destruct lo; cbn [Nat.leb andb]; [|reflexivity].
      destruct hi as [h|]; reflexivity.
Qed.

End MatcherFacts.

(** [re.search] returns the leftmost position with a match. *)
Lemma search_from_none (r : regex) (s b : str) :
  search_from r b s = None <->
  forall pre post : str, s = pre ++ post -> match_here r (rev pre ++ b) post = None.
Proof.
  revert b. induction s as [|c s IH]; intros b; simpl.
  - destruct (match_here r b []) eqn:E.
    + split; [discriminate|]. intros H. specialize (H [] [] eq_refl).
      simpl in H. congruence.
    + split; [|reflexivity]. intros _ pre post Hs.
      destruct pre; [|discriminate]. simpl in Hs. subst post. exact E.
  - destruct (match_here r b (c :: s)) eqn:E.
    + split; [discriminate|]. intros H. specialize (H [] (c :: s) eq_refl).
      simpl in H. congruence.
    + rewrite IH. split.
      * intros H pre post Hs. destruct pre as [|x pre].
        -- simpl in Hs. subst post. exact E.
        -- simpl in Hs. inversion Hs; subst. simpl. rewrite <- app_assoc.
           apply H. reflexivity.
      * intros H pre post Hs. specialize (H (c :: pre) post).
        simpl in H. rewrite <- app_assoc in H. apply H. now rewrite Hs.
Qed.

Lemma search_from_some (r : regex) (s b : str) (mo : match_obj) :
  search_from r b s = Some mo ->
  exists pre post : str,
    s = pre ++ post /\
    match_here r (rev pre ++ b) post = Some (m_end mo) /\
    m_start mo = length b + length pre /\
    forall pre' post' : str,
      s = pre' ++ post' -> length pre' < length pre ->
      match_here r (rev pre' ++ b) post' = None.
Proof.
  revert b. induction s as [|c s IH]; intros b; simpl.
  - destruct (match_here r b []) eqn:E; [|discriminate].
    intros H. inversion H; subst. exists [], []. simpl.
    repeat split; auto. intros pre' post' _ Hlt. inversion Hlt.
  - destruct (match_here r b (c :: s)) eqn:E.
    + intros H. inversion H; subst. exists [], (c :: s). simpl.
      repeat split; auto. intros pre' post' _ Hlt. inversion Hlt.
    + intros H. destruct (IH _ H) as [pre [post [Hs [Hm [Hst Hmin]]]]].
      exists (c :: pre), post. simpl. rewrite <- app_assoc.
      split; [now rewrite Hs|]. split; [exact Hm|].
      split; [simpl in Hst; lia|].
      intros pre' post' Hs' Hlt. destruct pre' as [|x pre'].
      * simpl in Hs'. subst post'. exact E.
      * simpl in Hs'. inversion Hs'; subst x. simpl. rewrite <- app_assoc.
        apply Hmin; [assumption|simpl in Hlt; lia].
Qed.

(** ** Whole-word search *)

Lemma match_here_word (w b s : str) :
  match_here (re_word w) b s =
  if Spec.word_at w b s
  then Some (St (rev w ++ b) (skipn (length w) s) [])
  else None.
Proof.
  unfold match_here, re_word, Spec.word_at, Spec.boundary.
  cbn [run]. rewrite run_lit.
  unfold word_before, word_after, Spec.is_word_head. cbn [before rest caps].
  destruct (xorb _ _); [|reflexivity]. cbn [andb].
  destruct (startswith w s); [|reflexivity]. cbn [andb run].
  unfold word_before, word_after. cbn [before rest caps].
  destruct (xorb _ _); reflexivity.
Qed.

Lemma skipn_app_exact {X : Type} (w post : list X) :
  skipn (length w) (w ++ post) = post.
Proof. induction w as [|x w IH]; simpl; [reflexivity|exact IH]. Qed.

Lemma word_at_iff (w b s : str) :
  Spec.word_at w b s = true <->
  exists post : str,
    s = w ++ post /\ Spec.boundary b s = true /\
    Spec.boundary (rev w ++ b) post = true.
Proof.
  unfold Spec.word_at. rewrite !andb_true_iff, startswith_spec. split.
  - intros [[Hb [post Hs]] Ha]. exists post. subst s.
    rewrite skipn_app_exact in Ha. auto.
  - intros [post [Hs [Hb Ha]]]. subst s. rewrite skipn_app_exact.
    split; [split; [exact Hb|exists post; reflexivity]|exact Ha].
Qed.

Lemma found_search_iff (r : regex) (text : str) :
  found (search r text) = true <->
  exists pre post : str,
    text = pre ++ post /\ match_here r (rev pre) post <> None.
Proof.
  unfold search. split.
  - destruct (search_from r [] text) as [mo|] eqn:E; [|discriminate].
    intros _. destruct (search_from_some _ _ _ E) as [pre [post [Hs [Hm _]]]].
    exists pre, post. rewrite app_nil_r in Hm. split; [exact Hs|congruence].
  - intros [pre [post [Hs Hm]]].
    destruct (search_from r [] text) as [mo|] eqn:E; [reflexivity|].
    exfalso. apply Hm.
    pose proof (proj1 (search_from_none r text []) E pre post Hs) as H.
    rewrite app_nil_r in H. exact H.
Qed.

Lemma found_word_iff (w text : str) :
  found (search (re_word w) text) = true <-> Spec.whole_word w text.
Proof.
  rewrite found_search_iff. unfold Spec.whole_word. split.
  - intros [pre [s [Hs Hm]]]. rewrite match_here_word in Hm.
    destruct (Spec.word_at w (rev pre) s) eqn:E; [|congruence].
    apply word_at_iff in E. destruct E as [post [Hs' [Hb Ha]]].
    exists pre, post. subst s. auto.
  - intros [pre [post [Hs [Hb Ha]]]]. exists pre, (w ++ post).
    split; [exact Hs|]. rewrite match_here_word.
    assert (E : Spec.word_at w (rev pre) (w ++ post) = true).
    { apply word_at_iff. exists post. auto. }
    rewrite E. discriminate.
Qed.

Lemma match_here_negation (b s : str) :
  match match_here re_negation b s with Some _ => true | None => false end =
  existsb (fun tok => Spec.word_at tok b s) Spec.NEGATIONS.
Proof.
  unfold match_here, re_negation, Spec.NEGATIONS, Spec.word_at, Spec.boundary.
  cbn [run existsb]. rewrite !run_lit.
  unfold word_before, word_after, Spec.is_word_head, pos. cbn [before rest caps].
  destruct (xorb _ _); [|reflexivity]. cbn [andb].
  repeat match goal with
         | |- context [startswith ?w s] => destruct (startswith w s)
         end;
    cbn [andb orb run]; unfold word_before, word_after; cbn [before rest caps];
    repeat match goal with
           | |- context [xorb ?a ?b] => destruct (xorb a b)
           end; reflexivity.
Qed.

Lemma found_negation_iff (text : str) :
  found (search re_negation text) = true <->
  exists tok : str, In tok Spec.NEGATIONS /\ Spec.whole_word tok text.
Proof.
  rewrite found_search_iff. split.
  - intros [pre [s [Hs Hm]]].
    pose proof (match_here_negation (rev pre) s) as E.
    destruct (match_here re_negation (rev pre) s); [|congruence].
    symmetry in E. apply existsb_exists in E. destruct E as [tok [Hin Hat]].
    exists tok. split; [exact Hin|].
    apply word_at_iff in Hat. destruct Hat as [post [Hs' [Hb Ha]]].
    exists pre, post. subst s. auto.
  - intros [tok [Hin [pre [post [Hs [Hb Ha]]]]]]. exists pre, (tok ++ post).
    split; [exact Hs|].
    pose proof (match_here_negation (rev pre) (tok ++ post)) as E.
    assert (Hex : existsb (fun t => Spec.word_at t (rev pre) (tok ++ post))
                          Spec.NEGATIONS = true).
    { apply existsb_exists. exists tok. split; [exact Hin|].
      apply word_at_iff. exists post. auto. }
    rewrite Hex in E.
    destruct (match_here re_negation (rev pre) (tok ++ post)); congruence.
Qed.

(** ** Negation of a single positive hit *)

Lemma Qmax_opp (a b : Q) : (Qmax (- a) (- b) == - Qmin a b)%Q.
Proof.
  destruct (Q.min_spec_le a b) as [[Hle E]|[Hle E]]; rewrite E.
  - apply Q.max_l. apply Qopp_le_compat. exact Hle.
  - apply Q.max_r. apply Qopp_le_compat. exact Hle.
Qed.

Lemma filter_single {X : Type} (f : str * X -> bool) (l : list (str * X))
    (word : str) (x : X) :
  NoDup (map fst l) -> In (word, x) l ->
  (forall item, In item l -> f item = true <-> fst item = word) ->
  filter f l = [(word, x)].
Proof.
  induction l as [|[w0 x0] l IH]; intros Hnd Hin Hf; [destruct Hin|].
  simpl in Hnd. inversion Hnd as [|? ? Hnotin Hnd']; subst.
  cbn [filter]. destruct Hin as [Heq|Hin].
  - inversion Heq; subst w0 x0.
    assert (Hhit : f (word, x) = true) by (apply Hf; [left|]; reflexivity).
    rewrite Hhit. f_equal.
    assert (Hnone : forall item, In item l -> f item = false).
    { intros item Hitem. destruct (f item) eqn:E; [|reflexivity].
      apply Hf in E; [|right; exact Hitem]. exfalso. apply Hnotin.
      rewrite <- E. apply in_map. exact Hitem. }
    clear -Hnone. induction l as [|y l IH]; [reflexivity|].
    cbn [filter]. rewrite (Hnone y) by (left; reflexivity).
    apply IH. intros item Hitem. apply Hnone. right. exact Hitem.
  - assert (Hmiss : f (w0, x0) = false).
    { destruct (f (w0, x0)) eqn:E; [|reflexivity].
      apply Hf in E; [|left; reflexivity]. simpl in E. subst w0.
      exfalso. apply Hnotin. change word with (fst (word, x)).
      apply in_map. exact Hin. }
    rewrite Hmiss. apply IH; [exact Hnd'|exact Hin|].
    intros item Hitem. apply Hf. right. exact Hitem.
Qed.

Lemma lexicon_words_distinct : NoDup (map fst GERMAN_LEXICON).
Proof.
  vm_compute.
  repeat (constructor; [simpl; intuition discriminate|]). constructor.
Qed.

Lemma single_hit_weights (s word : str) (w : Q) :
  In (word, w) GERMAN_LEXICON ->
  Spec.whole_word word s ->
  (forall (word' : str) (w' : Q),
     In (word', w') GERMAN_LEXICON -> word' <> word -> ~ Spec.whole_word word' s) ->
  Spec.matched_weights s = [w].
Proof.
  intros Hin Hhit Hothers. unfold Spec.matched_weights.
  rewrite (@filter_single Q _ GERMAN_LEXICON word w); [reflexivity| | |].
  - apply lexicon_words_distinct.
  - exact Hin.
  - intros [word' w'] Hitem. cbn [fst]. rewrite found_word_iff. split.
    + intros Hw. destruct (list_eq_dec ascii_dec word' word) as [E|E]; [exact E|].
      exfalso. exact (Hothers word' w' Hitem E Hw).
    + intros ->. exact Hhit.
Qed.

Lemma normalise_positive (w : Q) :
  (0 < w)%Q -> (Spec.normalise w == Qmin (w / 3.0) 1.0)%Q.
Proof.
  intros H. unfold Spec.normalise.
  destruct (Qlt_le_dec 0 w) as [_|Hle]; [reflexivity|].
  exfalso. exact (Qlt_not_le _ _ H Hle).
Qed.

Lemma normalise_negated (w : Q) :
  (0 < w)%Q -> (Spec.normalise (- w) == - Qmin (w / 3.0) 1.0)%Q.
Proof.
  intros H. unfold Spec.normalise.
  assert (Hneg : (- w < 0)%Q).
  { change 0%Q with (- 0)%Q. apply Qopp_lt_compat. exact H. }
  destruct (Qlt_le_dec 0 (- w)) as [Hpos|_].
  - exfalso. exact (Qlt_irrefl _ (Qlt_trans _ _ _ Hneg Hpos)).
  - destruct (Qlt_le_dec (- w) 0) as [_|Hle].
    + rewrite <- Qmax_opp.
      assert (E : (- w / 3.0 == - (w / 3.0))%Q) by (field; discriminate).
      rewrite E. reflexivity.
    + exfalso. exact (Qlt_not_le _ _ Hneg Hle).
Qed.

(** C2: for a sentence scored on the German path whose lowercased form
    (the text the program searches) holds exactly one lexicon term as a
    whole word, a positive one of weight [w], [score_sentence] returns
    [-min(w/3.0, 1.0)] when a negation token (nicht, kein, keine, nie,
    ohne) occurs in it as a whole word and [min(w/3.0, 1.0)] when none
    does: the negated score is the sign flip of the unnegated one. *)
Theorem negation_flips_single_hit (L : Libs) (lang sentence word : str) (w : Q)
    (german : is_de lang = true)
    (in_lexicon : In (word, w) GERMAN_LEXICON)
    (positive_weight : (0 < w)%Q)
    (hit : Spec.whole_word word (lower sentence))
    (no_other_hit :
       forall (word' : str) (w' : Q),
         In (word', w') GERMAN_LEXICON -> word' <> word ->
         ~ Spec.whole_word word' (lower sentence)) :
  ((exists tok : str,
      In tok Spec.NEGATIONS /\ Spec.whole_word tok (lower sentence)) ->
   (score_sentence lang sentence == - Qmin (w / 3.0) 1.0)%Q) /\
  (~ (exists tok : str,
        In tok Spec.NEGATIONS /\ Spec.whole_word tok (lower sentence)) ->
   (score_sentence lang sentence == Qmin (w / 3.0) 1.0)%Q).
Proof.
  unfold score_sentence. rewrite german.
  assert (Hraw : (Spec.total (Spec.matched_weights (lower sentence)) == w)%Q).
  { rewrite (single_hit_weights in_lexicon hit no_other_hit). simpl. ring. }
  split; intros Hneg; rewrite german_score_raw; unfold Spec.raw_score; cbv zeta.
  - apply found_negation_iff in Hneg. rewrite Hneg.
    rewrite <- (normalise_negated positive_weight).
    apply normalise_proper. rewrite Hraw. reflexivity.
  - destruct (found (search re_negation (lower sentence))) eqn:E.
    + exfalso. apply Hneg. apply found_negation_iff. exact E.
    + rewrite <- (normalise_positive positive_weight).
      apply normalise_proper. exact Hraw.
Qed.

Lemma negation_flips_single_hit_witness :
  (@score_sentence sample_libs (u "de") (u "Die KI ist nicht gut.")
   == - Qmin (2.0 / 3.0) 1.0)%Q /\
  (@score_sentence sample_libs (u "de") (u "Die KI ist gut.")
   == Qmin (2.0 / 3.0) 1.0)%Q.
Proof.
  assert (Hothers : forall sentence : str,
             (forall item, In item GERMAN_LEXICON ->
                fst item <> u "gut" ->
                found (search (re_word (fst item)) (lower sentence)) = false) ->
             forall (word' : str) (w' : Q),
               In (word', w') GERMAN_LEXICON -> word' <> u "gut" ->
               ~ Spec.whole_word word' (lower sentence)).
  { intros sentence Hall word' w' Hin Hne Hw.
    apply found_word_iff in Hw. pose proof (Hall (word', w') Hin Hne) as Hf.
    cbn [fst] in Hf. rewrite Hf in Hw. discriminate. }
  split.
  - refine (proj1 (@negation_flips_single_hit sample_libs (u "de")
                     (u "Die KI ist nicht gut.") (u "gut") 2.0
                     eq_refl _ eq_refl _ _) _).
    + left. reflexivity.
    + apply found_word_iff. vm_compute. reflexivity.
    + apply Hothers. intros item Hin Hne.
      repeat (destruct Hin as [<-|Hin];
              [first [exfalso; apply Hne; reflexivity | vm_compute; reflexivity]|]).
      destruct Hin.
    + exists (u "nicht"). split; [left; reflexivity|].
      apply found_word_iff. vm_compute. reflexivity.
  - refine (proj2 (@negation_flips_single_hit sample_libs (u "de")
                     (u "Die KI ist gut.") (u "gut") 2.0
                     eq_refl _ eq_refl _ _) _).
    + left. reflexivity.
    + apply found_word_iff. vm_compute. reflexivity.
    + apply Hothers. intros item Hin Hne.
      repeat (destruct Hin as [<-|Hin];
              [first [exfalso; apply Hne; reflexivity | vm_compute; reflexivity]|]).
      destruct Hin.
    + intros Hneg. apply found_negation_iff in Hneg. vm_compute in Hneg.
      discriminate.
Defined.

(** ** The date patterns *)

Lemma rep_exactly_two (A : Type) (p : ascii -> bool) (b s : str)
    (cs : list (string * str)) (k : state -> option A) :
  rep p 2 (Some 2) b s cs k =
  match s with
  | c :: d :: s' => if p c && p d then k (St (d :: c :: b) s' cs) else None
  | _ => None
  end.
Proof.
  destruct s as [|c [|d s']]; cbn [rep]; [reflexivity| |].
  - destruct (p c); reflexivity.
  - destruct (p c); cbn [andb may_more option_map Nat.pred]; [|reflexivity].
    destruct (p d); cbn [andb]; [|reflexivity].
    destruct s' as [|e s']; cbn [rep may_more];
      [|rewrite andb_false_r]; destruct (k _); reflexivity.
Qed.

Lemma rep_one_or_two (A : Type) (p : ascii -> bool) (b s : str)
    (cs : list (string * str)) (k : state -> option A) :
  (forall st, k st <> None) ->
  rep p 1 (Some 2) b s cs k =
  match s with
  | c :: s1 =>
      if p c
      then match s1 with
           | d :: s2 => if p d then k (St (d :: c :: b) s2 cs)
                        else k (St (c :: b) s1 cs)
           | [] => k (St (c :: b) s1 cs)
           end
      else None
  | [] => None
  end.
Proof.
  intros Hk. destruct s as [|c [|d s']]; cbn [rep]; [reflexivity| |].
  - destruct (p c); cbn [andb may_more]; [|reflexivity].
    destruct (k _); reflexivity.
  - destruct (p c); cbn [andb may_more option_map Nat.pred]; [|reflexivity].
    destruct (p d); cbn [andb].
    + destruct s' as [|e s']; cbn [rep may_more]; [|rewrite andb_false_r];
        (destruct (k (St (d :: c :: b) _ cs)) eqn:E;
         [reflexivity|exfalso; exact (Hk _ E)]).
    + destruct (k _); reflexivity.
Qed.

Lemma startswith_eqb (w s : str) :
  startswith w s = Str.eqb (firstn (length w) s) w.
Proof.
  revert s. induction w as [|a w IH]; intros s.
  - reflexivity.
  - destruct s as [|b s]; cbn [startswith length firstn].
    + symmetry. destruct (Str.eqb [] (a :: w)) eqn:E; [|reflexivity].
      apply str_eqb_eq in E. discriminate.
    + destruct (ascii_dec a b) as [->|Hne].
      * rewrite IH. destruct (Str.eqb (firstn (length w) s) w) eqn:E.
        -- apply str_eqb_eq in E. symmetry. apply str_eqb_eq. now rewrite E.
        -- symmetry. destruct (Str.eqb (b :: _) (b :: w)) eqn:E'; [|reflexivity].
           apply str_eqb_eq in E'. inversion E' as [E'']. rewrite E'' in E.
           rewrite str_eqb_refl in E. discriminate.
      * symmetry. destruct (Str.eqb (b :: _) (a :: w)) eqn:E'; [|reflexivity].
        apply str_eqb_eq in E'. inversion E'. congruence.
Qed.

Lemma match_here_20dd (A : Type) (st : state) (k : state -> option A) :
  run re_20dd st k =
  match Spec.year_at (rest st) with
  | Some y => k (St (rev y ++ before st) (skipn 4 (rest st)) (caps st))
  | None => None
  end.
Proof.
  unfold re_20dd. cbn [run]. rewrite run_lit, startswith_eqb.
  cbn [run before rest caps]. rewrite rep_exactly_two.
  destruct st as [b s cs]. cbn [before rest caps]. unfold Spec.year_at.
  change (u "20") with ["2"%char; "0"%char].
  destruct s as [|a0 [|a1 [|c [|d s']]]];
    cbn [length firstn skipn rev app];
    try (destruct (Str.eqb _ _); reflexivity).
  destruct (Str.eqb _ _) eqn:E; cbn [andb]; [|reflexivity].
  apply str_eqb_eq in E. inversion E; subst a0 a1.
  destruct (is_digit c && is_digit d); reflexivity.
Qed.

Lemma year_at_some (s y : str) :
  Spec.year_at s = Some y ->
  exists (c d : ascii) (s' : str),
    s = "2"%char :: "0"%char :: c :: d :: s' /\
    y = ["2"%char; "0"%char; c; d] /\ is_digit c = true /\ is_digit d = true.
Proof.
  unfold Spec.year_at. destruct s as [|a0 [|a1 [|c [|d s']]]]; try discriminate.
  destruct (Str.eqb [a0; a1] (u "20")) eqn:E; [|discriminate].
  apply str_eqb_eq in E. change (u "20") with ["2"%char; "0"%char] in E.
  inversion E; subst a0 a1. cbn [andb].
  destruct (is_digit c) eqn:Hc; [|discriminate].
  destruct (is_digit d) eqn:Hd; [|discriminate].
  cbn [andb]. intros H. inversion H; subst y. exists c, d, s'. auto.
Qed.

Lemma year_at_iff (s : str) :
  Spec.year_at s <> None <->
  exists (c d : ascii) (s' : str),
    s = u "20" ++ c :: d :: s' /\ is_digit c = true /\ is_digit d = true.
Proof.
  split.
  - destruct (Spec.year_at s) as [y|] eqn:E; [|congruence]. intros _.
    destruct (year_at_some _ E) as [c [d [s' [Hs [_ [Hc Hd]]]]]].
    exists c, d, s'. auto.
  - intros [c [d [s' [Hs [Hc Hd]]]]]. subst s.
    change (u "20" ++ c :: d :: s') with ("2"%char :: "0"%char :: c :: d :: s').
    unfold Spec.year_at. change (u "20") with ["2"%char; "0"%char].
    rewrite str_eqb_refl, Hc, Hd. discriminate.
Qed.

Lemma sub_two (b : str) (x y : ascii) : length (x :: y :: b) - length b = 2.
Proof. cbn [length]. lia. Qed.

Lemma sub_one (b : str) (x : ascii) : length (x :: b) - length b = 1.
Proof. cbn [length]. lia. Qed.

Lemma sub_app (w b : str) : length (w ++ b) - length b = length w.
Proof. rewrite length_app. lia. Qed.

Lemma match_here_year (b s : str) :
  match_here re_year b s =
  match Spec.year_at s with
  | Some y => Some (St (rev y ++ b) (skipn 4 s) [("1", y)])
  | None => None
  end.
Proof.
  unfold match_here, re_year. cbn [run]. rewrite match_here_20dd.
  cbn [before rest caps pos].
  destruct (Spec.year_at s) as [y|] eqn:E; [|reflexivity].
  destruct (year_at_some _ E) as [c [d [s' [Hs [Hy _]]]]]. subst s y.
  unfold pos. cbn [before]. rewrite sub_app. reflexivity.
Qed.

Lemma search_first_at {X : Type} (r : regex) (g : state -> X)
    (f : str -> str -> option X) :
  (forall b s : str, option_map g (match_here r b s) = f b s) ->
  forall s b : str,
    option_map (fun mo => g (m_end mo)) (search_from r b s) = Spec.first_at f b s.
Proof.
  intros H. induction s as [|c s IH]; intros b; cbn [search_from Spec.first_at];
    rewrite <- H; destruct (match_here r b _); cbn [option_map m_end];
    try reflexivity.
  apply IH.
Qed.

Lemma letter_not_space (c : ascii) : is_letter c = true -> is_space c = false.
Proof.
  destruct c as [[] [] [] [] [] [] [] []]; vm_compute; congruence.
Qed.

Lemma space_not_digit (c : ascii) : is_space c = true -> is_digit c = false.
Proof.
  destruct c as [[] [] [] [] [] [] [] []]; vm_compute; congruence.
Qed.

Lemma letter_not_digit (c : ascii) : is_letter c = true -> is_digit c = false.
Proof.
  destruct c as [[] [] [] [] [] [] [] []]; vm_compute; congruence.
Qed.

Lemma take_while_firstn (p : ascii -> bool) (s : str) :
  firstn (length (Spec.take_while p s)) s = Spec.take_while p s.
Proof.
  induction s as [|c s IH]; simpl; [reflexivity|].
  destruct (p c); simpl; [rewrite IH|]; reflexivity.
Qed.

Lemma match_here_word_year (y0 : ascii) (y' b s : str) :
  is_space y0 = false ->
  option_map (fun st => group "1" (Match 0 st))
             (match_here (re_word_year (y0 :: y')) b s) =
  Spec.word_year_at (y0 :: y') s.
Proof.
  intros Hy0. unfold match_here, re_word_year, Spec.word_year_at.
  cbn [run before rest caps].
  rewrite rep_exclusive.
  2:{ intros b' c s' cs' Hc. cbn [before rest caps rep].
      rewrite (letter_not_space _ Hc). reflexivity. }
  cbn [Spec.within]. rewrite andb_true_r.
  destruct (1 <=? length (Spec.take_while is_letter s)); [|reflexivity].
  cbn [andb before rest caps pos].
  rewrite rep_exclusive.
  2:{ intros b' c s' cs' Hc. rewrite run_lit. cbn [rest startswith].
      destruct (ascii_dec y0 c) as [->|_]; [congruence|reflexivity]. }
  cbn [Spec.within]. rewrite andb_true_r.
  destruct (1 <=? length (Spec.take_while is_space
                            (Spec.drop_while is_letter s))); [|reflexivity].
  cbn [andb]. rewrite run_lit. cbn [before rest caps].
  destruct (startswith (y0 :: y') _); [|reflexivity].
  cbn [option_map]. unfold group, pos. cbn [m_end caps lookup before].
  rewrite String.eqb_refl. rewrite length_app, length_rev.
  replace (length (Spec.take_while is_letter s) + length b - length b)
    with (length (Spec.take_while is_letter s)) by lia.
  rewrite take_while_firstn. reflexivity.
Qed.

Lemma match_here_year_num (b s : str) :
  option_map (fun st => group "1" (Match 0 st)) (match_here re_year_num b s) =
  Spec.year_num_at s.
Proof.
  unfold match_here, re_year_num, Spec.year_num_at. cbn [run].
  rewrite match_here_20dd. cbn [before rest caps].
  destruct (Spec.year_at s) as [y|]; [|reflexivity].
  destruct (skipn 4 s) as [|sep s2]; cbn [run rest before caps]; [reflexivity|].
  destruct (is_sep sep); cbn [andb]; [|destruct s2; reflexivity].
  rewrite rep_one_or_two by (intros st; discriminate).
  destruct s2 as [|m1 s3]; [reflexivity|].
  destruct (is_digit m1); [|reflexivity].
  unfold group, pos.
  destruct s3 as [|m2 s4]; [|destruct (is_digit m2)];
    cbn [option_map m_end caps lookup before];
    rewrite String.eqb_refl; rewrite ?sub_two, ?sub_one; reflexivity.
Qed.

(** ** Dates in free text *)

Lemma first_at_some {X : Type} (f : str -> str -> option X) (s b : str) (x : X) :
  Spec.first_at f b s = Some x ->
  exists pre post : str, s = pre ++ post /\ f (rev pre ++ b) post = Some x.
Proof.
  revert b. induction s as [|c s IH]; intros b; cbn [Spec.first_at].
  - destruct (f b []) eqn:E; [|discriminate]. intros H. inversion H; subst.
    exists [], []. auto.
  - destruct (f b (c :: s)) eqn:E.
    + intros H. inversion H; subst. exists [], (c :: s). auto.
    + intros H. destruct (IH _ H) as [pre [post [Hs Hf]]].
      exists (c :: pre), post. simpl. rewrite <- app_assoc.
      split; [now rewrite Hs|exact Hf].
Qed.

Lemma first_at_none {X : Type} (f : str -> str -> option X) (s b : str) :
  Spec.first_at f b s = None <->
  forall pre post : str, s = pre ++ post -> f (rev pre ++ b) post = None.
Proof.
  revert b. induction s as [|c s IH]; intros b; cbn [Spec.first_at].
  - destruct (f b []) eqn:E.
    + split; [discriminate|]. intros H. specialize (H [] [] eq_refl).
      simpl in H. congruence.
    + split; [|reflexivity]. intros _ pre post Hs.
      destruct pre; [|discriminate]. simpl in Hs. subst post. exact E.
  - destruct (f b (c :: s)) eqn:E.
    + split; [discriminate|]. intros H. specialize (H [] (c :: s) eq_refl).
      simpl in H. congruence.
    + rewrite IH. split.
      * intros H pre post Hs. destruct pre as [|x pre].
        -- simpl in Hs. subst post. exact E.
        -- simpl in Hs. inversion Hs; subst. simpl. rewrite <- app_assoc.
           apply H. reflexivity.
      * intros H pre post Hs. specialize (H (c :: pre) post).
        simpl in H. rewrite <- app_assoc in H. apply H. now rewrite Hs.
Qed.

Lemma get_in {V : Type} (k : str) (d : list (str * V)) (v : V) :
  get k d = Some v -> In v (map snd d).
Proof.
  induction d as [|[k' v'] d IH]; simpl; [discriminate|].
  destruct (Str.eqb k k'); [intros H; inversion H; auto|auto].
Qed.

Lemma month_lookup_range (mon : str) (n : Z) :
  month_lookup mon = Some n -> (1 <= n <= 12)%Z.
Proof.
  unfold month_lookup, py_or. intros H.
  assert (Hin : In n (map snd MONTHS_EN) \/ In n (map snd MONTHS_DE)).
  { destruct (truthy (get mon MONTHS_EN)); [left|right];
      eapply get_in; exact H. }
  destruct Hin as [Hin|Hin]; simpl in Hin;
    repeat (destruct Hin as [<-|Hin]; [lia|]); destruct Hin.
Qed.

Lemma digit_val_range (c : ascii) :
  is_digit c = true -> (0 <= digit_val c <= 9)%Z.
Proof.
  destruct c as [[] [] [] [] [] [] [] []]; vm_compute; intuition congruence.
Qed.

Lemma year_value (c d : ascii) :
  is_digit c = true -> is_digit d = true ->
  (2000 <= int_of ["2"%char; "0"%char; c; d] <= 2099)%Z.
Proof.
  intros Hc Hd. apply digit_val_range in Hc, Hd.
  unfold int_of. cbn [fold_left].
  change (digit_val "2") with 2%Z. change (digit_val "0") with 0%Z. lia.
Qed.

Lemma datetime_new_first (y m : Z) :
  (2000 <= y <= 2099)%Z -> (1 <= m <= 12)%Z ->
  datetime_new y m 1 = Ok (Datetime y m 1).
Proof.
  intros Hy Hm. unfold datetime_new.
  assert (Hd : (1 <= days_in_month y m)%Z).
  { unfold days_in_month.
    repeat match goal with |- context [if ?c then _ else _] => destruct c end; lia. }
  replace ((1 <=? y) && (y <=? 9999) && (1 <=? m) && (m <=? 12)
           && (1 <=? 1) && (1 <=? days_in_month y m))%Z with true; [reflexivity|].
  symmetry. rewrite !andb_true_iff, !Z.leb_le. lia.
Qed.

Lemma datetime_new_bad_month (y m : Z) :
  ((1 <=? m) && (m <=? 12))%Z = false -> datetime_new y m 1 = Raised.
Proof.
  intros Hm. unfold datetime_new.
  replace ((1 <=? y) && (y <=? 9999) && (1 <=? m) && (m <=? 12)
           && (1 <=? 1) && (1 <=? days_in_month y m))%Z with false; [reflexivity|].
  symmetry. rewrite <- !andb_assoc.
  rewrite (andb_assoc (1 <=? m)%Z). rewrite Hm.
  rewrite !andb_false_r. reflexivity.
Qed.

Lemma search_group_first_at (r : regex) (name : string) (f : str -> option str) :
  (forall b s : str,
     option_map (fun st => group name (Match 0 st)) (match_here r b s) = f s) ->
  forall text : str,
    option_map (group name) (search r text) =
    Spec.first_at (fun _ s => f s) [] text.
Proof.
  intros H text. unfold search.
  rewrite <- (search_first_at r (fun st => group name (Match 0 st))
                (fun _ s => f s) H text []).
  destruct (search_from r [] text); reflexivity.
Qed.

Lemma search_year_first_at (text : str) :
  option_map (group "1") (search re_year text) =
  Spec.first_at (fun _ s => Spec.year_at s) [] text.
Proof.
  apply search_group_first_at. intros b s. rewrite match_here_year.
  destruct (Spec.year_at s); reflexivity.
Qed.

Lemma by_number_spec (year : Z) (text : str) :
  (2000 <= year <= 2099)%Z ->
  match search re_year_num text with
  | Some m3 =>
      match datetime_new year (int_of (group "1" m3)) 1 with
      | Ok d => Ok (Some d)
      | Raised => d <- datetime_new year 1 1 ;; Ok (Some d)
      end
  | None => d <- datetime_new year 1 1 ;; Ok (Some d)
  end = Ok (Some (Datetime year (Spec.numeric_month text) 1)).
Proof.
  intros Hy. unfold Spec.numeric_month.
  rewrite <- (search_group_first_at re_year_num "1" Spec.year_num_at
                match_here_year_num text).
  assert (Hone : datetime_new year 1 1 = Ok (Datetime year 1 1))
    by (apply datetime_new_first; lia).
  destruct (search re_year_num text) as [m3|]; cbn [option_map].
  - destruct ((1 <=? int_of (group "1" m3)) && (int_of (group "1" m3) <=? 12))%Z
      eqn:E.
    + rewrite datetime_new_first; [reflexivity|exact Hy|].
      apply andb_true_iff in E. rewrite !Z.leb_le in E. exact E.
    + rewrite (datetime_new_bad_month year _ E), Hone. reflexivity.
  - rewrite Hone. reflexivity.
Qed.

(** [_find_date_in_text] never raises and computes [Spec.find_date]. *)
Lemma find_date_refines (text : str) :
  _find_date_in_text text = Ok (Spec.find_date text).
Proof.
  unfold _find_date_in_text, Spec.find_date.
  destruct text as [|c0 t]; [reflexivity|]. cbn [is_empty].
  rewrite <- search_year_first_at.
  destruct (search re_year (c0 :: t)) as [m|] eqn:Em; cbn [option_map];
    [|reflexivity].
  assert (Hshape : exists c d : ascii,
             group "1" m = ["2"%char; "0"%char; c; d] /\
             is_digit c = true /\ is_digit d = true).
  { pose proof (search_year_first_at (c0 :: t)) as H. rewrite Em in H.
    cbn [option_map] in H. symmetry in H.
    destruct (first_at_some _ _ _ H) as [pre [post [_ Hy]]].
    destruct (year_at_some _ Hy) as [c [d [s' [_ [Hg [Hc Hd]]]]]].
    exists c, d. auto. }
  destruct Hshape as [c [d [Hg [Hc Hd]]]].
  pose proof (@year_value c d Hc Hd) as Hyear. rewrite <- Hg in Hyear.
  rewrite (@by_number_spec _ (c0 :: t) Hyear).
  rewrite <- (search_group_first_at (re_word_year (group "1" m)) "1"
                (Spec.word_year_at (group "1" m))).
  2:{ intros b s. rewrite Hg. apply match_here_word_year. reflexivity. }
  destruct (search (re_word_year (group "1" m)) (c0 :: t)) as [m2|];
    cbn [option_map Spec.month_from]; [|reflexivity].
  destruct (month_lookup (lower (group "1" m2))) as [n|] eqn:El; [|reflexivity].
  pose proof (month_lookup_range _ El) as Hn.
  assert (Hnz : (n =? 0)%Z = false) by (apply Z.eqb_neq; lia).
  rewrite Hnz, (@datetime_new_first _ _ Hyear Hn). reflexivity.
Qed.

Lemma first_at_first {X : Type} (f : str -> str -> option X) (pre post b : str)
    (x : X) :
  f (rev pre ++ b) post = Some x ->
  (forall pre1 post1 : str,
     pre ++ post = pre1 ++ post1 -> length pre1 < length pre ->
     f (rev pre1 ++ b) post1 = None) ->
  Spec.first_at f b (pre ++ post) = Some x.
Proof.
  revert b. induction pre as [|c pre IH]; intros b Hx Hmin.
  - simpl in *. destruct post; cbn [Spec.first_at]; rewrite Hx; reflexivity.
  - cbn [app Spec.first_at].
    pose proof (Hmin [] (c :: pre ++ post) eq_refl) as H0.
    cbn [rev app length] in H0. rewrite H0 by lia.
    apply IH.
    + simpl in Hx. rewrite <- app_assoc in Hx. exact Hx.
    + intros pre1 post1 Hs Hlt.
      specialize (Hmin (c :: pre1) post1). simpl in Hmin.
      rewrite <- app_assoc in Hmin. apply Hmin; [now rewrite Hs|lia].
Qed.

Lemma no_year_token_iff (text : str) :
  Spec.first_at (fun _ s => Spec.year_at s) [] text = None <->
  ~ Spec.has_year_token text.
Proof.
  rewrite first_at_none. unfold Spec.has_year_token. split.
  - intros H [pre [c [d [post [Hs [Hc Hd]]]]]].
    specialize (H pre _ Hs).
    apply (proj2 (year_at_iff (u "20" ++ c :: d :: post))); [|exact H].
    exists c, d, post. auto.
  - intros H pre post Hs.
    destruct (Spec.year_at post) as [y|] eqn:E; [|reflexivity].
    exfalso. apply H.
    assert (Hne : Spec.year_at post <> None) by congruence.
    apply year_at_iff in Hne. destruct Hne as [c [d [s' [Hp [Hc Hd]]]]].
    exists pre, c, d, s'. subst post. auto.
Qed.

Lemma numeric_month_range (text : str) : (1 <= Spec.numeric_month text <= 12)%Z.
Proof.
  unfold Spec.numeric_month.
  destruct (Spec.first_at _ _ _) as [ds|]; [|lia].
  destruct ((1 <=? int_of ds) && (int_of ds <=? 12))%Z eqn:E; [|lia].
  apply andb_true_iff in E. rewrite !Z.leb_le in E. exact E.
Qed.

Lemma month_from_range (word : option str) (text : str) :
  (1 <= Spec.month_from word text <= 12)%Z.
Proof.
  unfold Spec.month_from. destruct word as [w|]; [|apply numeric_month_range].
  destruct (month_lookup (lower w)) as [n|] eqn:E; [|apply numeric_month_range].
  eapply month_lookup_range. exact E.
Qed.

Lemma find_date_none_iff (text : str) :
  _find_date_in_text text = Ok None <-> ~ Spec.has_year_token text.
Proof.
  rewrite find_date_refines, <- no_year_token_iff. unfold Spec.find_date.
  destruct (Spec.first_at (fun _ s => Spec.year_at s) [] text); split;
    congruence.
Qed.

Lemma find_date_first_year (text pre post : str) (c d : ascii) :
  text = pre ++ u "20" ++ c :: d :: post ->
  is_digit c = true -> is_digit d = true ->
  (forall pre1 post1 : str,
     text = pre1 ++ post1 -> length pre1 < length pre ->
     Spec.year_at post1 = None) ->
  exists m : Z,
    (1 <= m <= 12)%Z /\
    _find_date_in_text text =
    Ok (Some (Datetime (2000 + 10 * digit_val c + digit_val d) m 1)).
Proof.
  intros Hs Hc Hd Hmin. rewrite find_date_refines. unfold Spec.find_date.
  assert (Hy : Spec.first_at (fun _ s => Spec.year_at s) [] text =
               Some ["2"%char; "0"%char; c; d]).
  { rewrite Hs. apply first_at_first.
    - change (u "20" ++ c :: d :: post) with ("2"%char :: "0"%char :: c :: d :: post).
      unfold Spec.year_at. change (u "20") with ["2"%char; "0"%char].
      rewrite str_eqb_refl, Hc, Hd. reflexivity.
    - intros pre1 post1 Hs1 Hlt. apply (Hmin pre1 post1); [|exact Hlt].
      rewrite Hs. exact Hs1. }
  rewrite Hy. eexists. split; [apply month_from_range|].
  f_equal. f_equal. f_equal. unfold int_of. cbn [fold_left].
  change (digit_val "2") with 2%Z. change (digit_val "0") with 0%Z. lia.
Qed.

(** *** A word immediately before the first year token *)

Lemma first_at_some_min {X : Type} (f : str -> str -> option X) (s b : str)
    (x : X) :
  Spec.first_at f b s = Some x ->
  exists pre post : str,
    s = pre ++ post /\ f (rev pre ++ b) post = Some x /\
    forall pre1 post1 : str,
      s = pre1 ++ post1 -> length pre1 < length pre ->
      f (rev pre1 ++ b) post1 = None.
Proof.
  revert b. induction s as [|c s IH]; intros b; cbn [Spec.first_at].
  - destruct (f b []) eqn:E; [|discriminate]. intros H. inversion H; subst.
    exists [], []. repeat split; auto. intros pre1 post1 _ Hlt. inversion Hlt.
  - destruct (f b (c :: s)) eqn:E.
    + intros H. inversion H; subst. exists [], (c :: s). repeat split; auto.
      intros pre1 post1 _ Hlt. inversion Hlt.
    + intros H. destruct (IH _ H) as [pre [post [Hs [Hf Hmin]]]].
      exists (c :: pre), post. simpl. rewrite <- app_assoc.
      split; [now rewrite Hs|]. split; [exact Hf|].
      intros pre1 post1 Hs1 Hlt. destruct pre1 as [|x1 pre1].
      * simpl in Hs1. subst post1. exact E.
      * simpl in Hs1. inversion Hs1; subst x1. simpl. rewrite <- app_assoc.
        apply Hmin; [assumption|simpl in Hlt; lia].
Qed.

Lemma forallb_rev {X : Type} (p : X -> bool) (l : list X) :
  forallb p (rev l) = forallb p l.
Proof.
  induction l as [|x l IH]; [reflexivity|].
  simpl. rewrite forallb_app, IH. simpl. rewrite andb_true_r. apply andb_comm.
Qed.

Lemma drop_while_head (p : ascii -> bool) (l r : str) (x : ascii) :
  Spec.drop_while p l = x :: r -> p x = false.
Proof.
  induction l as [|c l IH]; simpl; [discriminate|].
  destruct (p c) eqn:E; [exact IH|]. intros H. inversion H; subst. exact E.
Qed.

Lemma drop_while_last (p : ascii -> bool) (l : str) (x : ascii) :
  p x = false -> Spec.drop_while p (l ++ [x]) <> [].
Proof.
  intros Hx. induction l as [|c l IH]; simpl.
  - rewrite Hx. discriminate.
  - destruct (p c); [exact IH|discriminate].
Qed.

Lemma take_while_app_stop (p : ascii -> bool) (a m : str) :
  Spec.drop_while p a <> [] ->
  Spec.take_while p (a ++ m) = Spec.take_while p a /\
  Spec.drop_while p (a ++ m) = Spec.drop_while p a ++ m.
Proof.
  induction a as [|c a IH]; simpl; [congruence|].
  destruct (p c); [|split; reflexivity].
  intros H. destruct (IH H) as [H1 H2]. rewrite H1, H2. split; reflexivity.
Qed.

Lemma drop_while_app_suffix (p : ascii -> bool) (a m : str) :
  match m with c :: _ => p c = false | [] => True end ->
  exists a0 q : str, a = a0 ++ q /\ Spec.drop_while p (a ++ m) = q ++ m.
Proof.
  intros Hm. induction a as [|c a IH]; simpl.
  - exists [], []. split; [reflexivity|].
    destruct m as [|x m]; [reflexivity|]. simpl. rewrite Hm. reflexivity.
  - destruct (p c).
    + destruct IH as [a0 [q [Ha Hd]]]. exists (c :: a0), q.
      split; [simpl; now rewrite Ha|exact Hd].
    + exists [], (c :: a). split; reflexivity.
Qed.

Lemma app_split_before {X : Type} (pre0 m pre1 post1 : list X) :
  pre0 ++ m = pre1 ++ post1 -> length pre1 < length pre0 ->
  exists p0 : list X, p0 <> [] /\ pre0 = pre1 ++ p0 /\ post1 = p0 ++ m.
Proof.
  revert pre1. induction pre0 as [|x pre0 IH]; intros pre1 Hs Hlt.
  - inversion Hlt.
  - destruct pre1 as [|y pre1].
    + exists (x :: pre0). simpl in *. split; [discriminate|].
      split; [reflexivity|]. now rewrite Hs.
    + simpl in Hs. inversion Hs as [[Hxy Hs']]. subst y.
      destruct (IH pre1 Hs') as [p0 [Hne [Hp Hq]]]; [simpl in Hlt; lia|].
      exists p0. split; [exact Hne|]. split; [simpl; now rewrite Hp|exact Hq].
Qed.

Lemma suffix_last {X : Type} (a p0 l : list X) (x : X) :
  p0 <> [] -> l ++ [x] = a ++ p0 -> exists p0' : list X, p0 = p0' ++ [x].
Proof.
  intros Hne Hs. destruct (exists_last Hne) as [p0' [x' Hp]]. subst p0.
  rewrite app_assoc in Hs. apply app_inj_tail in Hs. destruct Hs as [_ Hx].
  subst x'. exists p0'. reflexivity.
Qed.

Lemma startswith_year_at (y r : str) :
  (exists c d : ascii,
     y = ["2"%char; "0"%char; c; d] /\ is_digit c = true /\ is_digit d = true) ->
  startswith y r = true -> Spec.year_at r = Some y.
Proof.
  intros [c [d [Hy [Hc Hd]]]] Hst. apply startswith_spec in Hst.
  destruct Hst as [post Hr]. subst r y. cbn [app].
  unfold Spec.year_at. change (u "20") with ["2"%char; "0"%char].
  rewrite str_eqb_refl, Hc, Hd. reflexivity.
Qed.

Lemma word_scan_agrees (text pre post y w : str) :
  text = pre ++ post ->
  Spec.year_at post = Some y ->
  (forall pre1 post1 : str,
     text = pre1 ++ post1 -> length pre1 < length pre ->
     Spec.year_at post1 = None) ->
  Spec.word_before (rev pre) = Some w ->
  Spec.first_at (fun _ s => Spec.word_year_at y s) [] text = Some w.
Proof.
  intros Htext Hyear Hmin Hword.
  destruct (year_at_some _ Hyear) as [c [d [s' [Hpost [Hy [Hc Hd]]]]]].
  assert (Hshape : exists c d : ascii,
             y = ["2"%char; "0"%char; c; d] /\
             is_digit c = true /\ is_digit d = true) by (exists c, d; auto).
  unfold Spec.word_before in Hword.
  set (wsr := Spec.take_while is_space (rev pre)) in *.
  set (wr := Spec.take_while is_letter (Spec.drop_while is_space (rev pre))) in *.
  set (restr := Spec.drop_while is_letter (Spec.drop_while is_space (rev pre))).
  destruct (1 <=? length wsr) eqn:Hws; [|discriminate].
  destruct (1 <=? length wr) eqn:Hw; [|discriminate].
  cbn [andb] in Hword. inversion Hword as [Hw_eq]. clear Hword.
  apply Nat.leb_le in Hws, Hw.
  assert (Hpre : pre = rev restr ++ rev wr ++ rev wsr).
  { rewrite <- !rev_app_distr, <- app_assoc. unfold wsr, wr, restr.
    rewrite take_drop_while, take_drop_while. symmetry. apply rev_involutive. }
  assert (Hall_w : forallb is_letter (rev wr) = true)
    by (rewrite forallb_rev; apply take_while_all).
  assert (Hall_ws : forallb is_space (rev wsr) = true)
    by (rewrite forallb_rev; apply take_while_all).
  assert (Hpost_head : post = "2"%char :: "0"%char :: c :: d :: s') by exact Hpost.
  (* the word and the whitespace are not empty *)
  destruct (rev wr) as [|w0 w'] eqn:Erw.
  { apply (f_equal (@length ascii)) in Erw. rewrite length_rev in Erw.
    simpl in Erw. lia. }
  destruct (rev wsr) as [|s0 ws'] eqn:Erws.
  { apply (f_equal (@length ascii)) in Erws. rewrite length_rev in Erws.
    simpl in Erws. lia. }
  assert (Hw0 : is_letter w0 = true).
  { simpl in Hall_w. apply andb_true_iff in Hall_w. tauto. }
  assert (Hs0 : is_space s0 = true).
  { simpl in Hall_ws. apply andb_true_iff in Hall_ws. tauto. }
  rewrite Htext, Hpre, <- !app_assoc.
  apply first_at_first.
  - (* the word is found where it stands *)
    unfold Spec.word_year_at.
    destruct (@take_while_app is_letter (w0 :: w') ((s0 :: ws') ++ post) Hall_w)
      as [Ht Hd'].
    { cbn [app]. destruct (is_letter s0) eqn:E; [|reflexivity].
      apply letter_not_space in E. congruence. }
    rewrite Ht, Hd'.
    destruct (@take_while_app is_space (s0 :: ws') post Hall_ws) as [Ht2 Hd2].
    { rewrite Hpost_head. reflexivity. }
    rewrite Ht2, Hd2. cbn [length Nat.leb andb].
    assert (Hst : startswith y post = true).
    { apply startswith_spec. exists s'. rewrite Hpost_head, Hy. reflexivity. }
    rewrite Hst. reflexivity.
  - (* nothing is found before it *)
    intros pre1 post1 Hs1 Hlt.
    destruct (app_split_before _ _ _ _ Hs1 Hlt) as [p0 [Hne [Hp0 Hpost1]]].
    subst post1. unfold Spec.word_year_at.
    destruct restr as [|x restr'] eqn:Erestr.
    { simpl in Hlt. inversion Hlt. }
    assert (Hx : is_letter x = false)
      by (eapply drop_while_head; unfold restr in Erestr; exact Erestr).
    destruct (@suffix_last _ pre1 p0 (rev restr') x Hne) as [p0' Hp0'].
    { simpl in Hp0. exact Hp0. }
    assert (Hdrop : Spec.drop_while is_letter p0 <> []).
    { rewrite Hp0'. apply drop_while_last. exact Hx. }
    destruct (@take_while_app_stop _ _ ((w0 :: w') ++ (s0 :: ws') ++ post) Hdrop)
      as [Ht Hd'].
    rewrite Ht, Hd'.
    destruct (1 <=? length (Spec.take_while is_letter p0)); [|reflexivity].
    cbn [andb].
    destruct (@drop_while_app_suffix is_space (Spec.drop_while is_letter p0)
                ((w0 :: w') ++ (s0 :: ws') ++ post)) as [a0 [q [Ha Hq]]].
    { cbn [app]. apply letter_not_space. exact Hw0. }
    rewrite Hq.
    destruct (startswith y (q ++ (w0 :: w') ++ (s0 :: ws') ++ post)) eqn:Hst;
      [|rewrite andb_false_r; reflexivity].
    exfalso.
    pose proof (startswith_year_at _ Hshape Hst) as Hfound.
    assert (Hp0eq : p0 = Spec.take_while is_letter p0 ++ a0 ++ q).
    { rewrite <- Ha. symmetry. apply take_drop_while. }
    set (tw := Spec.take_while is_letter p0) in *.
    rewrite (Hmin (pre1 ++ tw ++ a0)
                  (q ++ (w0 :: w') ++ (s0 :: ws') ++ post)) in Hfound;
      [discriminate| |].
    + rewrite Htext, Hpre, Hp0, Hp0eq. rewrite <- !app_assoc. reflexivity.
    + rewrite Hpre, Hp0, Hp0eq. rewrite !length_app. simpl. lia.
Qed.

Lemma worded_agrees (text b y w : str) :
  Spec.first_at (fun b s => option_map (fun y => (b, y)) (Spec.year_at s)) [] text
  = Some (b, y) ->
  Spec.word_before b = Some w ->
  Spec.find_date text = Spec.find_date_worded text.
Proof.
  intros Hfirst Hword. unfold Spec.find_date, Spec.find_date_worded.
  rewrite Hfirst.
  destruct (first_at_some_min _ _ _ Hfirst) as [pre [post [Htext [Hat Hmin]]]].
  rewrite app_nil_r in Hat.
  destruct (Spec.year_at post) as [y'|] eqn:Hyear; [|discriminate].
  cbn [option_map] in Hat. inversion Hat; subst b y'.
  assert (Hmin' : forall pre1 post1 : str,
             text = pre1 ++ post1 -> length pre1 < length pre ->
             Spec.year_at post1 = None).
  { intros pre1 post1 Hs Hlt. specialize (Hmin pre1 post1 Hs Hlt).
    destruct (Spec.year_at post1); [discriminate|reflexivity]. }
  assert (Hy : Spec.first_at (fun _ s => Spec.year_at s) [] text = Some y).
  { rewrite Htext. apply first_at_first; [exact Hyear|].
    intros pre1 post1 Hs Hlt. apply (Hmin' pre1 post1); [|exact Hlt].
    rewrite Htext. exact Hs. }
  rewrite Hy, (@word_scan_agrees text pre post y w Htext Hyear Hmin' Hword), Hword.
  reflexivity.
Qed.

(** C3, in the form that holds of the program: [_find_date_in_text] never
    raises; it returns [None]
    exactly when the text holds no 20\d\d token; otherwise the year is the
    first such token and the day is 1; the month is the month named by the
    first run of letters in the text that is followed by whitespace and
    the same four digits, when that run lowercased is an English or German
    month name (maerz included), otherwise the one or two digits after the
    first YYYY[.-/] when they denote 1..12, otherwise 1.  When a word
    stands immediately before the first year token, that first run is this
    word, and the function returns what the specification's wording
    gives. *)
Theorem find_date_in_text_spec (text : str) :
  _find_date_in_text text = Ok (Spec.find_date text) /\
  (_find_date_in_text text = Ok None <-> ~ Spec.has_year_token text) /\
  (forall (pre post : str) (c d : ascii),
     text = pre ++ u "20" ++ c :: d :: post ->
     is_digit c = true -> is_digit d = true ->
     (forall pre1 post1 : str,
        text = pre1 ++ post1 -> length pre1 < length pre ->
        Spec.year_at post1 = None) ->
     exists m : Z,
       (1 <= m <= 12)%Z /\
       _find_date_in_text text =
       Ok (Some (Datetime (2000 + 10 * digit_val c + digit_val d) m 1))) /\
  (forall b y w : str,
     Spec.first_at (fun b s => option_map (fun y => (b, y)) (Spec.year_at s))
                   [] text = Some (b, y) ->
     Spec.word_before b = Some w ->
     _find_date_in_text text = Ok (Spec.find_date_worded text)).
Proof.
  split; [apply find_date_refines|].
  split; [apply find_date_none_iff|].
  split.
  - intros pre post c d. apply find_date_first_year.
  - intros b y w Hfirst Hword. rewrite find_date_refines.
    f_equal. eapply worded_agrees; eassumption.
Qed.

(** Where the two differ: in "2021 and March 2021" the first year token
    stands at the start of the text, no month name precedes it and no
    YYYY[.-/]MM occurs, so the specification's wording gives month 1; the
    program finds "March" before the second "2021" and returns month 3. *)
Lemma find_date_later_word :
  _find_date_in_text (u "2021 and March 2021") = Ok (Some (Datetime 2021 3 1)) /\
  Spec.find_date_worded (u "2021 and March 2021") = Some (Datetime 2021 1 1).
Proof. split; vm_compute; reflexivity. Qed.

(** C10: there is a text, "In 2021 we said; on 2023-09 we did", on which
    [_find_date_in_text] returns year 2021, the first 20\d\d token (at
    index 3), with month 9, the digits of the first YYYY[.-/]MM match,
    which is "2023-09" at index 20, a later mention of another year; the
    word before "2021" is "In", no month name. *)
Theorem find_date_mixes_mentions :
  exists text : str,
    text = u "In 2021 we said; on 2023-09 we did" /\
    _find_date_in_text text = Ok (Some (Datetime 2021 9 1)) /\
    option_map (fun m => (m_start m, group "1" m)) (search re_year text)
    = Some (3, u "2021") /\
    option_map (fun m => (group "1" m, month_lookup (lower (group "1" m))))
               (search (re_word_year (u "2021")) text)
    = Some (u "In", None) /\
    option_map (fun m => (m_start m, firstn 7 (skipn (m_start m) text), group "1" m))
               (search re_year_num text)
    = Some (20, u "2023-09", u "09").
Proof.
  exists (u "In 2021 we said; on 2023-09 we did").
  repeat split; vm_compute; reflexivity.
Qed.

(** ** Explicit date strings *)

Lemma parse_mdy_attempt (s : str) : parse_mdy s = Spec.attempt_mdy s.
Proof.
  unfold parse_mdy, Spec.attempt_mdy, Spec.named_month.
  destruct (search re_mdy s) as [m|]; reflexivity.
Qed.

Lemma parse_dmy_attempts (s : str) :
  parse_dmy s = Spec.first_success [Spec.attempt_dmy s; Spec.attempt_mdy s].
Proof.
  unfold parse_dmy, Spec.attempt_dmy, Spec.named_month.
  rewrite parse_mdy_attempt. cbn [Spec.first_success].
  destruct (search re_dmy s) as [m|]; [|destruct (Spec.attempt_mdy s); reflexivity].
  cbv zeta.
  destruct (month_lookup (lower (group "mon" m))) as [n|];
    [|destruct (Spec.attempt_mdy s); reflexivity].
  destruct (n =? 0)%Z; [destruct (Spec.attempt_mdy s); reflexivity|].
  destruct (datetime_new _ _ _); cbn [try_return]; [reflexivity|].
  destruct (Spec.attempt_mdy s); reflexivity.
Qed.

Lemma parse_ymd_attempts (s : str) :
  parse_ymd s =
  Spec.first_success [Spec.attempt_ymd s; Spec.attempt_dmy s; Spec.attempt_mdy s].
Proof.
  unfold parse_ymd, Spec.attempt_ymd. rewrite parse_dmy_attempts.
  cbn [Spec.first_success].
  destruct (search re_ymd s) as [m|]; [|reflexivity].
  destruct (datetime_new _ _ _); reflexivity.
Qed.

Section ParseDate.

Context {L : Libs}.

Lemma parse_date_string_attempts (s : str) :
  _parse_date_string s =
  if is_empty s then None
  else Spec.first_success
         [fromisoformat (strip s); Spec.attempt_ymd (strip s);
          Spec.attempt_dmy (strip s); Spec.attempt_mdy (strip s)].
Proof.
  unfold _parse_date_string. destruct (is_empty s); [reflexivity|].
  cbv zeta. rewrite parse_ymd_attempts. cbn [Spec.first_success].
  destruct (fromisoformat (strip s)); reflexivity.
Qed.

End ParseDate.

(** ** The length test on the text of a release *)

Section Guard.

Context {L : Libs}.

Lemma extract_year_month_ok (pd : option datetime) (text title url : str) :
  exists ym : option (Z * Z), extract_year_month pd text title url = Ok ym.
Proof.
  unfold extract_year_month. destruct pd as [d|]; [eexists; reflexivity|].
  rewrite !find_date_refines. cbn [bind].
  destruct (Spec.find_date text); [eexists; reflexivity|].
  destruct (Spec.find_date title); [eexists; reflexivity|].
  destruct (Spec.find_date url); eexists; reflexivity.
Qed.

Lemma guard_test (t : str) : is_empty t || (length t <? 50) = (length t <? 50).
Proof. destruct t; reflexivity. Qed.

Lemma process_release_short (r : release) :
  length (text (ensure_text r)) < 50 -> process_release r = Ok None.
Proof.
  intros H. unfold process_release. cbv zeta. rewrite guard_test.
  apply Nat.ltb_lt in H. rewrite H. reflexivity.
Qed.

Lemma process_release_long (r : release) :
  50 <= length (text (ensure_text r)) ->
  exists row : row, process_release r = Ok (Some row).
Proof.
  intros H. unfold process_release. cbv zeta. rewrite guard_test.
  apply Nat.ltb_ge in H. rewrite H.
  destruct (score_loop _ _ _) as [sent_scores ex].
  destruct (extract_year_month_ok (publish_date (ensure_text r))
              (text (ensure_text r)) (title (ensure_text r))
              (url (ensure_text r))) as [ym Hym].
  rewrite Hym. cbn [bind]. eexists. reflexivity.
Qed.

Lemma ensure_text_own (r : release) :
  is_empty (text r) && endswith (u ".pdf") (lower (url r)) = false ->
  text (ensure_text r) = text r.
Proof.
  unfold ensure_text. destruct (is_empty (text r)) eqn:E; cbn [negb andb].
  - intros H. rewrite H. cbn [orb]. rewrite andb_false_r. cbn [set_text text].
    destruct (text r); [reflexivity|discriminate].
  - reflexivity.
Qed.

Lemma run_pipeline_rows (releases : list release) :
  exists rows : list row,
    run_pipeline releases = Ok rows /\
    length rows =
    length (filter (fun r => 50 <=? length (text (ensure_text r))) releases).
Proof.
  induction releases as [|r releases [rows [Hrun Hlen]]].
  - exists []. split; reflexivity.
  - cbn [run_pipeline filter].
    destruct (le_lt_dec 50 (length (text (ensure_text r)))) as [Hge|Hlt].
    + destruct (process_release_long r Hge) as [row Hrow].
      rewrite Hrow, Hrun. cbn [bind].
      apply Nat.leb_le in Hge. rewrite Hge.
      exists (row :: rows). split; [reflexivity|]. simpl. now rewrite Hlen.
    + rewrite (process_release_short r Hlt), Hrun. cbn [bind].
      apply Nat.leb_gt in Hlt. rewrite Hlt.
      exists rows. split; [reflexivity|exact Hlen].
Qed.

End Guard.

(** C8, in the form that holds of the program: the text [run_pipeline]
    tests is the text after [ensure_text]: the release's own text, or, when that is empty
    and the URL ends in ".pdf", the text extracted from the PDF.  When it
    is absent or shorter than 50 characters the release gives no row and
    no error; when it has at least 50 characters the release gives exactly
    one row; a batch gives one row per release that passes the test and
    never raises.  A release whose own text is not empty, or whose URL
    does not end in ".pdf", is tested on its own text. *)
Theorem release_text_guard (L : Libs) (r : release) :
  (length (text (ensure_text r)) < 50 ->
     process_release r = Ok None /\ run_pipeline [r] = Ok []) /\
  (50 <= length (text (ensure_text r)) ->
     exists row : row,
       process_release r = Ok (Some row) /\ run_pipeline [r] = Ok [row]) /\
  (is_empty (text r) && endswith (u ".pdf") (lower (url r)) = false ->
     text (ensure_text r) = text r) /\
  (forall releases : list release,
     exists rows : list row,
       run_pipeline releases = Ok rows /\
       length rows =
       length (filter (fun r => 50 <=? length (text (ensure_text r))) releases)).
Proof.
  split; [|split; [|split]].
  - intros H. cbn [run_pipeline]. rewrite (process_release_short r H).
    split; reflexivity.
  - intros H. destruct (process_release_long r H) as [row Hrow].
    exists row. cbn [run_pipeline]. rewrite Hrow. split; reflexivity.
  - apply ensure_text_own.
  - apply run_pipeline_rows.
Qed.

(** A release built for a local PDF file has no text
    of its own, yet [ensure_text] reads the PDF and the release gives a
    row. *)
Lemma pdf_release_gives_row :
  text pdf_item = [] /\
  exists row : row, @run_pipeline pdf_libs [pdf_item] = Ok [row].
Proof.
  split; [reflexivity|]. vm_compute. eexists. reflexivity.
Qed.

(** * Further properties of the program *)

(** ** Labels and aggregates *)

(** X1: [label_from_score] is monotone: a larger score never gets a lower
    label, in the order negative, neutral, positive. *)
Theorem label_from_score_monotone (a b : Q) (le : (a <= b)%Q) :
  (label_rank (fst (label_from_score a)) <= label_rank (fst (label_from_score b)))%Z.
Proof.
  rewrite !label_from_score_fst.
  destruct (Qle_bool THRESHOLD_positive a) eqn:Ea.
  - apply Qle_bool_iff in Ea.
    assert (Eb : Qle_bool THRESHOLD_positive b = true).
    { apply Qle_bool_iff. apply Qle_trans with a; assumption. }
    rewrite Eb. simpl. lia.
  - destruct (Qle_bool a THRESHOLD_negative) eqn:Ea'.
    + destruct (Qle_bool THRESHOLD_positive b); [simpl; lia|].
      destruct (Qle_bool b THRESHOLD_negative); simpl; lia.
    + apply Qle_bool_false in Ea'.
      destruct (Qle_bool THRESHOLD_positive b); [simpl; lia|].
      assert (Eb : Qle_bool b THRESHOLD_negative = false).
      { apply Qle_bool_false. apply Qlt_le_trans with a; assumption. }
      rewrite Eb. simpl. lia.
Qed.

Lemma label_from_score_monotone_witness :
  (label_rank (fst (label_from_score (-0.05))) <= label_rank (fst (label_from_score 0.05)))%Z.
Proof.
  apply (@label_from_score_monotone (-0.05) 0.05). discriminate.
Defined.

Lemma total_bounds (lo hi : Q) (xs : list Q) :
  Forall (fun x => (lo <= x)%Q /\ (x <= hi)%Q) xs ->
  (inject_Z (Z.of_nat (length xs)) * lo <= Spec.total xs)%Q /\
  (Spec.total xs <= inject_Z (Z.of_nat (length xs)) * hi)%Q.
Proof.
  induction 1 as [|x xs [Hlo Hhi] _ [IHlo IHhi]].
  - simpl. split; rewrite Qmult_0_l; apply Qle_refl.
  - cbn [length Spec.total fold_right].
    rewrite Nat2Z.inj_succ, <- Z.add_1_l, inject_Z_plus.
    split.
    + rewrite Qmult_plus_distr_l, Qmult_1_l. apply Qplus_le_compat; assumption.
    + rewrite Qmult_plus_distr_l, Qmult_1_l. apply Qplus_le_compat; assumption.
Qed.

Lemma len_pos (s : Q) (scores : list Q) :
  (0 < float_of_int (len (s :: scores)))%Q.
Proof.
  unfold float_of_int, len. change 0%Q with (inject_Z 0).
  rewrite <- Zlt_Qlt. simpl. lia.
Qed.

Lemma filter_length_all {X : Type} (f : X -> bool) (l : list X) :
  length (filter f l) = length l <-> Forall (fun x => f x = true) l.
Proof.
  induction l as [|x l IH]; simpl.
  - split; [constructor|reflexivity].
  - destruct (f x) eqn:E; simpl.
    + split.
      * intros H. constructor; [exact E|]. apply IH. lia.
      * intros H. inversion H; subst. f_equal. now apply IH.
    + split.
      * intros H. pose proof (filter_length_le f l). lia.
      * intros H. inversion H; subst. congruence.
Qed.

Lemma filter_length_none {X : Type} (f : X -> bool) (l : list X) :
  length (filter f l) = 0 <-> Forall (fun x => f x = false) l.
Proof.
  induction l as [|x l IH]; simpl.
  - split; [constructor|reflexivity].
  - destruct (f x) eqn:E; simpl.
    + split; [discriminate|]. intros H. inversion H; subst. congruence.
    + rewrite IH. split.
      * intros H. constructor; assumption.
      * intros H. now inversion H.
Qed.

Lemma ratio_one (k n : nat) :
  0 < n ->
  (inject_Z (Z.of_nat k) / inject_Z (Z.of_nat n) == 1)%Q <-> k = n.
Proof.
  intros Hn.
  assert (Hne : ~ (inject_Z (Z.of_nat n) == 0)%Q).
  { unfold Qeq, inject_Z. cbn [Qnum Qden]. lia. }
  split.
  - intros H.
    assert (H' : (inject_Z (Z.of_nat k) == inject_Z (Z.of_nat n))%Q).
    { rewrite <- (@Qmult_div_r (inject_Z (Z.of_nat k)) _ Hne), H. ring. }
    unfold Qeq, inject_Z in H'. cbn [Qnum Qden] in H'. lia.
  - intros ->. field. exact Hne.
Qed.

Lemma ratio_zero (k n : nat) :
  0 < n ->
  (inject_Z (Z.of_nat k) / inject_Z (Z.of_nat n) == 0)%Q <-> k = 0.
Proof.
  intros Hn.
  assert (Hne : ~ (inject_Z (Z.of_nat n) == 0)%Q).
  { unfold Qeq, inject_Z. cbn [Qnum Qden]. lia. }
  split.
  - intros H.
    assert (H' : (inject_Z (Z.of_nat k) == inject_Z 0)%Q).
    { rewrite <- (@Qmult_div_r (inject_Z (Z.of_nat k)) _ Hne), H. ring. }
    unfold Qeq, inject_Z in H'. cbn [Qnum Qden] in H'. lia.
  - intros ->. simpl. unfold Qdiv. ring.
Qed.

(** X3: on a non-empty list the confidence of [aggregate_release] is 1
    exactly when every score has absolute value above 0.05, and 0 exactly
    when none has. *)
Theorem aggregate_confidence_extremes (s : Q) (scores : list Q) :
  ((agg_confidence (aggregate_release (s :: scores)) == 1)%Q <->
     Forall (fun x => (0.05 < Qabs x)%Q) (s :: scores)) /\
  ((agg_confidence (aggregate_release (s :: scores)) == 0)%Q <->
     Forall (fun x => (Qabs x <= 0.05)%Q) (s :: scores)).
Proof.
  assert (Hn : 0 < length (s :: scores)) by (simpl; lia).
  split.
  - rewrite aggregate_release_cons. cbv zeta. cbn [agg_confidence].
    rewrite py_sum_int_ones. unfold float_of_int, len.
    rewrite (ratio_one _ Hn), filter_length_all.
    split; apply Forall_impl; intros x; apply Qltb_lt.
  - rewrite aggregate_release_cons. cbv zeta. cbn [agg_confidence].
    rewrite py_sum_int_ones. unfold float_of_int, len.
    rewrite (ratio_zero _ Hn), filter_length_none.
    split; apply Forall_impl; intros y; apply Qltb_ge.
Qed.

(** ** The German scorer and the keyword test *)

Lemma third_ge (a raw : Q) : (a <= raw / 3.0)%Q <-> (a * 3.0 <= raw)%Q.
Proof.
  split; intros H.
  - setoid_replace raw with ((raw / 3.0) * 3.0)%Q by field.
    apply Qmult_le_compat_r; [exact H|discriminate].
  - apply Qle_shift_div_l; [reflexivity|exact H].
Qed.

Lemma third_le (a raw : Q) : (raw / 3.0 <= a)%Q <-> (raw <= a * 3.0)%Q.
Proof.
  split; intros H.
  - setoid_replace raw with ((raw / 3.0) * 3.0)%Q by field.
    apply Qmult_le_compat_r; [exact H|discriminate].
  - apply Qle_shift_div_r; [reflexivity|exact H].
Qed.

Lemma threshold_times_three : (0.05 * 3.0 == 0.15)%Q /\ (-0.05 * 3.0 == -0.15)%Q.
Proof. split; reflexivity. Qed.

Lemma normalise_ge (raw : Q) :
  (0.05 <= Spec.normalise raw)%Q <-> (0.15 <= raw)%Q.
Proof.
  unfold Spec.normalise.
  destruct (Qlt_le_dec 0 raw) as [H|H]; [|destruct (Qlt_le_dec raw 0) as [H'|H']].
  - rewrite Q.min_glb_iff, third_ge, (proj1 threshold_times_three). split.
    + intros [H1 _]. exact H1.
    + intros H1. split; [exact H1|discriminate].
  - split.
    + intros H1. exfalso.
      apply (Qlt_irrefl 0). apply Qlt_le_trans with 0.05%Q; [reflexivity|].
      apply Qle_trans with (1 := H1). apply Q.max_lub; [|discriminate].
      apply third_nonpos, Qlt_le_weak, H'.
    + intros H1. exfalso. apply (Qlt_irrefl 0).
      apply Qlt_le_trans with 0.15%Q; [reflexivity|].
      apply Qle_trans with raw; assumption.
  - split.
    + intros H1. exfalso. apply H1. reflexivity.
    + intros H1. exfalso. apply (Qlt_irrefl 0).
      apply Qlt_le_trans with 0.15%Q; [reflexivity|].
      apply Qle_trans with raw; assumption.
Qed.

Lemma normalise_le (raw : Q) :
  (Spec.normalise raw <= -0.05)%Q <-> (raw <= -0.15)%Q.
Proof.
  unfold Spec.normalise.
  destruct (Qlt_le_dec 0 raw) as [H|H]; [|destruct (Qlt_le_dec raw 0) as [H'|H']].
  - split.
    + intros H1. exfalso. apply (Qlt_irrefl 0).
      apply Qle_lt_trans with (-0.05)%Q; [|reflexivity].
      apply Qle_trans with (2 := H1). apply Q.min_glb; [|discriminate].
      apply third_nonneg, Qlt_le_weak, H.
    + intros H1. exfalso. apply (Qlt_irrefl 0).
      apply Qlt_le_trans with raw; [exact H|].
      apply Qle_trans with (-0.15)%Q; [exact H1|discriminate].
  - rewrite Q.max_lub_iff, third_le, (proj2 threshold_times_three). split.
    + intros [H1 _]. exact H1.
    + intros H1. split; [exact H1|discriminate].
  - split.
    + intros H1. exfalso. apply H1. reflexivity.
    + intros H1. exfalso. apply (Qlt_irrefl 0).
      apply Qle_lt_trans with raw; [exact H'|].
      apply Qle_lt_trans with (-0.15)%Q; [exact H1|reflexivity].
Qed.

(** X4: the label of a sentence scored on the German path is decided by
    its raw lexicon score: positive exactly from 0.15 up, negative exactly
    from -0.15 down, neutral strictly between; [score_sentence] takes this
    path for every language tag that starts with "de". *)
Theorem german_label_by_raw_score (sentence : str) :
  (fst (label_from_score (german_score sentence)) = positive <->
     (0.15 <= Spec.raw_score sentence)%Q) /\
  (fst (label_from_score (german_score sentence)) = negative <->
     (Spec.raw_score sentence <= -0.15)%Q) /\
  (fst (label_from_score (german_score sentence)) = neutral <->
     (-0.15 < Spec.raw_score sentence)%Q /\ (Spec.raw_score sentence < 0.15)%Q) /\
  (forall (L : Libs) (lang : str),
     is_de lang = true -> score_sentence lang sentence = german_score sentence).
Proof.
  assert (Hpos : fst (label_from_score (german_score sentence)) = positive <->
                 (0.15 <= Spec.raw_score sentence)%Q).
  { rewrite label_positive_iff, german_score_raw. apply normalise_ge. }
  assert (Hneg : fst (label_from_score (german_score sentence)) = negative <->
                 (Spec.raw_score sentence <= -0.15)%Q).
  { rewrite label_negative_iff, german_score_raw. apply normalise_le. }
  split; [exact Hpos|]. split; [exact Hneg|]. split.
  - split.
    + intros Hn. split; apply Qnot_le_lt; intros Hc.
      * apply Hneg in Hc. congruence.
      * apply Hpos in Hc. congruence.
    + intros [H1 H2].
      destruct (fst (label_from_score (german_score sentence))) eqn:E.
      * exfalso. apply (Qlt_not_le _ _ H2). apply Hpos. reflexivity.
      * reflexivity.
      * exfalso. apply (Qlt_not_le _ _ H1). apply Hneg. reflexivity.
  - intros L lang Hde. unfold score_sentence. rewrite Hde. reflexivity.
Qed.

Lemma lower_char_idem (c : ascii) : lower_char (lower_char c) = lower_char c.
Proof. destruct c as [[] [] [] [] [] [] [] []]; reflexivity. Qed.

Lemma lower_idem (s : str) : lower (lower s) = lower s.
Proof.
  unfold lower. rewrite map_map. apply map_ext. intros c. apply lower_char_idem.
Qed.

Lemma lower_app (a b : str) : lower (a ++ b) = lower a ++ lower b.
Proof. apply map_app. Qed.

(** X5: lowercasing a sentence changes neither its German score nor the
    result of the keyword test: both work on the lowercased sentence, and
    lowercasing twice is lowercasing once. *)
Theorem lowercase_blind (sentence : str) :
  german_score (lower sentence) = german_score sentence /\
  (forall lang : str,
     sentence_mentions_ai (lower sentence) lang = sentence_mentions_ai sentence lang) /\
  (forall (L : Libs) (lang : str),
     is_de lang = true ->
     score_sentence lang (lower sentence) = score_sentence lang sentence).
Proof.
  split; [|split].
  - unfold german_score. rewrite lower_idem. reflexivity.
  - intros lang. unfold sentence_mentions_ai. rewrite lower_idem. reflexivity.
  - intros L lang Hde. unfold score_sentence, german_score. rewrite Hde, lower_idem.
    reflexivity.
Qed.

(** X6: the keyword test is a substring test: a sentence that mentions AI
    still does with any text put before and after it. *)
Theorem mention_survives_context (sentence lang pre post : str)
    (mentions : sentence_mentions_ai sentence lang = true) :
  sentence_mentions_ai (pre ++ sentence ++ post) lang = true.
Proof.
  unfold sentence_mentions_ai in *. cbv zeta in *.
  apply existsb_exists in mentions. destruct mentions as [k [Hin Hk]].
  apply existsb_exists. exists k. split; [exact Hin|].
  apply contains_spec in Hk. destruct Hk as [a [b Hk]].
  apply contains_spec. exists (lower pre ++ a), (b ++ lower post).
  rewrite !lower_app, Hk, <- !app_assoc. reflexivity.
Qed.

Lemma mention_survives_context_witness :
  sentence_mentions_ai (u "Wir sagen: " ++ u "die KI hilft" ++ u " sehr.") (u "de") = true.
Proof.
  apply (@mention_survives_context (u "die KI hilft") (u "de")).
  vm_compute. reflexivity.
Defined.

Lemma existsb_core (f : str -> bool) (keys : list str) :
  (forall k : str,
     In k keys -> startswith (u "generative ") k = true ->
     exists k' : str,
       In k' keys /\ startswith (u "generative ") k' = false /\
       (f k = true -> f k' = true)) ->
  existsb f keys = existsb f (core_keywords keys).
Proof.
  intros H. apply eq_true_iff_eq. rewrite !existsb_exists. split.
  - intros [k [Hin Hk]].
    destruct (startswith (u "generative ") k) eqn:E.
    + destruct (H k Hin E) as [k' [Hin' [E' Himp]]].
      exists k'. split; [|apply Himp, Hk].
      apply filter_In. split; [exact Hin'|]. now rewrite E'.
    + exists k. split; [|exact Hk].
      apply filter_In. split; [exact Hin|]. now rewrite E.
  - intros [k [Hin Hk]]. apply filter_In in Hin.
    exists k. split; [apply Hin|exact Hk].
Qed.

Lemma contains_tail (a b s : str) :
  contains (a ++ b) s = true -> contains b s = true.
Proof.
  rewrite !contains_spec. intros [pre [post H]].
  exists (pre ++ a), post. rewrite H, <- !app_assoc. reflexivity.
Qed.

(** X7: the keywords "generative ai" and "generative ki" never decide the
    keyword test: each contains the keyword "ai" or "ki" of its own list,
    so the test gives the same result on the lists without them. *)
Theorem generative_keywords_redundant (sentence lang : str) :
  sentence_mentions_ai sentence lang =
  existsb (fun k => contains k (lower sentence))
          (core_keywords (if is_de lang then AI_KEYWORDS_DE else AI_KEYWORDS_EN)) /\
  core_keywords AI_KEYWORDS_EN =
    [ u "artificial intelligence"; u "ai"; u "machine learning";
      u "deep learning"; u "neural network"; u "nlp";
      u "natural language processing"; u "computer vision";
      u "foundation model"; u "large language model"; u "llm" ] /\
  core_keywords AI_KEYWORDS_DE =
    [ u "künstliche intelligenz"; u "ki"; u "maschinelles lernen";
      u "deep learning"; u "neuronales netz"; u "nlp";
      u "natürliche sprachverarbeitung"; u "computer vision";
      u "foundation model"; u "großes sprachmodell"; u "llm" ].
Proof.
  split; [|split; vm_compute; reflexivity].
  unfold sentence_mentions_ai. cbv zeta. apply existsb_core.
  intros k Hin Hgen. destruct (is_de lang).
  - exists (u "ki"). split; [simpl; tauto|]. split; [reflexivity|].
    assert (Hk : k = u "generative " ++ u "ki").
    { simpl in Hin.
      repeat (destruct Hin as [Hin|Hin]; [subst k; try discriminate Hgen|]);
        try reflexivity.
      contradiction. }
    rewrite Hk. apply contains_tail.
  - exists (u "ai"). split; [simpl; tauto|]. split; [reflexivity|].
    assert (Hk : k = u "generative " ++ u "ai").
    { simpl in Hin.
      repeat (destruct Hin as [Hin|Hin]; [subst k; try discriminate Hgen|]);
        try reflexivity.
      contradiction. }
    rewrite Hk. apply contains_tail.
Qed.

(** ** Sentence splitting *)

Lemma lstrip_head (s : str) (c : ascii) (t : str) :
  lstrip s = c :: t -> is_space c = false.
Proof.
  induction s as [|x s IH]; simpl; [discriminate|].
  destruct (is_space x) eqn:E; [exact IH|].
  intros H. inversion H; subst. exact E.
Qed.

Lemma lstrip_nonspace (c : ascii) (t : str) :
  is_space c = false -> lstrip (c :: t) = c :: t.
Proof. intros H. simpl. rewrite H. reflexivity. Qed.

Lemma lstrip_snoc (l : str) (c : ascii) :
  is_space c = false -> lstrip (l ++ [c]) = lstrip l ++ [c].
Proof.
  intros H. induction l as [|x l IH]; simpl.
  - rewrite H. reflexivity.
  - destruct (is_space x); [exact IH|reflexivity].
Qed.

Lemma rstrip_cons (c : ascii) (t : str) :
  is_space c = false -> rstrip (c :: t) = c :: rstrip t.
Proof.
  intros H. unfold rstrip. cbn [rev]. rewrite (@lstrip_snoc _ _ H), rev_app_distr.
  reflexivity.
Qed.

Lemma rstrip_idem (s : str) : rstrip (rstrip s) = rstrip s.
Proof.
  unfold rstrip. rewrite rev_involutive. f_equal.
  destruct (lstrip (rev s)) as [|c t] eqn:E; [reflexivity|].
  apply lstrip_nonspace. exact (@lstrip_head _ _ _ E).
Qed.

Lemma strip_idem (s : str) : strip (strip s) = strip s.
Proof.
  unfold strip. destruct (lstrip s) as [|c t] eqn:E; [reflexivity|].
  pose proof (@lstrip_head _ _ _ E) as Hc.
  rewrite (@rstrip_cons _ _ Hc), (@lstrip_nonspace _ _ Hc), <- (@rstrip_cons _ _ Hc).
  apply rstrip_idem.
Qed.

Lemma strip_ends (s : str) :
  match strip s with
  | [] => True
  | c :: t => is_space c = false /\ is_space (last t c) = false
  end.
Proof.
  unfold strip. destruct (lstrip s) as [|c t] eqn:E; [exact I|].
  pose proof (@lstrip_head _ _ _ E) as Hc. rewrite (@rstrip_cons _ _ Hc).
  split; [exact Hc|].
  unfold rstrip. destruct (lstrip (rev t)) as [|x r] eqn:E'; [exact Hc|].
  cbn [rev]. rewrite last_last. exact (@lstrip_head _ _ _ E').
Qed.

Lemma gap_needs_terminal (b s : str) :
  match b with
  | c :: _ => is_terminal c = false
  | [] => True
  end ->
  match_here re_sentence_gap b s = None.
Proof.
  unfold match_here, re_sentence_gap. cbn [run before].
  destruct b as [|c b]; [reflexivity|]. intros ->. reflexivity.
Qed.

Lemma split_without_terminal (fuel : nat) (b piece s : str) :
  match b with
  | c :: _ => is_terminal c = false
  | [] => True
  end ->
  Forall (fun c => is_terminal c = false) s ->
  split_from fuel re_sentence_gap b piece s = [rev piece ++ s].
Proof.
  revert b piece s. induction fuel as [|fuel IH]; intros b piece s Hb Hs.
  - reflexivity.
  - cbn [split_from]. rewrite (@gap_needs_terminal _ s Hb).
    destruct s as [|c s].
    + rewrite app_nil_r. reflexivity.
    + inversion Hs; subst. rewrite IH; [|assumption|assumption].
      cbn [rev]. rewrite <- app_assoc. reflexivity.
Qed.

(** X8: when the tokenizer raises, [split_sentences] falls back to the
    regular expression: every sentence it returns is the stripped form of
    a piece of the text, is not empty, and neither starts nor ends with
    whitespace (stripping it again changes nothing); a text without any of
    '.', '!', '?' is one sentence, or none when it is blank. *)
Theorem split_sentences_fallback (L : Libs) (text lang : str)
    (tokenizer_raises :
       sent_tokenize text (if is_de lang then u "german" else u "english") = None) :
  Forall (fun s =>
            s <> [] /\ strip s = s /\
            (exists piece : str,
               In piece (Re.split re_sentence_gap text) /\ s = strip piece) /\
            (forall c t, s = c :: t ->
               is_space c = false /\ is_space (last t c) = false))
         (split_sentences text lang) /\
  (Forall (fun c => is_terminal c = false) text ->
   split_sentences text lang =
   if is_empty (strip text) then [] else [strip text]).
Proof.
  assert (Hfall : split_sentences text lang =
                  map strip (filter (fun s => negb (is_empty (strip s)))
                                    (Re.split re_sentence_gap text))).
  { unfold split_sentences. destruct (is_de lang); rewrite tokenizer_raises;
      reflexivity. }
  rewrite Hfall. split.
  - apply Forall_forall. intros s Hs. apply in_map_iff in Hs.
    destruct Hs as [piece [Hs Hin]]. apply filter_In in Hin.
    destruct Hin as [Hin Hne]. subst s.
    split; [|split; [apply strip_idem|split]].
    + intros E. rewrite E in Hne. discriminate.
    + exists piece. split; [exact Hin|reflexivity].
    + intros c t E. pose proof (strip_ends piece) as H. rewrite E in H. exact H.
  - intros Hnone. unfold Re.split.
    rewrite (@split_without_terminal _ [] [] _ I Hnone). cbn [rev app filter].
    destruct (is_empty (strip text)); reflexivity.
Qed.

Lemma split_sentences_fallback_witness :
  @split_sentences sample_libs (u "  Die KI hilft  ") (u "de") = [u "Die KI hilft"].
Proof.
  apply (proj2 (@split_sentences_fallback sample_libs (u "  Die KI hilft  ") (u "de")
                  eq_refl)).
  repeat constructor.
Defined.

(** ** The runner *)

Section RunnerFacts.

Context {L : Libs}.

Lemma ensure_text_fields (item : release) :
  url (ensure_text item) = url item /\
  title (ensure_text item) = title item /\
  local (ensure_text item) = local item /\
  publish_date (ensure_text item) = publish_date item /\
  company (ensure_text item) = company item.
Proof.
  unfold ensure_text.
  destruct (negb (is_empty (text item))); [tauto|].
  destruct (endswith (u ".pdf") (lower (url item))
            || local item && endswith (u ".pdf") (lower (url item)));
    [destruct (pdf_extract_text (url item))|]; cbn; tauto.
Qed.

Lemma ensure_text_keeps (item : release) :
  is_empty (text item) = false -> ensure_text item = item.
Proof. intros H. unfold ensure_text. rewrite H. reflexivity. Qed.

Lemma ensure_text_empty (item : release) :
  is_empty (text item) = true ->
  ensure_text item =
  set_text item
    (if endswith (u ".pdf") (lower (url item))
     then match pdf_extract_text (url item) with
          | Some txt => txt
          | None => []
          end
     else []).
Proof.
  intros H. unfold ensure_text. rewrite H. cbn [negb].
  destruct (endswith (u ".pdf") (lower (url item)));
    [|rewrite andb_false_r; reflexivity].
  cbn [orb]. destruct (pdf_extract_text (url item)); reflexivity.
Qed.

Lemma set_text_same (item : release) : set_text item (text item) = item.
Proof. destruct item. reflexivity. Qed.

Lemma extract_year_month_closed (pd : option datetime) (text title url : str) :
  extract_year_month pd text title url = Ok (year_month_of pd text title url).
Proof.
  unfold extract_year_month, year_month_of. destruct pd as [d|]; [reflexivity|].
  rewrite !find_date_refines. cbn [bind Spec.first_success].
  destruct (Spec.find_date text); [reflexivity|].
  destruct (Spec.find_date title); [reflexivity|].
  destruct (Spec.find_date url); reflexivity.
Qed.

Lemma score_loop_closed (ai : list (str * str)) :
  score_loop ai [] (Examples [] [] []) =
  (map (fun item => score_sentence (fst item) (snd item)) ai,
   Examples (firstn 3 (labelled positive ai)) (firstn 3 (labelled neutral ai))
            (firstn 3 (labelled negative ai))).
Proof.
  pose proof (score_loop_scores ai [] (Examples [] [] [])) as Hs.
  pose proof (score_loop_bucket ai [] (Examples [] [] []) positive) as Hp.
  pose proof (score_loop_bucket ai [] (Examples [] [] []) neutral) as Hn.
  pose proof (score_loop_bucket ai [] (Examples [] [] []) negative) as Hg.
  destruct (score_loop ai [] (Examples [] [] [])) as [scores [p n g]].
  cbn in Hs, Hp, Hn, Hg. subst. reflexivity.
Qed.

Lemma aggregate_count (xs : list Q) :
  agg_count (aggregate_release xs) = length xs.
Proof.
  destruct xs as [|x xs]; [reflexivity|].
  rewrite aggregate_release_cons. reflexivity.
Qed.

Lemma process_release_closed (r : release) :
  process_release r = Ok (if long_enough r then Some (row_of r) else None).
Proof.
  unfold process_release, long_enough. cbv zeta. rewrite guard_test.
  destruct (le_lt_dec 50 (length (text (ensure_text r)))) as [Hge|Hlt].
  - pose proof Hge as Hge'. apply Nat.ltb_ge in Hge. apply Nat.leb_le in Hge'.
    rewrite Hge, Hge'. rewrite score_loop_closed, extract_year_month_closed.
    cbn [bind]. unfold row_of. cbv zeta.
    destruct (ensure_text_fields r) as [-> [-> [_ [-> ->]]]].
    rewrite aggregate_count, length_map. reflexivity.
  - pose proof Hlt as Hlt'. apply Nat.ltb_lt in Hlt. apply Nat.leb_gt in Hlt'.
    rewrite Hlt, Hlt'. reflexivity.
Qed.

Lemma run_pipeline_closed (releases : list release) :
  run_pipeline releases = Ok (map row_of (filter long_enough releases)).
Proof.
  induction releases as [|r releases IH]; [reflexivity|].
  cbn [run_pipeline filter]. rewrite process_release_closed, IH. cbn [bind].
  destruct (long_enough r); reflexivity.
Qed.

End RunnerFacts.

Lemma find_date_range (text : str) (d : datetime) :
  Spec.find_date text = Some d ->
  (2000 <= year d <= 2099)%Z /\ (1 <= month d <= 12)%Z /\ day d = 1%Z.
Proof.
  unfold Spec.find_date.
  destruct (Spec.first_at (fun _ s => Spec.year_at s) [] text) as [y|] eqn:E;
    [|discriminate].
  intros H. inversion H; subst d. cbn [year month day].
  apply first_at_some in E. destruct E as [pre [post [_ Hy]]].
  apply year_at_some in Hy. destruct Hy as [c [d [s' [_ [-> [Hc Hd]]]]]].
  split; [apply year_value; assumption|].
  split; [apply month_from_range|reflexivity].
Qed.

(** X9: [ensure_text] is idempotent and touches nothing but the text: a
    second call returns what the first returned, a text that is not empty
    is never replaced, and URL, title, local flag, publish date and
    company are those of the item. *)
Theorem ensure_text_idempotent (L : Libs) (item : release) :
  ensure_text (ensure_text item) = ensure_text item /\
  (is_empty (text item) = false -> ensure_text item = item) /\
  url (ensure_text item) = url item /\
  title (ensure_text item) = title item /\
  local (ensure_text item) = local item /\
  publish_date (ensure_text item) = publish_date item /\
  company (ensure_text item) = company item.
Proof.
  split; [|split; [apply ensure_text_keeps|apply ensure_text_fields]].
  destruct (is_empty (text (ensure_text item))) eqn:E;
    [|apply ensure_text_keeps; exact E].
  destruct (is_empty (text item)) eqn:E0;
    [|rewrite (ensure_text_keeps _ E0) in *; congruence].
  rewrite (ensure_text_empty _ E) at 1.
  rewrite (ensure_text_empty _ E0) at 1 2 3.
  rewrite (ensure_text_empty _ E0).
  reflexivity.
Qed.

(** X10: the [local] flag of an item never matters to [ensure_text]: the
    second half of its PDF test implies the first, so the text it returns
    is the same with the flag set or cleared. *)
Theorem ensure_text_ignores_local (L : Libs) (item : release) (b : bool) :
  ensure_text (with_local item b) = with_local (ensure_text item) b /\
  text (ensure_text (with_local item b)) = text (ensure_text item).
Proof.
  assert (H : ensure_text (with_local item b) = with_local (ensure_text item) b).
  { unfold ensure_text, with_local. cbn [text url local].
    destruct (negb (is_empty (text item))); [reflexivity|].
    destruct (endswith (u ".pdf") (lower (url item)));
      [|rewrite !andb_false_r; reflexivity].
    cbn [orb]. destruct (pdf_extract_text (url item)); reflexivity. }
  split; [exact H|]. rewrite H. reflexivity.
Qed.

(** X11: [extract_year_month] never raises and takes its sources in a fixed
    order: the publish date when there is one, whatever the texts say,
    else the first of text, title and URL that holds a 20dd year token; it
    returns the empty pair exactly when there is no publish date and none
    of the three holds such a token; a year and month read from the texts
    lie in 2000..2099 and 1..12. *)
Theorem extract_year_month_priority (pd : option datetime) (text title url : str) :
  extract_year_month pd text title url = Ok (year_month_of pd text title url) /\
  (forall d : datetime,
     pd = Some d ->
     extract_year_month pd text title url = Ok (Some (year d, month d))) /\
  (pd = None -> Spec.has_year_token text ->
     extract_year_month pd text title url =
     Ok (option_map year_month (Spec.find_date text))) /\
  (pd = None -> ~ Spec.has_year_token text -> Spec.has_year_token title ->
     extract_year_month pd text title url =
     Ok (option_map year_month (Spec.find_date title))) /\
  (extract_year_month pd text title url = Ok None <->
     pd = None /\ ~ Spec.has_year_token text /\ ~ Spec.has_year_token title /\
     ~ Spec.has_year_token url) /\
  (forall y m : Z,
     pd = None ->
     extract_year_month pd text title url = Ok (Some (y, m)) ->
     (2000 <= y <= 2099)%Z /\ (1 <= m <= 12)%Z).
Proof.
  assert (Hnone : forall t : str, Spec.find_date t = None <-> ~ Spec.has_year_token t).
  { intros t. rewrite <- find_date_none_iff, find_date_refines.
    split; [intros ->; reflexivity|intros H; now inversion H]. }
  rewrite extract_year_month_closed.
  split; [reflexivity|]. split; [intros d ->; reflexivity|]. split; [|split; [|split]].
  - intros -> Hy. cbn [year_month_of Spec.first_success].
    destruct (Spec.find_date text) eqn:E; [reflexivity|].
    apply Hnone in E. contradiction.
  - intros -> Hn Hy. cbn [year_month_of Spec.first_success].
    apply Hnone in Hn. rewrite Hn.
    destruct (Spec.find_date title) eqn:E; [reflexivity|].
    apply Hnone in E. contradiction.
  - rewrite <- !Hnone. unfold year_month_of. destruct pd as [d|].
    + split; [discriminate|]. intros [H _]. discriminate.
    + cbn [Spec.first_success].
      destruct (Spec.find_date text); [split; [discriminate|intros [_ [H _]]; discriminate]|].
      destruct (Spec.find_date title); [split; [discriminate|intros [_ [_ [H _]]]; discriminate]|].
      destruct (Spec.find_date url); [split; [discriminate|intros [_ [_ [_ H]]]; discriminate]|].
      tauto.
  - intros y m -> H. inversion H as [H1]. clear H.
    cbn [year_month_of Spec.first_success] in H1.
    assert (Hr : forall t d, Spec.find_date t = Some d ->
                 Some (year_month d) = Some (y, m) ->
                 (2000 <= y <= 2099)%Z /\ (1 <= m <= 12)%Z).
    { intros t d Hd Hym. inversion Hym; subst.
      destruct (find_date_range _ Hd) as [Hyr [Hmo _]]. split; assumption. }
    destruct (Spec.find_date text) eqn:E1; [exact (Hr _ _ E1 H1)|].
    destruct (Spec.find_date title) eqn:E2; [exact (Hr _ _ E2 H1)|].
    destruct (Spec.find_date url) eqn:E3; [exact (Hr _ _ E3 H1)|].
    discriminate.
Qed.

(** ** Rounding *)

Lemma scale_pos (n : nat) : (0 < inject_Z (10 ^ Z.of_nat n))%Q.
Proof.
  change 0%Q with (inject_Z 0). rewrite <- Zlt_Qlt.
  apply Z.pow_pos_nonneg; lia.
Qed.

(** The integer [py_round] picks: the floor or the floor plus one of the
    scaled value, whichever is nearer, the even one on a tie. *)
Lemma py_round_cases (x : Q) (n : nat) :
  let y := (x * inject_Z (10 ^ Z.of_nat n))%Q in
  let f := Qfloor y in
  exists N : Z,
    py_round x n = (inject_Z N / inject_Z (10 ^ Z.of_nat n))%Q /\
    ((N = f /\ ((y - inject_Z f < 1 # 2)%Q \/
                ((y - inject_Z f == 1 # 2)%Q /\ Z.even f = true))) \/
     (N = (f + 1)%Z /\ ((1 # 2 < y - inject_Z f)%Q \/
                        ((y - inject_Z f == 1 # 2)%Q /\ Z.even f = false)))).
Proof.
  intros y f. unfold py_round. fold y. fold f. cbv zeta.
  destruct (Qltb (y - inject_Z f) (1 # 2)) eqn:E1.
  - exists f. split; [reflexivity|]. left. split; [reflexivity|].
    left. apply Qltb_lt. exact E1.
  - destruct (Qltb (1 # 2) (y - inject_Z f)) eqn:E2.
    + exists (f + 1)%Z. split; [reflexivity|]. right. split; [reflexivity|].
      left. apply Qltb_lt. exact E2.
    + apply Qltb_ge in E1. apply Qltb_ge in E2.
      assert (Heq : (y - inject_Z f == 1 # 2)%Q) by (apply Qle_antisym; assumption).
      destruct (Z.even f) eqn:Ev.
      * exists f. split; [reflexivity|]. left. split; [reflexivity|].
        right. split; [exact Heq|reflexivity].
      * exists (f + 1)%Z. split; [reflexivity|]. right. split; [reflexivity|].
        right. split; [exact Heq|reflexivity].
Qed.

Lemma floor_frac (y : Q) :
  (0 <= y - inject_Z (Qfloor y))%Q /\ (y - inject_Z (Qfloor y) < 1)%Q.
Proof.
  pose proof (Qfloor_le y) as H1. pose proof (Qlt_floor y) as H2.
  rewrite inject_Z_plus in H2. change (inject_Z 1) with 1%Q in H2.
  split; lra.
Qed.

(** Rounding moves a value by at most half a unit of the last digit. *)
Lemma py_round_error (x : Q) (n : nat) :
  (x - (1 # 2) / inject_Z (10 ^ Z.of_nat n) <= py_round x n)%Q /\
  (py_round x n <= x + (1 # 2) / inject_Z (10 ^ Z.of_nat n))%Q.
Proof.
  pose proof (scale_pos n) as Hs.
  assert (Hne : ~ (inject_Z (10 ^ Z.of_nat n) == 0)%Q) by lra.
  destruct (py_round_cases x n) as [N [-> Hcases]].
  destruct (floor_frac (x * inject_Z (10 ^ Z.of_nat n))) as [H0 H1].
  set (S := inject_Z (10 ^ Z.of_nat n)) in *.
  set (f := Qfloor (x * S)) in *.
  assert (HN : (x * S - (1 # 2) <= inject_Z N)%Q /\ (inject_Z N <= x * S + (1 # 2))%Q).
  { destruct Hcases as [[-> Hc]|[-> Hc]].
    - destruct Hc as [Hc|[Hc _]]; split; lra.
    - rewrite inject_Z_plus. change (inject_Z 1) with 1%Q.
      destruct Hc as [Hc|[Hc _]]; split; lra. }
  destruct HN as [HN1 HN2]. split.
  - apply Qle_shift_div_l; [exact Hs|].
    setoid_replace ((x - (1 # 2) / S) * S)%Q with (x * S - (1 # 2))%Q by (field; exact Hne).
    exact HN1.
  - apply Qle_shift_div_r; [exact Hs|].
    setoid_replace ((x + (1 # 2) / S) * S)%Q with (x * S + (1 # 2))%Q by (field; exact Hne).
    exact HN2.
Qed.

(** Rounding never leaves an interval with integer ends. *)
Lemma py_round_between (x : Q) (n : nat) (lo hi : Z) :
  (inject_Z lo <= x)%Q -> (x <= inject_Z hi)%Q ->
  (inject_Z lo <= py_round x n)%Q /\ (py_round x n <= inject_Z hi)%Q.
Proof.
  intros Hlo Hhi.
  pose proof (scale_pos n) as Hs.
  destruct (py_round_cases x n) as [N [-> Hcases]].
  destruct (floor_frac (x * inject_Z (10 ^ Z.of_nat n))) as [H0 H1].
  set (P := (10 ^ Z.of_nat n)%Z) in *.
  set (f := Qfloor (x * inject_Z P)) in *.
  assert (Hylo : (inject_Z (lo * P) <= x * inject_Z P)%Q).
  { rewrite inject_Z_mult. apply Qmult_le_compat_r; [exact Hlo|lra]. }
  assert (Hyhi : (x * inject_Z P <= inject_Z (hi * P))%Q).
  { rewrite inject_Z_mult. apply Qmult_le_compat_r; [exact Hhi|lra]. }
  assert (Hflo : (lo * P <= f)%Z).
  { rewrite <- (Qfloor_Z (lo * P)). apply Qfloor_resp_le. exact Hylo. }
  assert (Hfhi : (f <= hi * P)%Z).
  { rewrite Zle_Qle. lra. }
  assert (HN : (lo * P <= N <= hi * P)%Z).
  { destruct Hcases as [[-> _]|[-> Hc]]; [lia|].
    assert (Hlt : (f < hi * P)%Z).
    { rewrite Zlt_Qlt. destruct Hc as [Hc|[Hc _]]; lra. }
    lia. }
  destruct HN as [HN1 HN2]. rewrite Zle_Qle in HN1, HN2.
  rewrite inject_Z_mult in HN1, HN2. split.
  - apply Qle_shift_div_l; [exact Hs|exact HN1].
  - apply Qle_shift_div_r; [exact Hs|exact HN2].
Qed.

Lemma mean_bounds (lo hi s : Q) (scores : list Q) :
  Forall (fun x => (lo <= x)%Q /\ (x <= hi)%Q) (s :: scores) ->
  (lo <= py_sum (s :: scores) / float_of_int (len (s :: scores)))%Q /\
  (py_sum (s :: scores) / float_of_int (len (s :: scores)) <= hi)%Q.
Proof.
  intros bounded.
  destruct (total_bounds bounded) as [Hlo Hhi].
  pose proof (len_pos s scores) as Hpos.
  unfold float_of_int, len in *.
  split.
  - apply Qle_shift_div_l; [exact Hpos|].
    rewrite py_sum_total, Qmult_comm. exact Hlo.
  - apply Qle_shift_div_r; [exact Hpos|].
    rewrite py_sum_total, Qmult_comm. exact Hhi.
Qed.

(** ** Rows *)

Section RowFacts.

Context {L : Libs}.

Lemma scores_in_range (ai : list (str * str)) :
  (forall s : str, (-1 <= polarity_compound s)%Q /\ (polarity_compound s <= 1)%Q) ->
  Forall (fun x => (-1 <= x)%Q /\ (x <= 1)%Q)
         (map (fun item => score_sentence (fst item) (snd item)) ai).
Proof.
  intros Hc. apply Forall_forall. intros x Hx. apply in_map_iff in Hx.
  destruct Hx as [[lang sent] [<- _]]. cbn [fst snd].
  unfold score_sentence. destruct (is_de lang);
    [apply german_score_range|apply Hc].
Qed.

Lemma aggregate_score_range (scores : list Q) :
  Forall (fun x => (-1 <= x)%Q /\ (x <= 1)%Q) scores ->
  (-1 <= agg_score (aggregate_release scores))%Q /\
  (agg_score (aggregate_release scores) <= 1)%Q.
Proof.
  destruct scores as [|s scores]; [intros _; split; discriminate|].
  intros H. rewrite aggregate_release_cons. cbv zeta. cbn [agg_score].
  apply mean_bounds. exact H.
Qed.

Lemma aggregate_confidence_range (scores : list Q) :
  (0 <= agg_confidence (aggregate_release scores))%Q /\
  (agg_confidence (aggregate_release scores) <= 1)%Q.
Proof.
  destruct scores as [|s scores]; [split; discriminate|].
  rewrite aggregate_release_cons. cbv zeta. cbn [agg_confidence].
  rewrite non_neutral_count. unfold float_of_int, len.
  apply fraction_in_unit; [apply count_non_neutral_le|simpl; lia].
Qed.

End RowFacts.

(** X12: [run_pipeline] is a filter and a map: it never raises, and it
    produces one row for each release whose text after [ensure_text] has
    at least 50 characters, in the order of the releases; the row of a
    release carries its company, title and URL, the year and month of
    [extract_year_month], the number of its AI sentences, and for each
    label the first three of its sentences with that label joined by
    " | ".  The label, score and confidence of the row are those of the
    aggregate. *)
Theorem pipeline_is_filter_map (L : Libs) (releases : list release) :
  exists rows : list row,
    run_pipeline releases = Ok rows /\
    map row_company rows = map company (filter long_enough releases) /\
    map row_title rows = map title (filter long_enough releases) /\
    map row_url rows = map url (filter long_enough releases) /\
    map (fun row => Ok (row_year_month row)) rows =
      map (fun r => extract_year_month (publish_date r) (text (ensure_text r))
                                       (title r) (url r))
          (filter long_enough releases) /\
    map row_ai_sentence_count rows =
      map (fun r => length (extract_ai_sentences (text (ensure_text r))))
          (filter long_enough releases) /\
    map (fun row => (row_example_positive row, row_example_neutral row,
                     row_example_negative row)) rows =
      map (fun r =>
             let ai := extract_ai_sentences (text (ensure_text r)) in
             (join (u " | ") (firstn 3 (labelled positive ai)),
              join (u " | ") (firstn 3 (labelled neutral ai)),
              join (u " | ") (firstn 3 (labelled negative ai))))
          (filter long_enough releases).
Proof.
  exists (map row_of (filter long_enough releases)).
  split; [apply run_pipeline_closed|].
  rewrite !map_map. repeat split; try reflexivity.
  apply map_ext. intros r. rewrite extract_year_month_closed. reflexivity.
Qed.

(** X13: provided the English analyzer's compound value lies in [-1, 1],
    every row [run_pipeline] produces has a score in [-1, 1] and a
    confidence in [0, 1], rounding included, and the rounded score is
    within 0.00005 of the mean of the sentence scores. *)
Theorem row_ranges (L : Libs)
    (compound_range :
       forall s : str, (-1 <= polarity_compound s)%Q /\ (polarity_compound s <= 1)%Q)
    (releases : list release) :
  exists rows : list row,
    run_pipeline releases = Ok rows /\
    Forall (fun row =>
              (-1 <= row_score row)%Q /\ (row_score row <= 1)%Q /\
              (0 <= row_confidence row)%Q /\ (row_confidence row <= 1)%Q)
           rows /\
    (forall r : release,
       let agg :=
         aggregate_release
           (map (fun item => score_sentence (fst item) (snd item))
                (extract_ai_sentences (text (ensure_text r)))) in
       (agg_score agg - 0.00005 <= row_score (row_of r))%Q /\
       (row_score (row_of r) <= agg_score agg + 0.00005)%Q).
Proof.
  exists (map row_of (filter long_enough releases)).
  split; [apply run_pipeline_closed|]. split.
  - apply Forall_forall. intros row Hrow. apply in_map_iff in Hrow.
    destruct Hrow as [r [<- _]]. unfold row_of. cbv zeta.
    cbn [row_score row_confidence].
    split; [|split].
    + apply (@py_round_between _ 4 (-1) 1);
        apply aggregate_score_range, scores_in_range, compound_range.
    + apply (@py_round_between _ 4 (-1) 1);
        apply aggregate_score_range, scores_in_range, compound_range.
    + apply (@py_round_between _ 3 0 1); apply aggregate_confidence_range.
  - intros r agg. unfold row_of. cbv zeta. cbn [row_score]. fold agg.
    destruct (py_round_error (agg_score agg) 4) as [H1 H2].
    assert (E : ((1 # 2) / inject_Z (10 ^ Z.of_nat 4) == 0.00005)%Q) by reflexivity.
    rewrite E in H1, H2. split; assumption.
Qed.

Lemma row_ranges_witness :
  exists rows : list row,
    @run_pipeline pdf_libs [pdf_item] = Ok rows /\
    Forall (fun row =>
              (-1 <= row_score row)%Q /\ (row_score row <= 1)%Q /\
              (0 <= row_confidence row)%Q /\ (row_confidence row <= 1)%Q)
           rows /\
    (forall r : release,
       let agg :=
         aggregate_release
           (map (fun item => @score_sentence pdf_libs (fst item) (snd item))
                (@extract_ai_sentences pdf_libs (text (@ensure_text pdf_libs r)))) in
       (agg_score agg - 0.00005 <= row_score (@row_of pdf_libs r))%Q /\
       (row_score (@row_of pdf_libs r) <= agg_score agg + 0.00005)%Q).
Proof.
  apply (@row_ranges pdf_libs). intros s. split; discriminate.
Defined.

(** X14: a release without a single AI sentence is not dropped: when its
    text passes the length test and no sentence passes the keyword
    filter, [run_pipeline] still gives it a row, labelled neutral, with
    score 0, confidence 0, count 0 and empty example fields. *)
Theorem release_without_ai_sentences (L : Libs) (r : release)
    (long : 50 <= length (text (ensure_text r)))
    (no_ai : extract_ai_sentences (text (ensure_text r)) = []) :
  exists row : row,
    process_release r = Ok (Some row) /\
    run_pipeline [r] = Ok [row] /\
    row_label row = neutral /\
    (row_score row == 0)%Q /\ (row_confidence row == 0)%Q /\
    row_ai_sentence_count row = 0 /\
    row_example_positive row = [] /\ row_example_neutral row = [] /\
    row_example_negative row = [].
Proof.
  exists (row_of r).
  assert (Hlong : long_enough r = true) by (apply Nat.leb_le; exact long).
  split; [rewrite process_release_closed, Hlong; reflexivity|].
  split; [rewrite run_pipeline_closed; cbn [filter]; rewrite Hlong; reflexivity|].
  unfold row_of. cbv zeta. rewrite no_ai.
  cbn [map row_label row_score row_confidence row_ai_sentence_count
       row_example_positive row_example_neutral row_example_negative].
  repeat split; reflexivity.
Qed.

Lemma release_without_ai_sentences_witness :
  exists row : row,
    @run_pipeline sample_libs
      [Release (u "https://example.org/news/1") (u "Bericht")
               (u "Der Umsatz stieg im Jahr 2021 deutlich. Das Ergebnis war gut.")
               false None (u "sap")] = Ok [row] /\
    row_label row = neutral /\ row_ai_sentence_count row = 0.
Proof.
  destruct (@release_without_ai_sentences sample_libs
              (Release (u "https://example.org/news/1") (u "Bericht")
                       (u "Der Umsatz stieg im Jahr 2021 deutlich. Das Ergebnis war gut.")
                       false None (u "sap")))
    as [row [_ [Hrun [Hlbl [_ [_ [Hcount _]]]]]]].
  - apply Nat.leb_le. vm_compute. reflexivity.
  - vm_compute. reflexivity.
  - exists row. split; [exact Hrun|]. split; [exact Hlbl|exact Hcount].
Defined.

(** X15: the label of a row is taken from the unrounded mean, the score of
    the row is the mean rounded to 4 digits: when the mean lies in
    [0.04995, 0.05) the row is labelled neutral while its score reads
    0.05, a value [label_from_score] calls positive. *)
Theorem rounded_score_crosses_threshold (scores : list Q)
    (near : (0.04995 <= agg_score (aggregate_release scores))%Q /\
            (agg_score (aggregate_release scores) < 0.05)%Q) :
  agg_label (aggregate_release scores) = neutral /\
  (py_round (agg_score (aggregate_release scores)) 4 == 0.05)%Q /\
  fst (label_from_score (py_round (agg_score (aggregate_release scores)) 4)) = positive.
Proof.
  destruct near as [Hlo Hhi].
  assert (Hround : (py_round (agg_score (aggregate_release scores)) 4 == 0.05)%Q).
  { set (x := agg_score (aggregate_release scores)) in *.
    destruct (py_round_cases x 4) as [N [-> Hcases]].
    destruct (floor_frac (x * inject_Z (10 ^ Z.of_nat 4))) as [H0 H1].
    change (inject_Z (10 ^ Z.of_nat 4)) with (inject_Z 10000) in *.
    set (f := Qfloor (x * inject_Z 10000)) in *.
    assert (Hf : f = 499%Z).
    { assert (Hf1 : (f < 500)%Z).
      { rewrite Zlt_Qlt. change (inject_Z 500) with 500%Q.
        change (inject_Z 10000) with 10000%Q in *. lra. }
      assert (Hf2 : (499 < f + 1)%Z).
      { rewrite Zlt_Qlt, inject_Z_plus. change (inject_Z 499) with 499%Q.
        change (inject_Z 1) with 1%Q.
        change (inject_Z 10000) with 10000%Q in *. lra. }
      lia. }
    assert (HN : N = 500%Z).
    { rewrite Hf in *. change (inject_Z 499) with 499%Q in *.
      change (inject_Z 10000) with 10000%Q in *.
      destruct Hcases as [[_ [Hc|[_ Hc]]]|[-> _]].
      - exfalso. lra.
      - discriminate Hc.
      - reflexivity. }
    rewrite HN. reflexivity. }
  split; [|split; [exact Hround|]].
  - destruct scores as [|s scores].
    + exfalso. revert Hlo. cbn. intros H. apply H. reflexivity.
    + rewrite aggregate_label_score. apply label_neutral_iff. split; lra.
  - apply label_positive_iff. rewrite Hround. apply Qle_refl.
Qed.

Lemma rounded_score_crosses_threshold_witness :
  agg_label (aggregate_release [0.04996%Q]) = neutral /\
  (py_round (agg_score (aggregate_release [0.04996%Q])) 4 == 0.05)%Q /\
  fst (label_from_score (py_round (agg_score (aggregate_release [0.04996%Q])) 4))
  = positive.
Proof.
  apply (@rounded_score_crosses_threshold [0.04996%Q]).
  split; [discriminate|reflexivity].
Defined.

(** ** Groups of a match *)

Section CapsFacts.

Variable A : Type.

Lemma rep_reaches (p : ascii -> bool) (k : state -> option A) (x : A)
    (s : str) (lo : nat) (hi : option nat) (b : str) (cs : list (string * str)) :
  rep p lo hi b s cs k = Some x ->
  exists b' s' : str, k (St b' s' cs) = Some x.
Proof.
  revert lo hi b. induction s as [|c s IH]; intros lo hi b; cbn [rep].
  - destruct lo; [|discriminate]. intros H. eauto.
  - destruct (p c && may_more hi).
    + destruct (rep p (Nat.pred lo) (option_map Nat.pred hi) (c :: b) s cs k) eqn:E.
      * intros H. inversion H; subst. exact (IH _ _ _ E).
      * destruct lo; [|discriminate]. intros H. eauto.
    + destruct lo; [|discriminate]. intros H. eauto.
Qed.

(** A match only adds groups, and only groups of the pattern. *)
Lemma run_caps (r : regex) :
  forall (st : state) (k : state -> option A) (x : A),
    run r st k = Some x ->
    exists (st' : state) (new : list (string * str)),
      k st' = Some x /\ caps st' = new ++ caps st /\
      Forall (fun item => In (fst item) (group_names r)) new.
Proof.
  induction r as [|c|p|p lo hi|r1 IH1 r2 IH2|r1 IH1 r2 IH2|name r1 IH1| |p];
    intros st k x; cbn [run group_names].
  - intros H. exists st, []. auto.
  - destruct (rest st) as [|y s']; [discriminate|].
    destruct (ascii_dec c y); [|discriminate].
    intros H. eexists _, []. split; [exact H|]. split; [reflexivity|constructor].
  - destruct (rest st) as [|y s']; [discriminate|].
    destruct (p y); [|discriminate].
    intros H. eexists _, []. split; [exact H|]. split; [reflexivity|constructor].
  - intros H. apply rep_reaches in H. destruct H as [b' [s' H]].
    eexists _, []. split; [exact H|]. split; [reflexivity|constructor].
  - intros H. apply IH1 in H. destruct H as [st1 [new1 [H [Hc1 Hn1]]]].
    apply IH2 in H. destruct H as [st2 [new2 [H [Hc2 Hn2]]]].
    exists st2, (new2 ++ new1). split; [exact H|].
    split; [rewrite Hc2, Hc1, app_assoc; reflexivity|].
    apply Forall_app. split.
    + revert Hn2. apply Forall_impl. intros item Hi. apply in_or_app. now right.
    + revert Hn1. apply Forall_impl. intros item Hi. apply in_or_app. now left.
  - destruct (run r1 st k) eqn:E.
    + intros H. inversion H; subst. apply IH1 in E.
      destruct E as [st1 [new1 [H1 [Hc1 Hn1]]]].
      exists st1, new1. split; [exact H1|]. split; [exact Hc1|].
      revert Hn1. apply Forall_impl. intros item Hi. apply in_or_app. now left.
    + intros H. apply IH2 in H. destruct H as [st2 [new2 [H2 [Hc2 Hn2]]]].
      exists st2, new2. split; [exact H2|]. split; [exact Hc2|].
      revert Hn2. apply Forall_impl. intros item Hi. apply in_or_app. now right.
  - intros H. apply IH1 in H. destruct H as [st1 [new1 [H [Hc1 Hn1]]]].
    eexists _, ((name, _) :: new1). split; [exact H|].
    split; [cbn [caps]; rewrite Hc1; reflexivity|].
    constructor; [left; reflexivity|].
    revert Hn1. apply Forall_impl. intros item Hi. now right.
  - destruct (xorb (word_before st) (word_after st)); [|discriminate].
    intros H. exists st, []. auto.
  - destruct (before st) as [|c b]; [discriminate|].
    destruct (p c); [|discriminate].
    intros H. exists st, []. auto.
Qed.

Lemma run_reaches (r : regex) (st : state) (k : state -> option A) (x : A) :
  run r st k = Some x -> exists st' : state, k st' = Some x.
Proof.
  intros H. apply run_caps in H. destruct H as [st' [_ [H _]]]. eauto.
Qed.

(** A group around [20\d{2}] captures the year token it matches. *)
Lemma run_year_group (name : string) (st : state) (k : state -> option A) :
  run (Grp name re_20dd) st k =
  match Spec.year_at (rest st) with
  | Some y => k (St (rev y ++ before st) (skipn 4 (rest st))
                    ((name, y) :: caps st))
  | None => None
  end.
Proof.
  cbn [run]. rewrite match_here_20dd.
  destruct (Spec.year_at (rest st)) as [y|] eqn:E; [|reflexivity].
  cbn [before rest caps]. unfold pos. cbn [before].
  apply year_at_some in E. destruct E as [c [d [s' [Hs [-> _]]]]].
  rewrite Hs. cbn [rev app length]. f_equal. f_equal. f_equal. f_equal.
  replace (S (S (S (S (length (before st))))) - length (before st)) with 4 by lia.
  reflexivity.
Qed.

End CapsFacts.

Lemma lookup_skip (name : string) (new old : list (string * str)) :
  ~ In name (map fst new) -> lookup name (new ++ old) = lookup name old.
Proof.
  induction new as [|[n v] new IH]; [reflexivity|].
  cbn [map fst In app lookup]. intros H.
  destruct (String.eqb name n) eqn:E.
  - apply String.eqb_eq in E. exfalso. apply H. left. congruence.
  - apply IH. intros Hin. apply H. right. exact Hin.
Qed.

Lemma run_cat (A : Type) (r1 r2 : regex) (st : state) (k : state -> option A) :
  run (Cat r1 r2) st k = run r1 st (fun st' => run r2 st' k).
Proof. reflexivity. Qed.

Lemma year_at_token (s y : str) : Spec.year_at s = Some y -> is_year_token y.
Proof.
  intros H. apply year_at_some in H. destruct H as [c [d [s' [_ [Hy [Hc Hd]]]]]].
  exists c, d. auto.
Qed.

Lemma ymd_year_group (b s : str) (st : state) :
  match_here re_ymd b s = Some st ->
  exists y : str, is_year_token y /\ lookup "y" (caps st) = Some y.
Proof.
  unfold match_here, re_ymd. rewrite run_cat, run_year_group. cbn [rest caps before].
  destruct (Spec.year_at s) as [y|] eqn:E; [|discriminate].
  intros H. apply run_caps in H. destruct H as [st' [new [H [Hc Hn]]]].
  inversion H; subst st'. exists y. split; [exact (@year_at_token _ _ E)|].
  rewrite Hc. cbn [caps]. rewrite lookup_skip; [reflexivity|].
  intros Hin. apply in_map_iff in Hin. destruct Hin as [item [Hname Hin]].
  rewrite Forall_forall in Hn. apply Hn in Hin. rewrite Hname in Hin.
  cbn in Hin. repeat (destruct Hin as [Hin|Hin]; [discriminate Hin|]). exact Hin.
Qed.

Lemma last_year_group (r : regex) (b s : str) (st : state) :
  match_here (Cat r (Grp "y" re_20dd)) b s = Some st ->
  exists y : str, is_year_token y /\ lookup "y" (caps st) = Some y.
Proof.
  unfold match_here. rewrite run_cat. intros H.
  apply run_reaches in H. destruct H as [st1 H].
  rewrite run_year_group in H.
  destruct (Spec.year_at (rest st1)) as [y|] eqn:E; [|discriminate].
  inversion H; subst st. exists y. split; [exact (@year_at_token _ _ E)|].
  reflexivity.
Qed.

Lemma dmy_year_group (b s : str) (st : state) :
  match_here re_dmy b s = Some st ->
  exists y : str, is_year_token y /\ lookup "y" (caps st) = Some y.
Proof.
  intros H.
  apply (@last_year_group
           (Cat (Grp "d" (Rep is_digit 1 (Some 2)))
              (Cat (Rep is_space 1 None)
                 (Cat (Grp "mon" (Rep is_letter 1 None)) (Rep is_space 1 None))))
           b s).
  exact H.
Qed.

Lemma mdy_year_group (b s : str) (st : state) :
  match_here re_mdy b s = Some st ->
  exists y : str, is_year_token y /\ lookup "y" (caps st) = Some y.
Proof.
  intros H.
  apply (@last_year_group
           (Cat (Grp "mon" (Rep is_letter 1 None))
              (Cat (Rep is_space 1 None)
                 (Cat (Grp "d" (Rep is_digit 1 (Some 2)))
                    (Cat (Chr ",") (Rep is_space 0 None)))))
           b s).
  exact H.
Qed.

Lemma search_year_group (r : regex) (s : str) (m : match_obj) :
  (forall b s' st, match_here r b s' = Some st ->
     exists y : str, is_year_token y /\ lookup "y" (caps st) = Some y) ->
  search r s = Some m ->
  (2000 <= int_of (group "y" m) <= 2099)%Z.
Proof.
  intros Hr H. unfold search in H. apply search_from_some in H.
  destruct H as [pre [post [_ [H _]]]]. apply Hr in H.
  destruct H as [y [[c [d [-> [Hc Hd]]]] Hl]].
  unfold group. rewrite Hl. apply year_value; assumption.
Qed.

Lemma datetime_new_ok (y m d : Z) (dt : datetime) :
  datetime_new y m d = Ok dt ->
  dt = Datetime y m d /\ (1 <= m <= 12)%Z /\ (1 <= d <= days_in_month y m)%Z.
Proof.
  unfold datetime_new.
  destruct ((1 <=? y) && (y <=? 9999) && (1 <=? m) && (m <=? 12)
            && (1 <=? d) && (d <=? days_in_month y m))%Z eqn:E; [|discriminate].
  intros H. inversion H; subst. split; [reflexivity|].
  repeat (apply andb_prop in E; destruct E as [E ?]). lia.
Qed.

Lemma try_return_none (c : exn datetime) (d : datetime) :
  try_return c None = Some d -> c = Ok d.
Proof. destruct c; simpl; [intros H; inversion H; reflexivity|discriminate]. Qed.

Lemma attempt_ymd_range (s : str) (d : datetime) :
  Spec.attempt_ymd s = Some d -> in_calendar d.
Proof.
  unfold Spec.attempt_ymd. destruct (search re_ymd s) as [m|] eqn:E; [|discriminate].
  intros H. apply try_return_none, datetime_new_ok in H.
  destruct H as [-> [Hm Hd]].
  split; [|split; assumption]. cbn [year].
  exact (@search_year_group _ _ _ ymd_year_group E).
Qed.

Lemma named_month_range (r : regex) (s : str) (m : match_obj) (d : datetime) :
  (forall b s' st, match_here r b s' = Some st ->
     exists y : str, is_year_token y /\ lookup "y" (caps st) = Some y) ->
  search r s = Some m ->
  Spec.named_month m = Some d -> in_calendar d.
Proof.
  intros Hr E. unfold Spec.named_month.
  destruct (month_lookup (lower (group "mon" m))) as [monnum|]; [|discriminate].
  destruct (monnum =? 0)%Z; [discriminate|].
  intros H. apply try_return_none, datetime_new_ok in H.
  destruct H as [-> [Hm Hd]].
  split; [|split; assumption]. cbn [year].
  exact (@search_year_group _ _ _ Hr E).
Qed.

Lemma parse_ymd_range (s : str) (d : datetime) :
  parse_ymd s = Some d -> in_calendar d.
Proof.
  rewrite parse_ymd_attempts.
  destruct (Spec.attempt_ymd s) as [d1|] eqn:E1.
  - cbn [Spec.first_success]. intros H. inversion H; subst.
    exact (@attempt_ymd_range _ _ E1).
  - cbn [Spec.first_success].
    unfold Spec.attempt_dmy, Spec.attempt_mdy.
    destruct (search re_dmy s) as [m2|] eqn:E2.
    + destruct (Spec.named_month m2) as [d2|] eqn:N2.
      * intros H. inversion H; subst.
        exact (@named_month_range _ _ _ _ dmy_year_group E2 N2).
      * destruct (search re_mdy s) as [m3|] eqn:E3; [|discriminate].
        destruct (Spec.named_month m3) as [d3|] eqn:N3; [|discriminate].
        intros H. inversion H; subst.
        exact (@named_month_range _ _ _ _ mdy_year_group E3 N3).
    + destruct (search re_mdy s) as [m3|] eqn:E3; [|discriminate].
      destruct (Spec.named_month m3) as [d3|] eqn:N3; [|discriminate].
      intros H. inversion H; subst.
      exact (@named_month_range _ _ _ _ mdy_year_group E3 N3).
Qed.

(** X16: when the strict ISO parser rejects the string, a date returned by
    [_parse_date_string] comes from one of the three patterns, whose year
    group is "20" and two digits and whose date is built by [datetime]:
    its year lies in 2000..2099 and month and day exist in the calendar
    (no 30 February, no month 13). *)
Theorem parse_date_fallback_range (L : Libs) (s : str) (d : datetime)
    (iso_rejects : fromisoformat (strip s) = None)
    (parsed : _parse_date_string s = Some d) :
  in_calendar d /\ parse_ymd (strip s) = Some d.
Proof.
  unfold _parse_date_string in parsed.
  destruct (is_empty s); [discriminate|]. cbv zeta in parsed.
  rewrite iso_rejects in parsed.
  split; [exact (@parse_ymd_range _ _ parsed)|exact parsed].
Qed.

Lemma parse_date_fallback_range_witness :
  in_calendar (Datetime 2021 3 15) /\
  parse_ymd (strip (u "15 März 2021")) = Some (Datetime 2021 3 15).
Proof.
  apply (@parse_date_fallback_range sample_libs (u "15 März 2021")
           (Datetime 2021 3 15)); vm_compute; reflexivity.
Defined.

(** ** Companies and local files *)

Lemma first_key_in_none (ks : list str) (lname : str) :
  Forall (fun k => k <> []) ks ->
  first_key_in ks lname = [] <->
  Forall (fun k => contains (lower k) lname = false) ks.
Proof.
  induction 1 as [|k ks Hk _ IH]; cbn [first_key_in].
  - split; [constructor|reflexivity].
  - destruct (contains (lower k) lname) eqn:E.
    + split; [intros H; contradiction|]. intros H. inversion H; subst. congruence.
    + rewrite IH. split.
      * intros H. constructor; assumption.
      * intros H. now inversion H.
Qed.

Lemma first_key_in_some (ks : list str) (lname c : str) :
  first_key_in ks lname = c -> c <> [] ->
  exists earlier later : list str,
    ks = earlier ++ c :: later /\
    contains (lower c) lname = true /\
    Forall (fun k => contains (lower k) lname = false) earlier.
Proof.
  induction ks as [|k ks IH]; cbn [first_key_in].
  - intros <- H. contradiction.
  - destruct (contains (lower k) lname) eqn:E.
    + intros <- _. exists [], ks. split; [reflexivity|]. split; [exact E|constructor].
    + intros H Hc. destruct (IH H Hc) as [earlier [later [-> [Hin Hall]]]].
      exists (k :: earlier), later. split; [reflexivity|]. split; [exact Hin|].
      constructor; assumption.
Qed.

Lemma company_keys_lower :
  Forall (fun k => lower k = k /\ k <> []) (keys TECDAX_COMPANIES).
Proof. repeat constructor; discriminate. Qed.

(** X17: [_infer_company_from_filename] returns the first key of
    [TECDAX_COMPANIES], in the order the dict is written, that occurs in
    the lowercased file name, and the empty string exactly when no key
    occurs; it is blind to the case of the file name, and it keeps
    finding a company when text is put around the name. *)
Theorem infer_company_first_key (fname : str) :
  (_infer_company_from_filename fname = [] <->
     Forall (fun k => contains k (lower fname) = false) (keys TECDAX_COMPANIES)) /\
  (_infer_company_from_filename fname <> [] ->
     exists earlier later : list str,
       keys TECDAX_COMPANIES =
         earlier ++ _infer_company_from_filename fname :: later /\
       contains (_infer_company_from_filename fname) (lower fname) = true /\
       Forall (fun k => contains k (lower fname) = false) earlier) /\
  _infer_company_from_filename (lower fname) = _infer_company_from_filename fname /\
  (forall pre post : str,
     _infer_company_from_filename fname <> [] ->
     _infer_company_from_filename (pre ++ fname ++ post) <> []).
Proof.
  assert (Hlow : forall (ks : list str) (l : str),
            Forall (fun k => lower k = k /\ k <> []) ks ->
            Forall (fun k => contains (lower k) l = false) ks <->
            Forall (fun k => contains k l = false) ks).
  { intros ks l Hks. rewrite !Forall_forall. rewrite Forall_forall in Hks.
    split; intros H k Hin; specialize (H k Hin);
      destruct (Hks k Hin) as [Hk _]; rewrite Hk in *; exact H. }
  assert (Hne : Forall (fun k : str => k <> []) (keys TECDAX_COMPANIES)).
  { generalize company_keys_lower. apply Forall_impl. tauto. }
  assert (Hnone : forall f : str,
            _infer_company_from_filename f = [] <->
            Forall (fun k => contains k (lower f) = false) (keys TECDAX_COMPANIES)).
  { intros f. unfold _infer_company_from_filename. cbv zeta.
    rewrite (@first_key_in_none _ _ Hne). apply Hlow. exact company_keys_lower. }
  split; [apply Hnone|]. split; [|split].
  - intros Hc.
    change (_infer_company_from_filename fname)
      with (first_key_in (keys TECDAX_COMPANIES) (lower fname)) in *.
    remember (first_key_in (keys TECDAX_COMPANIES) (lower fname)) as c eqn:Ec.
    symmetry in Ec.
    destruct (@first_key_in_some _ _ _ Ec Hc) as [earlier [later [Hks [Hin Hall]]]].
    exists earlier, later. split; [exact Hks|].
    pose proof company_keys_lower as Hk. rewrite Hks in Hk.
    apply Forall_app in Hk. destruct Hk as [Hk1 Hk2].
    apply Forall_inv in Hk2. destruct Hk2 as [Hkc _].
    rewrite Hkc in Hin. split; [exact Hin|].
    apply (Hlow earlier (lower fname) Hk1). exact Hall.
  - unfold _infer_company_from_filename. cbv zeta. rewrite lower_idem. reflexivity.
  - intros pre post Hc Hnew. apply Hc. apply Hnone. apply Hnone in Hnew.
    revert Hnew. apply Forall_impl. intros k Hk.
    destruct (contains k (lower fname)) eqn:E; [|reflexivity].
    rewrite <- Hk. apply contains_spec in E. destruct E as [a [b E]].
    symmetry. apply contains_spec. exists (lower pre ++ a), (b ++ lower post).
    rewrite !lower_app, E, <- !app_assoc. reflexivity.
Qed.












(** ** Links of a press page *)

Lemma split_on_absent (sep : str) (piece s : str) :
  contains sep s = false -> split_on_from sep 0 piece s = [rev piece ++ s].
Proof.
  revert piece. induction s as [|c s IH]; intros piece H.
  - cbn. rewrite app_nil_r. reflexivity.
  - cbn [contains] in H. apply orb_false_iff in H. destruct H as [H1 H2].
    cbn [split_on_from]. rewrite H1, (IH _ H2). cbn [rev].
    rewrite <- app_assoc. reflexivity.
Qed.

(** The first piece of a split on one character is what stands before
    its first occurrence. *)
Lemma split_on_char_head (c : ascii) (piece s : str) :
  hd [] (split_on_from [c] 0 piece s) =
  rev piece ++ Spec.take_while (fun x => negb (Ascii.eqb x c)) s.
Proof.
  revert piece. induction s as [|x s IH]; intros piece.
  - cbn. rewrite app_nil_r. reflexivity.
  - cbn [split_on_from startswith Spec.take_while].
    destruct (ascii_dec c x) as [->|Hne].
    + rewrite Ascii.eqb_refl. cbn. rewrite app_nil_r. reflexivity.
    + assert (E : Ascii.eqb x c = false).
      { apply Ascii.eqb_neq. congruence. }
      rewrite E. cbn [negb]. rewrite IH. cbn [rev]. rewrite <- app_assoc.
      reflexivity.
Qed.

Lemma take_while_no (p : ascii -> bool) (s : str) :
  Forall (fun x => p x = true) (Spec.take_while p s).
Proof.
  induction s as [|x s IH]; cbn; [constructor|].
  destruct (p x) eqn:E; constructor; assumption.
Qed.

Lemma split_scheme (scheme rest piece : str) :
  Forall (fun x => x <> "/"%char) scheme ->
  contains (u "//") rest = false ->
  split_on_from (u "//") 0 piece (scheme ++ u "//" ++ rest) =
  [rev piece ++ scheme; rest].
Proof.
  intros Hs Hr. revert piece. induction Hs as [|x scheme Hx _ IH]; intros piece.
  - cbn [app]. change (u "//") with ["/"%char; "/"%char].
    cbn [split_on_from startswith app length Nat.sub].
    destruct (ascii_dec "/" "/") as [_|N]; [|congruence]. cbn [split_on_from].
    rewrite app_nil_r. f_equal.
    rewrite (@split_on_absent ["/"%char; "/"%char] [] _ Hr). reflexivity.
  - cbn [app split_on_from]. change (u "//") with ["/"%char; "/"%char] in *.
    cbn [startswith]. destruct (ascii_dec "/" x) as [E|_]; [congruence|].
    rewrite IH. cbn [rev]. rewrite <- app_assoc. reflexivity.
Qed.

Lemma take_while_host (host path : str) :
  Forall (fun x => x <> "/"%char) host ->
  path = [] \/ startswith (u "/") path = true ->
  Spec.take_while (fun x => negb (Ascii.eqb x "/")) (host ++ path) = host.
Proof.
  intros Hh Hp. induction Hh as [|x host Hx _ IH].
  - destruct Hp as [->|Hp]; [reflexivity|].
    apply startswith_spec in Hp. destruct Hp as [post ->]. reflexivity.
  - cbn [app Spec.take_while].
    assert (E : Ascii.eqb x "/" = false) by (apply Ascii.eqb_neq; exact Hx).
    rewrite E. cbn [negb]. rewrite IH. reflexivity.
Qed.

Lemma contains_head (a b s : str) :
  contains (a ++ b) s = true -> contains a s = true.
Proof.
  rewrite !contains_spec. intros [pre [post H]].
  exists pre, (b ++ post). rewrite H, <- !app_assoc. reflexivity.
Qed.

Lemma base_domain_head (base_url : str) :
  base_domain_of base_url =
  Spec.take_while (fun x => negb (Ascii.eqb x "/"))
                  (last (split_on (u "//") base_url) []).
Proof.
  unfold base_domain_of, split_on. change (u "/") with ["/"%char].
  rewrite split_on_char_head. reflexivity.
Qed.

(** X20: the base domain [extract_press_links] computes from a URL never
    holds a slash; for a URL written scheme, "//", host and a path that
    is empty or starts with a slash (no slash in scheme and host, no
    second "//") it is the host; a URL without any slash is its own base
    domain; the base domains of the twelve company pages are their host
    names. *)
Theorem base_domain_is_host :
  (forall base_url : str,
     Forall (fun x => x <> "/"%char) (base_domain_of base_url)) /\
  (forall scheme host path : str,
     Forall (fun x => x <> "/"%char) scheme ->
     Forall (fun x => x <> "/"%char) host ->
     contains (u "//") (host ++ path) = false ->
     path = [] \/ startswith (u "/") path = true ->
     base_domain_of (scheme ++ u "//" ++ host ++ path) = host) /\
  (forall base_url : str,
     contains (u "/") base_url = false -> base_domain_of base_url = base_url) /\
  map (fun item => base_domain_of (snd item)) TECDAX_COMPANIES =
    [ u "www.elmos.com"; u "investors.hensoldt.net"; u "www.ionos-group.com";
      u "www.nemetschek.com"; u "news.sap.com"; u "www.suss.com";
      u "www.zeiss.com"; u "www.evotec.com"; u "www.formycon.com";
      u "www.sma.de"; u "www.stratec.com"; u "www.verbio.de" ].
Proof.
  split; [|split; [|split]].
  - intros base_url. rewrite base_domain_head.
    generalize (last (split_on (u "//") base_url) []). intros s.
    generalize (take_while_no (fun x => negb (Ascii.eqb x "/")) s).
    apply Forall_impl. intros x Hx E. subst x. discriminate Hx.
  - intros scheme host path Hs Hh Hno Hp. rewrite base_domain_head.
    unfold split_on. rewrite (@split_scheme scheme (host ++ path) [] Hs Hno).
    cbn [last rev app]. apply take_while_host; assumption.
  - intros base_url H. rewrite base_domain_head.
    assert (H2 : contains (u "//") base_url = false).
    { destruct (contains (u "//") base_url) eqn:E; [|reflexivity].
      apply (@contains_head (u "/") (u "/")) in E. congruence. }
    unfold split_on. rewrite (@split_on_absent _ [] _ H2). cbn [last rev app].
    rewrite <- (app_nil_r base_url) at 1. apply take_while_host; [|left; reflexivity].
    apply Forall_forall. intros x Hin Hx. subst x.
    apply in_split in Hin. destruct Hin as [l1 [l2 Hin]].
    assert (Hc : contains (u "/") base_url = true).
    { apply contains_spec. exists l1, l2. exact Hin. }
    congruence.
  - vm_compute. reflexivity.
Qed.

Section LinkFacts.

Context {W : Web}.

Lemma set_add_in (x y : str) (links : list str) :
  In x (set_add y links) <-> x = y \/ In x links.
Proof.
  unfold set_add. destruct (existsb (Str.eqb y) links) eqn:E.
  - split; [intros H; now right|]. intros [->|H]; [|exact H].
    apply existsb_exists in E. destruct E as [z [Hin Hz]].
    apply str_eqb_eq in Hz. subst z. exact Hin.
  - rewrite in_app_iff. cbn [In]. split.
    + intros [H|[H|[]]]; [now right|left; congruence].
    + intros [->|H]; [right; left; reflexivity|now left].
Qed.

Lemma set_add_nodup (y : str) (links : list str) :
  NoDup links -> NoDup (set_add y links).
Proof.
  intros H. unfold set_add. destruct (existsb (Str.eqb y) links) eqn:E; [exact H|].
  apply NoDup_app; [exact H|repeat constructor; intros []|].
  intros x Hin [Hx|[]]. subst x.
  assert (Ht : existsb (Str.eqb y) links = true).
  { apply existsb_exists. exists y. split; [exact Hin|apply str_eqb_refl]. }
  congruence.
Qed.

Lemma resolve_raises (base_url raw : str) :
  resolve base_url raw = Raised <->
  startswith (u "/") (strip raw) = true /\ urljoin base_url (strip raw) = None.
Proof.
  unfold resolve. cbv zeta. destruct (startswith (u "/") (strip raw)).
  - destruct (urljoin base_url (strip raw)); cbn [returned].
    + split; [discriminate|intros [_ H]; discriminate].
    + split; [auto|reflexivity].
  - split; [discriminate|intros [H _]; discriminate].
Qed.

Lemma links_loop_raises (hrefs : list str) (base_url base_domain : str)
    (links : list str) :
  links_loop hrefs base_url base_domain links = Raised <->
  exists raw : str, In raw hrefs /\ resolve base_url raw = Raised.
Proof.
  revert links. induction hrefs as [|raw hrefs IH]; intros links.
  - cbn [links_loop]. split; [discriminate|intros [raw [[] _]]].
  - cbn [links_loop]. destruct (resolve base_url raw) as [href|] eqn:E; cbn [bind].
    + rewrite IH. split.
      * intros [raw' [Hin Hr]]. exists raw'. split; [right; exact Hin|exact Hr].
      * intros [raw' [[<-|Hin] Hr]]; [congruence|].
        exists raw'. split; assumption.
    + split; [|reflexivity]. intros _. exists raw. split; [left; reflexivity|exact E].
Qed.

Lemma links_loop_in (hrefs : list str) (base_url base_domain : str)
    (links out : list str) (link : str) :
  links_loop hrefs base_url base_domain links = Ok out ->
  (In link out <->
   In link links \/
   exists raw : str,
     In raw hrefs /\ resolve base_url raw = Ok link /\
     is_press_link base_domain link = true).
Proof.
  revert links. induction hrefs as [|raw hrefs IH]; intros links.
  - cbn [links_loop]. intros H. inversion H; subst out.
    split; [intros Hin; now left|]. intros [Hin|[raw [[] _]]]. exact Hin.
  - cbn [links_loop]. destruct (resolve base_url raw) as [href|] eqn:E;
      cbn [bind]; [|discriminate].
    intros H. rewrite (IH _ H). split.
    + intros [Hin|[raw' [Hin [Hl Hp]]]].
      * destruct (is_press_link base_domain href) eqn:Ep.
        -- apply set_add_in in Hin. destruct Hin as [->|Hin]; [|now left].
           right. exists raw. split; [left; reflexivity|]. split; assumption.
        -- now left.
      * right. exists raw'. split; [right; exact Hin|]. split; assumption.
    + intros [Hin|[raw' [[<-|Hin] [Hl Hp]]]].
      * left. destruct (is_press_link base_domain href);
          [apply set_add_in; now right|exact Hin].
      * left. assert (href = link) by congruence. subst href.
        rewrite Hp. apply set_add_in. now left.
      * right. exists raw'. split; [exact Hin|]. split; assumption.
Qed.

Lemma links_loop_nodup (hrefs : list str) (base_url base_domain : str)
    (links out : list str) :
  links_loop hrefs base_url base_domain links = Ok out ->
  NoDup links -> NoDup out.
Proof.
  revert links. induction hrefs as [|raw hrefs IH]; intros links.
  - cbn [links_loop]. intros H. inversion H; subst out. auto.
  - cbn [links_loop]. destruct (resolve base_url raw) as [href|]; cbn [bind];
      [|discriminate].
    intros H Hnd. apply (IH _ H).
    destruct (is_press_link base_domain href); [apply set_add_nodup|]; exact Hnd.
Qed.

Lemma is_press_link_iff (base_domain href : str) :
  is_press_link base_domain href = true <->
  base_domain <> [] /\ contains base_domain href = true /\
  (contains (u "press") (lower href) = true \/
   contains (u "news") (lower href) = true).
Proof.
  unfold is_press_link. rewrite !andb_true_iff, !orb_true_iff, negb_true_iff.
  split.
  - intros [[Hb Hc] Hk]. split; [intros ->; discriminate|]. split; [exact Hc|].
    destruct Hk as [[Hk|Hk]|Hk]; [now left|now right|left].
    apply (@contains_head (u "press") (u "e")). exact Hk.
  - intros [Hb [Hc Hk]]. split; [split; [|exact Hc]|].
    + destruct base_domain; [congruence|reflexivity].
    + destruct Hk as [Hk|Hk]; [left; now left|left; now right].
Qed.

End LinkFacts.

(** X21: [extract_press_links] raises exactly when [BeautifulSoup] raises
    on the page or [urljoin] raises on an [href] that, stripped, starts
    with a slash.  When it returns, its links are, without repetition,
    exactly the [href] values of the page, stripped and resolved against
    the base URL when they start with a slash, that contain the base
    domain and, in lower case, "press" or "news" (the test for "presse"
    adds nothing); when the base domain is empty no link is returned. *)
Theorem press_links_membership (W : Web) (domain_html base_url : str) :
  (extract_press_links domain_html base_url = Raised <->
   BeautifulSoup domain_html = None \/
   exists (page : soup) (raw : str),
     BeautifulSoup domain_html = Some page /\ In raw (anchors_href page) /\
     startswith (u "/") (strip raw) = true /\
     urljoin base_url (strip raw) = None) /\
  (forall (page : soup) (links : list str),
     BeautifulSoup domain_html = Some page ->
     extract_press_links domain_html base_url = Ok links ->
     (forall link : str,
        In link links <->
        exists raw : str,
          In raw (anchors_href page) /\
          resolve base_url raw = Ok link /\
          base_domain_of base_url <> [] /\
          contains (base_domain_of base_url) link = true /\
          (contains (u "press") (lower link) = true \/
           contains (u "news") (lower link) = true)) /\
     NoDup links /\
     (base_domain_of base_url = [] -> links = [])).
Proof.
  split.
  - unfold extract_press_links.
    destruct (BeautifulSoup domain_html) as [page|]; cbn [returned bind].
    + cbv zeta. rewrite links_loop_raises. split.
      * intros [raw [Hin Hr]]. right. exists page, raw.
        apply resolve_raises in Hr. destruct Hr as [H1 H2]. auto.
      * intros [H|[page' [raw [Hp [Hin [H1 H2]]]]]]; [discriminate|].
        inversion Hp; subst page'. exists raw. split; [exact Hin|].
        apply resolve_raises. auto.
    + split; [auto|reflexivity].
  - intros page links Hpage. unfold extract_press_links. rewrite Hpage.
    cbn [returned bind]. cbv zeta. intros Hloop.
    assert (Hin : forall link : str,
        In link links <->
        exists raw : str,
          In raw (anchors_href page) /\
          resolve base_url raw = Ok link /\
          base_domain_of base_url <> [] /\
          contains (base_domain_of base_url) link = true /\
          (contains (u "press") (lower link) = true \/
           contains (u "news") (lower link) = true)).
    { intros link. rewrite (@links_loop_in _ _ _ _ _ _ link Hloop). split.
      - intros [[]|[raw [Hr [Hl Hp]]]]. exists raw. split; [exact Hr|].
        split; [exact Hl|]. apply is_press_link_iff. exact Hp.
      - intros [raw [Hr [Hl Hp]]]. right. exists raw. split; [exact Hr|].
        split; [exact Hl|]. apply is_press_link_iff. exact Hp. }
    split; [exact Hin|]. split.
    + apply (@links_loop_nodup _ _ _ _ _ _ Hloop). constructor.
    + intros Hb. destruct links as [|l ls]; [reflexivity|].
      exfalso. assert (H : In l (l :: ls)) by (left; reflexivity).
      apply Hin in H. destruct H as [_ [_ [_ [Hne _]]]].
      exact (Hne Hb).
Qed.

(** ** Language tags *)

(** X22: when language detection raises, the tag is "unknown" and the
    text is handled as English: English tokenizer, English keyword list,
    and the analyzer's compound value as score; the same holds for an
    empty tag. *)
Theorem undetected_language_is_english (L : Libs) (text : str)
    (detection_raises : detect text = None) :
  detect_lang text = u "unknown" /\
  split_sentences text (detect_lang text) =
    match sent_tokenize text (u "english") with
    | Some sents => sents
    | None =>
        map strip (filter (fun s => negb (is_empty (strip s)))
                          (Re.split re_sentence_gap text))
    end /\
  extract_ai_sentences text =
    map (fun s => (u "unknown", strip s))
        (filter (fun s => (20 <=? length s)
                          && existsb (fun k => contains k (lower s)) AI_KEYWORDS_EN)
                (split_sentences text (u "unknown"))) /\
  (forall sentence : str,
     score_sentence (u "unknown") sentence = polarity_compound sentence /\
     score_sentence [] sentence = polarity_compound sentence /\
     sentence_mentions_ai sentence [] = sentence_mentions_ai sentence (u "unknown")).
Proof.
  assert (Hlang : detect_lang text = u "unknown").
  { unfold detect_lang. rewrite detection_raises. reflexivity. }
  split; [exact Hlang|]. split; [rewrite Hlang; reflexivity|]. split.
  - unfold extract_ai_sentences. cbv zeta. rewrite Hlang.
    rewrite ai_sentences_of_filter. reflexivity.
  - intros sentence. repeat split; reflexivity.
Qed.

Lemma undetected_language_is_english_witness :
  @extract_ai_sentences undetected_libs
    (u "Wir nutzen KI im Betrieb. Our AI roadmap is ambitious.") =
  [(u "unknown", u "Our AI roadmap is ambitious.")].
Proof.
  rewrite (proj1 (proj2 (proj2 (@undetected_language_is_english undetected_libs
             (u "Wir nutzen KI im Betrieb. Our AI roadmap is ambitious.") eq_refl)))).
  vm_compute. reflexivity.
Defined.

(** X23: when the tokenizer raises, the sentences come stripped from the
    regular-expression split, so every sentence [extract_ai_sentences]
    keeps has itself at least 20 characters, mentions a keyword of the
    detected language, carries that language tag and is unchanged by
    stripping. *)
Theorem fallback_sentences_long_enough (L : Libs) (text : str)
    (tokenizer_raises : forall language : str, sent_tokenize text language = None) :
  Forall (fun item =>
            fst item = detect_lang text /\
            20 <= length (snd item) /\
            sentence_mentions_ai (snd item) (fst item) = true /\
            strip (snd item) = snd item)
         (extract_ai_sentences text).
Proof.
  unfold extract_ai_sentences. cbv zeta. rewrite ai_sentences_of_filter.
  apply Forall_forall. intros [lang s] Hin. apply in_map_iff in Hin.
  destruct Hin as [raw [E Hin]]. inversion E; subst lang s. clear E.
  apply filter_In in Hin. destruct Hin as [Hin Hrel].
  assert (Hraw : strip raw = raw).
  { unfold split_sentences in Hin.
    destruct (is_de (detect_lang text)); rewrite tokenizer_raises in Hin;
      apply in_map_iff in Hin; destruct Hin as [piece [<- _]]; apply strip_idem. }
  cbn [fst snd]. rewrite Hraw.
  unfold Spec.ai_relevant in Hrel. apply andb_prop in Hrel.
  destruct Hrel as [Hlen Hkey]. apply Nat.leb_le in Hlen.
  rewrite sentence_mentions_ai_keywords.
  split; [reflexivity|]. split; [exact Hlen|]. split; [exact Hkey|exact Hraw].
Qed.

Lemma fallback_sentences_long_enough_witness :
  Forall (fun item =>
            fst item = @detect_lang sample_libs (u "  Die KI hilft uns sehr im Betrieb.   Ja. ") /\
            20 <= length (snd item) /\
            sentence_mentions_ai (snd item) (fst item) = true /\
            strip (snd item) = snd item)
         (@extract_ai_sentences sample_libs (u "  Die KI hilft uns sehr im Betrieb.   Ja. ")).
Proof.
  apply (@fallback_sentences_long_enough sample_libs). intros language. reflexivity.
Defined.

(** ** Dates written with digits *)

Lemma digit_not_sep (c : ascii) : is_digit c = true -> is_sep c = false.
Proof. destruct c as [[] [] [] [] [] [] [] []]; cbn; congruence. Qed.

Lemma sep_not_digit (c : ascii) : is_sep c = true -> is_digit c = false.
Proof. destruct c as [[] [] [] [] [] [] [] []]; cbn; congruence. Qed.

Lemma year_at_app (y rest : str) :
  is_year_token y -> Spec.year_at (y ++ rest) = Some y.
Proof.
  intros [c [d [-> [Hc Hd]]]]. cbn [app Spec.year_at].
  rewrite Hc, Hd. reflexivity.
Qed.

(** Facts about the characters at hand, and rewriting with them. *)
Ltac char_facts :=
  repeat match goal with
         | H : is_digit ?x = true |- _ =>
             lazymatch goal with
             | _ : is_sep x = false |- _ => fail
             | _ => pose proof (@digit_not_sep x H)
             end
         | H : is_sep ?x = true |- _ =>
             lazymatch goal with
             | _ : is_digit x = false |- _ => fail
             | _ => pose proof (@sep_not_digit x H)
             end
         end.

Ltac rewrite_facts :=
  repeat match goal with
         | H : _ = true |- _ => rewrite H
         | H : _ = false |- _ => rewrite H
         end.

Ltac step_matcher :=
  repeat (progress
            (cbn [run rep rest before caps app may_more option_map Nat.pred pos
                  length Nat.sub firstn andb];
             rewrite_facts)).

Lemma ymd_match (y ms ds : str) (sep1 sep2 : ascii) :
  is_year_token y -> is_day_or_month ms -> is_day_or_month ds ->
  is_sep sep1 = true -> is_sep sep2 = true ->
  exists m : match_obj,
    search re_ymd (y ++ sep1 :: ms ++ sep2 :: ds) = Some m /\
    group "y" m = y /\ group "m" m = ms /\ group "d" m = ds.
Proof.
  intros Hy Hms Hds H1 H2.
  assert (Hm : exists st : state,
            match_here re_ymd [] (y ++ sep1 :: ms ++ sep2 :: ds) = Some st /\
            lookup "y" (caps st) = Some y /\ lookup "m" (caps st) = Some ms /\
            lookup "d" (caps st) = Some ds).
  { unfold match_here, re_ymd. rewrite run_cat, run_year_group.
    cbn [rest before caps]. rewrite (@year_at_app _ _ Hy).
    destruct Hy as [c [d [-> [Hc Hd]]]].
    cbn [app skipn rev].
    destruct Hms as [[a [-> Ha]]|[a [b [-> [Ha Hb]]]]];
      destruct Hds as [[e [-> He]]|[e [f [-> [He Hf]]]]];
      char_facts; step_matcher;
      (eexists; split; [reflexivity|]); cbn; auto. }
  destruct Hm as [st [Hst [Gy [Gm Gd]]]].
  exists (Match 0 st). unfold search, group. cbn [m_end].
  rewrite Gy, Gm, Gd. split; [|auto].
  destruct (y ++ sep1 :: ms ++ sep2 :: ds); cbn [search_from]; rewrite Hst;
    reflexivity.
Qed.

Section SuffixFacts.

Variable A : Type.

Lemma rep_suffix (p : ascii -> bool) (k : state -> option A) (x : A)
    (s : str) (lo : nat) (hi : option nat) (b : str) (cs : list (string * str)) :
  rep p lo hi b s cs k = Some x ->
  exists (b' consumed s' : str),
    k (St b' s' cs) = Some x /\ s = consumed ++ s' /\
    lo <= length consumed /\ Forall (fun c => p c = true) consumed.
Proof.
  revert lo hi b. induction s as [|c s IH]; intros lo hi b; cbn [rep].
  - destruct lo; [|discriminate]. intros H.
    exists b, [], []. split; [exact H|]. split; [reflexivity|]. split; [apply le_n|constructor].
  - assert (Hstop : match lo with
                    | 0 => k (St b (c :: s) cs)
                    | S _ => None
                    end = Some x ->
                    exists (b' consumed s' : str),
                      k (St b' s' cs) = Some x /\ c :: s = consumed ++ s' /\
                      lo <= length consumed /\ Forall (fun c => p c = true) consumed).
    { destruct lo; [|discriminate]. intros H.
      exists b, [], (c :: s). split; [exact H|]. split; [reflexivity|].
      split; [apply le_n|constructor]. }
    destruct (p c && may_more hi) eqn:Hp; [|exact Hstop].
    destruct (rep p (Nat.pred lo) (option_map Nat.pred hi) (c :: b) s cs k) eqn:E;
      [|exact Hstop].
    intros H. inversion H; subst.
    destruct (IH _ _ _ E) as [b' [consumed [s' [Hk [Hs [Hlo Hall]]]]]].
    exists b', (c :: consumed), s'. split; [exact Hk|].
    split; [cbn; rewrite Hs; reflexivity|]. split; [cbn [length]; lia|].
    apply andb_prop in Hp. constructor; [apply Hp|exact Hall].
Qed.

(** A match only moves forward: what is left is a suffix of what was. *)
Lemma run_suffix (r : regex) :
  forall (st : state) (k : state -> option A) (x : A),
    run r st k = Some x ->
    exists (st' : state) (consumed : str),
      k st' = Some x /\ rest st = consumed ++ rest st'.
Proof.
  induction r as [|c|p|p lo hi|r1 IH1 r2 IH2|r1 IH1 r2 IH2|name r1 IH1| |p];
    intros st k x; cbn [run].
  - intros H. exists st, []. auto.
  - destruct (rest st) as [|y s'] eqn:E; [discriminate|].
    destruct (ascii_dec c y); [|discriminate].
    intros H. eexists _, [y]. split; [exact H|reflexivity].
  - destruct (rest st) as [|y s'] eqn:E; [discriminate|].
    destruct (p y); [|discriminate].
    intros H. eexists _, [y]. split; [exact H|reflexivity].
  - intros H. apply rep_suffix in H.
    destruct H as [b' [consumed [s' [H [Hs _]]]]].
    eexists _, consumed. split; [exact H|exact Hs].
  - intros H. apply IH1 in H. destruct H as [st1 [c1 [H Hs1]]].
    apply IH2 in H. destruct H as [st2 [c2 [H Hs2]]].
    exists st2, (c1 ++ c2). split; [exact H|].
    rewrite Hs1, Hs2, app_assoc. reflexivity.
  - destruct (run r1 st k) eqn:E.
    + intros H. inversion H; subst. exact (IH1 _ _ _ E).
    + apply IH2.
  - intros H. apply IH1 in H. destruct H as [st1 [c1 [H Hs1]]].
    eexists _, c1. split; [exact H|exact Hs1].
  - destruct (xorb (word_before st) (word_after st)); [|discriminate].
    intros H. exists st, []. auto.
  - destruct (before st) as [|c b]; [discriminate|].
    destruct (p c); [|discriminate].
    intros H. exists st, []. auto.
Qed.

(** A group of one or more characters of a class, after [r]: the match
    passes over a character of the class. *)
Lemma run_needs_class (r rest_r : regex) (name : string) (p : ascii -> bool)
    (st : state) (k : state -> option A) (x : A) :
  run (Cat r (Cat (Grp name (Rep p 1 None)) rest_r)) st k = Some x ->
  Exists (fun c => p c = true) (rest st).
Proof.
  rewrite run_cat. intros H. apply run_suffix in H.
  destruct H as [st1 [c1 [H Hs1]]]. rewrite run_cat in H. cbn [run] in H.
  apply rep_suffix in H. destruct H as [b' [consumed [s' [_ [Hs [Hlo Hall]]]]]].
  rewrite Hs1, Hs. apply Exists_app. right. apply Exists_app. left.
  destruct consumed as [|c consumed]; [cbn in Hlo; lia|].
  apply Exists_cons_hd. now inversion Hall.
Qed.

End SuffixFacts.

Lemma search_needs_class (r : regex) (p : ascii -> bool) (s : str) :
  (forall b s' st, match_here r b s' = Some st -> Exists (fun c => p c = true) s') ->
  Forall (fun c => p c = false) s ->
  search r s = None.
Proof.
  intros Hr Hs. destruct (search r s) as [m|] eqn:E; [|reflexivity].
  exfalso. unfold search in E. apply search_from_some in E.
  destruct E as [pre [post [Hsplit [H _]]]]. apply Hr in H.
  rewrite Hsplit in Hs. apply Forall_app in Hs. destruct Hs as [_ Hs].
  apply Exists_exists in H. destruct H as [c [Hin Hc]].
  rewrite Forall_forall in Hs. rewrite (Hs c Hin) in Hc. discriminate.
Qed.

Lemma dmy_needs_letter (b s : str) (st : state) :
  match_here re_dmy b s = Some st -> Exists (fun c => is_letter c = true) s.
Proof.
  intros H.
  apply (@run_needs_class state
           (Cat (Grp "d" (Rep is_digit 1 (Some 2))) (Rep is_space 1 None))
           (Cat (Rep is_space 1 None) (Grp "y" re_20dd)) "mon" is_letter
           (St b s []) (fun st => Some st) st).
  exact H.
Qed.

Lemma mdy_needs_letter (b s : str) (st : state) :
  match_here re_mdy b s = Some st -> Exists (fun c => is_letter c = true) s.
Proof.
  intros H.
  apply (@run_needs_class state Eps
           (Cat (Rep is_space 1 None)
              (Cat (Grp "d" (Rep is_digit 1 (Some 2)))
                 (Cat (Chr ",") (Cat (Rep is_space 0 None) (Grp "y" re_20dd)))))
           "mon" is_letter (St b s []) (fun st => Some st) st).
  exact H.
Qed.

Lemma no_letter_no_named_month (s : str) :
  Forall (fun c => is_letter c = false) s ->
  Spec.attempt_dmy s = None /\ Spec.attempt_mdy s = None.
Proof.
  intros H. unfold Spec.attempt_dmy, Spec.attempt_mdy.
  rewrite (@search_needs_class re_dmy is_letter s dmy_needs_letter H).
  rewrite (@search_needs_class re_mdy is_letter s mdy_needs_letter H).
  split; reflexivity.
Qed.

Lemma sep_not_letter (c : ascii) : is_sep c = true -> is_letter c = false.
Proof. destruct c as [[] [] [] [] [] [] [] []]; cbn; congruence. Qed.

Lemma digit_not_letter (c : ascii) : is_digit c = true -> is_letter c = false.
Proof. destruct c as [[] [] [] [] [] [] [] []]; cbn; congruence. Qed.

Lemma digit_not_space (c : ascii) : is_digit c = true -> is_space c = false.
Proof. destruct c as [[] [] [] [] [] [] [] []]; cbn; congruence. Qed.

Lemma digit_date_shape (y ms ds : str) (sep1 sep2 : ascii) :
  is_year_token y -> is_day_or_month ms -> is_day_or_month ds ->
  is_sep sep1 = true -> is_sep sep2 = true ->
  strip (y ++ sep1 :: ms ++ sep2 :: ds) = y ++ sep1 :: ms ++ sep2 :: ds /\
  Forall (fun c => is_letter c = false) (y ++ sep1 :: ms ++ sep2 :: ds) /\
  is_empty (y ++ sep1 :: ms ++ sep2 :: ds) = false.
Proof.
  intros [c [d [-> [Hc Hd]]]] Hms Hds H1 H2.
  pose proof (sep_not_letter _ H1) as L1. pose proof (sep_not_letter _ H2) as L2.
  pose proof (digit_not_letter _ Hc) as Lc. pose proof (digit_not_letter _ Hd) as Ld.
  destruct Hms as [[a [-> Ha]]|[a [b [-> [Ha Hb]]]]];
    destruct Hds as [[e [-> He]]|[e [f [-> [He Hf]]]]];
    (split; [|split; [|reflexivity]]);
    try (repeat constructor; try assumption; apply digit_not_letter; assumption).
  - pose proof (digit_not_space _ He) as Se.
    unfold strip, rstrip. cbn [app lstrip rev]. change (is_space "2") with false.
    cbn iota. cbn [app lstrip rev]. rewrite Se. reflexivity.
  - pose proof (digit_not_space _ Hf) as Sf.
    unfold strip, rstrip. cbn [app lstrip rev]. change (is_space "2") with false.
    cbn iota. cbn [app lstrip rev]. rewrite Sf. reflexivity.
  - pose proof (digit_not_space _ He) as Se.
    unfold strip, rstrip. cbn [app lstrip rev]. change (is_space "2") with false.
    cbn iota. cbn [app lstrip rev]. rewrite Se. reflexivity.
  - pose proof (digit_not_space _ Hf) as Sf.
    unfold strip, rstrip. cbn [app lstrip rev]. change (is_space "2") with false.
    cbn iota. cbn [app lstrip rev]. rewrite Sf. reflexivity.
Qed.

(** X24: a string that is a year token, a separator, one or two digits,
    a separator and one or two digits again, and that the strict ISO
    parser rejects, is read by the first pattern alone: the result is the
    date [datetime] builds from the three numbers, and [None], without
    an error, when they denote no calendar date (a 30 February, a month
    13 or 0). *)
Theorem digit_date_string (L : Libs) (y ms ds : str) (sep1 sep2 : ascii)
    (year_token : is_year_token y)
    (month_digits : is_day_or_month ms) (day_digits : is_day_or_month ds)
    (first_sep : is_sep sep1 = true) (second_sep : is_sep sep2 = true)
    (iso_rejects : fromisoformat (y ++ sep1 :: ms ++ sep2 :: ds) = None) :
  _parse_date_string (y ++ sep1 :: ms ++ sep2 :: ds) =
  match datetime_new (int_of y) (int_of ms) (int_of ds) with
  | Ok d => Some d
  | Raised => None
  end.
Proof.
  destruct (@digit_date_shape _ _ _ _ _ year_token month_digits day_digits first_sep second_sep)
    as [Hstrip [Hletters Hne]].
  destruct (@ymd_match _ _ _ _ _ year_token month_digits day_digits first_sep second_sep)
    as [m [Hm [Gy [Gm Gd]]]].
  rewrite parse_date_string_attempts, Hne, Hstrip, iso_rejects.
  cbn [Spec.first_success]. unfold Spec.attempt_ymd. rewrite Hm, Gy, Gm, Gd.
  destruct (datetime_new (int_of y) (int_of ms) (int_of ds)); [reflexivity|].
  cbn [try_return].
  destruct (@no_letter_no_named_month _ Hletters) as [-> ->]. reflexivity.
Qed.

Lemma digit_date_string_witness :
  @_parse_date_string sample_libs (u "2021/3/15") = Some (Datetime 2021 3 15) /\
  @_parse_date_string sample_libs (u "2021.02.30") = None.
Proof.
  split.
  - apply (@digit_date_string sample_libs (u "2021") (u "3") (u "15") "/" "/").
    + exists "2"%char, "1"%char. repeat split; reflexivity.
    + left. exists "3"%char. split; reflexivity.
    + right. exists "1"%char, "5"%char. repeat split; reflexivity.
    + reflexivity.
    + reflexivity.
    + reflexivity.
  - apply (@digit_date_string sample_libs (u "2021") (u "02") (u "30") "." ".").
    + exists "2"%char, "1"%char. repeat split; reflexivity.
    + right. exists "0"%char, "2"%char. repeat split; reflexivity.
    + right. exists "3"%char, "0"%char. repeat split; reflexivity.
    + reflexivity.
    + reflexivity.
    + reflexivity.
Defined.

(** ** Explicit date strings: what is left to the strict parser *)

Section LengthFacts.

Variable A : Type.


End LengthFacts.








(** ** Scraping a page *)

Lemma first_success_app (a b : list (option datetime)) :
  Spec.first_success (a ++ b) =
  match Spec.first_success a with
  | Some d => Some d
  | None => Spec.first_success b
  end.
Proof.
  induction a as [|[d|] a IH]; cbn [app Spec.first_success]; [reflexivity..|exact IH].
Qed.

Section ScrapeFacts.

Context {L : Libs} {P : Page} {W : Web}.

Lemma time_tags_first (time_tags : list (option str * str))
    (publish_date : option datetime) :
  time_tags_loop time_tags publish_date =
  match Spec.first_success
          (flat_map (fun tag => [attribute_date (fst tag); _parse_date_string (snd tag)])
                    time_tags) with
  | Some d => Some d
  | None => publish_date
  end.
Proof.
  induction time_tags as [|[attr txt] time_tags IH]; [reflexivity|].
  cbn [time_tags_loop flat_map fst snd app Spec.first_success].
  destruct (attribute_date attr); [reflexivity|].
  destruct (_parse_date_string txt); [reflexivity|]. exact IH.
Qed.

(** The item built from a parsed page when the article gave no text. *)
Lemma scrape_page_item (page : soup) (url title company_key : str)
    (publish_date : option datetime) :
  match time_tags_loop (soup_times page) publish_date with
  | Some d =>
      Ok [Release url
            (match soup_heading page with
             | Some heading => heading
             | None => title
             end)
            (match soup_paragraphs page with
             | [] => []
             | _ :: _ => join [newline; newline] (soup_paragraphs page)
             end)
            false (Some d) company_key]
  | None =>
      parsed <- _find_date_in_text (soup_text page) ;;
      Ok [Release url
            (match soup_heading page with
             | Some heading => heading
             | None => title
             end)
            (match soup_paragraphs page with
             | [] => []
             | _ :: _ => join [newline; newline] (soup_paragraphs page)
             end)
            false parsed company_key]
  end =
  Ok [Release url
        (match soup_heading page with
         | Some heading => heading
         | None => title
         end)
        (join [newline; newline] (soup_paragraphs page))
        false
        (Spec.first_success (page_dates page publish_date))
        company_key].
Proof.
  rewrite time_tags_first, find_date_refines. unfold page_dates.
  rewrite first_success_app. cbn [Spec.first_success bind].
  destruct (soup_paragraphs page) as [|p ps];
    (destruct (Spec.first_success _) as [d|]; [reflexivity|]);
    (destruct publish_date as [d|]; [reflexivity|]);
    destruct (Spec.find_date (soup_text page)); reflexivity.
Qed.

Lemma scrape_form (url company_key : str) :
  scrape_press_release_page url company_key =
  if is_empty (page_source url) then Ok []
  else
    let '(title, text, publish_date) := article url (page_source url) in
    if is_empty text
    then match BeautifulSoup (page_source url) with
         | Some page =>
             Ok [Release url
                   (match soup_heading page with
                    | Some heading => heading
                    | None => title
                    end)
                   (join [newline; newline] (soup_paragraphs page))
                   false
                   (Spec.first_success (page_dates page publish_date))
                   company_key]
         | None => Raised
         end
    else Ok [Release url title text false publish_date company_key].
Proof.
  unfold scrape_press_release_page. cbv zeta.
  change (if is_empty (fetch_with_requests url)
          then fetch_with_playwright url else fetch_with_requests url)
    with (page_source url).
  destruct (is_empty (page_source url)); [reflexivity|].
  destruct (article url (page_source url)) as [[title text] publish_date].
  destruct text as [|c text]; [|reflexivity]. cbn [is_empty].
  destruct (BeautifulSoup (page_source url)) as [page|]; cbn [returned bind];
    [|reflexivity].
  apply scrape_page_item.
Qed.

End ScrapeFacts.

(** X25: [scrape_press_release_page] raises exactly when a page was
    fetched, the article parser left no text and [BeautifulSoup] raises
    on the page.  It returns no item exactly when both fetchers return
    nothing, and otherwise one item with the URL and the company key it
    was given.  When the article parser gives a text, title, text and
    publish date are the article's and the page is not parsed.  When it
    gives none, the title is the first heading (else the article's
    title), the text the paragraphs joined by a blank line, and the
    publish date the first date found among, in this order: for each
    [time] tag in document order its [datetime] attribute read by the
    strict parser, then its text read by [_parse_date_string]; the
    article's date; a date found in the text of the whole page. *)
Theorem scrape_closed_form (L : Libs) (P : Page) (W : Web) (url company_key : str) :
  scrape_press_release_page url company_key =
  (if is_empty (page_source url) then Ok []
   else
     let '(title, text, publish_date) := article url (page_source url) in
     if is_empty text
     then match BeautifulSoup (page_source url) with
          | Some page =>
              Ok [Release url
                    (match soup_heading page with
                     | Some heading => heading
                     | None => title
                     end)
                    (join [newline; newline] (soup_paragraphs page))
                    false
                    (Spec.first_success (page_dates page publish_date))
                    company_key]
          | None => Raised
          end
     else Ok [Release url title text false publish_date company_key]) /\
  (scrape_press_release_page url company_key = Raised <->
   page_source url <> [] /\
   snd (fst (article url (page_source url))) = [] /\
   BeautifulSoup (page_source url) = None) /\
  (scrape_press_release_page url company_key = Ok [] <->
   fetch_with_requests url = [] /\ fetch_with_playwright url = []).
Proof.
  split; [apply scrape_form|]. rewrite scrape_form. split.
  - destruct (page_source url) as [|c r]; cbn [is_empty].
    + split; [discriminate|intros [H _]; congruence].
    + destruct (article url (c :: r)) as [[title text] publish_date].
      cbn [fst snd]. destruct text as [|c' text]; cbn [is_empty].
      * destruct (BeautifulSoup (c :: r)).
        -- split; [discriminate|intros [_ [_ H]]; discriminate].
        -- split; [intros _; repeat split; discriminate|reflexivity].
      * split; [discriminate|intros [_ [H _]]; discriminate].
  - unfold page_source.
    destruct (fetch_with_requests url) as [|c r] eqn:E1; cbn [is_empty].
    + destruct (fetch_with_playwright url) as [|c r] eqn:E2; cbn [is_empty].
      * split; [auto|reflexivity].
      * split; [|intros [_ H]; discriminate].
        destruct (article url (c :: r)) as [[title text] publish_date].
        destruct (is_empty text); [destruct (BeautifulSoup (c :: r))|];
          discriminate.
    + split; [|intros [H _]; discriminate].
      destruct (article url (c :: r)) as [[title text] publish_date].
      destruct (is_empty text); [destruct (BeautifulSoup (c :: r))|];
        discriminate.
Qed.

(** ** The whole collection *)

Section CollectFacts.

Context {L : Libs} {P : Page} {W : Web} {F : Files} {D : Dir}.

Lemma scrape_items (page name : str) (items : list release) :
  scrape_press_release_page page name = Ok items ->
  length items <= 1 /\ Forall (scraped_from name [page]) items.
Proof.
  rewrite scrape_form.
  destruct (is_empty (page_source page)).
  - intros H. inversion H; subst items. split; [apply Nat.le_0_l|constructor].
  - destruct (article page (page_source page)) as [[title text] publish_date].
    destruct (is_empty text).
    + destruct (BeautifulSoup (page_source page)); [|discriminate].
      intros H. inversion H; subst items. split; [apply le_n|].
      repeat constructor.
    + intros H. inversion H; subst items. split; [apply le_n|].
      repeat constructor.
Qed.

Lemma scraped_from_more (name : str) (pages pages' : list str) (item : release) :
  (forall x, In x pages -> In x pages') ->
  scraped_from name pages item -> scraped_from name pages' item.
Proof.
  intros Hsub [Hc [Hl Hu]]. split; [exact Hc|]. split; [exact Hl|apply Hsub, Hu].
Qed.

Lemma scrape_all_items (urls : list str) (name : str) (items : list release) :
  scrape_all urls name = Ok items ->
  length items <= length urls /\ Forall (scraped_from name urls) items.
Proof.
  revert items. induction urls as [|page urls IH]; intros items.
  - cbn [scrape_all]. intros H. inversion H; subst items.
    split; [apply le_n|constructor].
  - cbn [scrape_all].
    destruct (scrape_press_release_page page name) as [first|] eqn:E1;
      cbn [bind]; [|discriminate].
    destruct (scrape_all urls name) as [more|]; cbn [bind]; [|discriminate].
    intros H. inversion H; subst items.
    destruct (scrape_items _ _ E1) as [Hlen1 Hall1].
    destruct (IH more eq_refl) as [Hlen Hall]. split.
    + rewrite length_app. cbn [length]. lia.
    + apply Forall_app. split.
      * revert Hall1. apply Forall_impl. intros item.
        apply scraped_from_more. intros x [<-|[]]. left. reflexivity.
      * revert Hall. apply Forall_impl. intros item.
        apply scraped_from_more. intros x Hx. right. exact Hx.
Qed.

Lemma scrape_all_raises (urls : list str) (name : str) :
  scrape_all urls name = Raised <->
  exists page : str, In page urls /\ scrape_press_release_page page name = Raised.
Proof.
  induction urls as [|page urls IH].
  - cbn [scrape_all]. split; [discriminate|intros [page [[] _]]].
  - cbn [scrape_all].
    destruct (scrape_press_release_page page name) as [first|] eqn:E1; cbn [bind].
    + destruct (scrape_all urls name) as [more|]; cbn [bind].
      * split; [discriminate|]. intros [page' [[<-|Hin] Hr]]; [congruence|].
        assert (X : Ok more = Raised) by (apply IH; exists page'; split; assumption).
        discriminate X.
      * split; [|reflexivity]. intros _.
        destruct (proj1 IH eq_refl) as [page' [Hin Hr]].
        exists page'. split; [right; exact Hin|exact Hr].
    + split; [|reflexivity]. intros _. exists page. split; [left; reflexivity|exact E1].
Qed.

Lemma firstn_in {X : Type} (n : nat) (l : list X) (x : X) :
  In x (firstn n l) -> In x l.
Proof.
  revert l. induction n as [|n IH]; intros [|y l]; cbn; try tauto.
  intros [H|H]; [left; exact H|right; apply IH; exact H].
Qed.

Lemma company_releases_form (name page : str) :
  company_releases name page =
  if is_empty page then Ok []
  else if is_empty (page_source page) then Ok []
  else
    links <- extract_press_links (page_source page) page ;;
    scrape_all (firstn 30 (set_order (page :: links))) name.
Proof. reflexivity. Qed.

Lemma company_releases_items (name page : str) (items : list release) :
  (forall l x, In x (set_order l) -> In x l) ->
  company_releases name page = Ok items ->
  length items <= 30 /\
  Forall (fun item =>
            company item = name /\ local item = false /\
            (url item = page \/
             exists links : list str,
               extract_press_links (page_source page) page = Ok links /\
               In (url item) links))
         items.
Proof.
  intros Hsound. rewrite company_releases_form.
  destruct (is_empty page);
    [intros H; inversion H; subst items; split; [apply Nat.le_0_l|constructor]|].
  destruct (is_empty (page_source page));
    [intros H; inversion H; subst items; split; [apply Nat.le_0_l|constructor]|].
  destruct (extract_press_links (page_source page) page) as [links|];
    cbn [bind]; [|discriminate].
  intros H. destruct (scrape_all_items _ _ H) as [Hlen Hall]. split.
  - apply Nat.le_trans with (1 := Hlen). rewrite length_firstn. apply Nat.le_min_l.
  - revert Hall. apply Forall_impl. intros item [Hc [Hl Hu]].
    split; [exact Hc|]. split; [exact Hl|].
    apply firstn_in, Hsound in Hu. destruct Hu as [<-|Hu]; [left; reflexivity|].
    right. exists links. split; [reflexivity|exact Hu].
Qed.

Lemma company_releases_raises (name page : str) :
  company_releases name page = Raised <->
  page <> [] /\ page_source page <> [] /\
  (extract_press_links (page_source page) page = Raised \/
   exists links : list str,
     extract_press_links (page_source page) page = Ok links /\
     exists link : str,
       In link (firstn 30 (set_order (page :: links))) /\
       scrape_press_release_page link name = Raised).
Proof.
  rewrite company_releases_form.
  destruct page as [|c page]; cbn [is_empty];
    [split; [discriminate|intros [H _]; congruence]|].
  destruct (page_source (c :: page)) as [|c' src]; cbn [is_empty];
    [split; [discriminate|intros [_ [H _]]; congruence]|].
  destruct (extract_press_links (c' :: src) (c :: page)) as [links|]; cbn [bind].
  - rewrite scrape_all_raises. split.
    + intros H. split; [discriminate|]. split; [discriminate|].
      right. exists links. split; [reflexivity|exact H].
    + intros [_ [_ [H|[links' [E H]]]]]; [discriminate|].
      inversion E; subst links'. exact H.
  - split; [|reflexivity]. intros _. split; [discriminate|].
    split; [discriminate|]. left. reflexivity.
Qed.

Lemma web_releases_items (companies : list (str * str)) (items : list release) :
  (forall l x, In x (set_order l) -> In x l) ->
  web_releases companies = Ok items ->
  length items <= 30 * length companies /\
  Forall (fun item => local item = false /\ In (company item) (keys companies))
         items.
Proof.
  intros Hsound. revert items.
  induction companies as [|[name page] companies IH]; intros items.
  - cbn [web_releases]. intros H. inversion H; subst items.
    split; [apply Nat.le_0_l|constructor].
  - cbn [web_releases].
    destruct (company_releases name page) as [first|] eqn:E1; cbn [bind];
      [|discriminate].
    destruct (web_releases companies) as [more|]; cbn [bind]; [|discriminate].
    intros H. inversion H; subst items.
    destruct (company_releases_items _ _ Hsound E1) as [Hlen1 Hall1].
    destruct (IH more eq_refl) as [Hlen Hall]. split.
    + rewrite length_app. cbn [length]. lia.
    + apply Forall_app. split.
      * revert Hall1. apply Forall_impl. intros item [Hc [Hl _]].
        split; [exact Hl|]. left. symmetry. exact Hc.
      * revert Hall. apply Forall_impl. intros item [Hl Hc].
        split; [exact Hl|]. right. exact Hc.
Qed.

Lemma web_releases_raises (companies : list (str * str)) :
  web_releases companies = Raised <->
  exists name page : str,
    In (name, page) companies /\ company_releases name page = Raised.
Proof.
  induction companies as [|[name page] companies IH].
  - cbn [web_releases]. split; [discriminate|intros [n [p [[] _]]]].
  - cbn [web_releases].
    destruct (company_releases name page) as [first|] eqn:E1; cbn [bind].
    + destruct (web_releases companies) as [more|]; cbn [bind].
      * split; [discriminate|]. intros [n [p [[E|Hin] Hr]]].
        -- inversion E; subst n p. congruence.
        -- assert (X : Ok more = Raised) by (apply IH; exists n, p; split; assumption).
           discriminate X.
      * split; [|reflexivity]. intros _.
        destruct (proj1 IH eq_refl) as [n [p [Hin Hr]]].
        exists n, p. split; [right; exact Hin|exact Hr].
    + split; [|reflexivity]. intros _. exists name, page.
      split; [left; reflexivity|exact E1].
Qed.

Lemma local_release_item (fname : str) (item : release) :
  local_release fname = Some item -> local_item [fname] item.
Proof.
  unfold local_release. cbv zeta.
  destruct (endswith (u ".pdf") (lower fname)).
  - intros H. inversion H; subst. repeat split. left. reflexivity.
  - destruct (read_text (path_join LOCAL_FALLBACK_DIR fname)); [|discriminate].
    rewrite find_date_refines. intros H. inversion H; subst.
    repeat split. left. reflexivity.
Qed.

Lemma local_releases_items (fnames : list str) :
  length (local_releases fnames) <= length fnames /\
  Forall (local_item fnames) (local_releases fnames).
Proof.
  induction fnames as [|fname fnames [Hlen Hall]].
  - split; [apply le_n|constructor].
  - cbn [local_releases].
    assert (Hmore : Forall (local_item (fname :: fnames)) (local_releases fnames)).
    { revert Hall. apply Forall_impl. intros item [H1 [H2 H3]].
      split; [exact H1|]. split; [right; exact H2|exact H3]. }
    destruct (local_release fname) as [item|] eqn:E.
    + split; [cbn [length]; lia|]. constructor; [|exact Hmore].
      destruct (local_release_item _ E) as [H1 [H2 H3]].
      split; [exact H1|]. split; [|exact H3].
      destruct H2 as [<-|[]]. left. reflexivity.
    + split; [cbn [length]; lia|exact Hmore].
Qed.

End CollectFacts.

(** X26: whatever order Python gives the candidate set, as long as it
    lists only its elements: when the turn of a company returns, it has
    scraped at most 30 pages, each the company page or one of its press
    links, and tagged every item with the company and as not local; the
    turn raises exactly when the company page was fetched and either
    [extract_press_links] raises on it or [scrape_press_release_page]
    raises on one of the first 30 candidates.  [collect_press_releases]
    raises exactly when the turn of a company raises or the local
    directory exists and listing it raises, and the pipeline raises only
    then.  When the collection returns, its web part holds at most 360
    items and its local part at most one item per file name, each marked
    local with the file name as title. *)
Theorem collection_is_bounded (L : Libs) (P : Page) (W : Web) (F : Files) (D : Dir)
    (order_sound : forall (l : list str) (x : str), In x (set_order l) -> In x l) :
  (forall (name page : str) (items : list release),
     company_releases name page = Ok items ->
     length items <= 30 /\
     Forall (fun item =>
               company item = name /\ local item = false /\
               (url item = page \/
                exists links : list str,
                  extract_press_links (page_source page) page = Ok links /\
                  In (url item) links))
            items) /\
  (forall name page : str,
     company_releases name page = Raised <->
     page <> [] /\ page_source page <> [] /\
     (extract_press_links (page_source page) page = Raised \/
      exists links : list str,
        extract_press_links (page_source page) page = Ok links /\
        exists link : str,
          In link (firstn 30 (set_order (page :: links))) /\
          scrape_press_release_page link name = Raised)) /\
  (collect_press_releases = Raised <->
     (exists name page : str,
        In (name, page) TECDAX_COMPANIES /\
        company_releases name page = Raised) \/
     (isdir LOCAL_FALLBACK_DIR = true /\ listdir LOCAL_FALLBACK_DIR = Raised)) /\
  (forall releases : list release,
     collect_press_releases = Ok releases ->
     exists web locals : list release,
       releases = web ++ locals /\
       length web <= 360 /\
       Forall (fun item =>
                 local item = false /\
                 In (company item) (keys TECDAX_COMPANIES)) web /\
       (isdir LOCAL_FALLBACK_DIR = false -> locals = []) /\
       (forall fnames : list str,
          listdir LOCAL_FALLBACK_DIR = Ok fnames ->
          length locals <= length fnames /\ Forall (local_item fnames) locals)) /\
  (run_pipeline_collected = Raised <-> collect_press_releases = Raised).
Proof.
  split; [intros name page items; apply company_releases_items; exact order_sound|].
  split; [intros name page; apply company_releases_raises|].
  split; [|split].
  - unfold collect_press_releases. rewrite <- web_releases_raises.
    destruct (web_releases TECDAX_COMPANIES) as [web|]; cbn [bind].
    + destruct (isdir LOCAL_FALLBACK_DIR).
      * destruct (listdir LOCAL_FALLBACK_DIR); cbn [bind].
        -- split; [discriminate|intros [H|[_ H]]; discriminate].
        -- split; [auto|reflexivity].
      * split; [discriminate|intros [H|[H _]]; discriminate].
    + split; [auto|reflexivity].
  - intros releases. unfold collect_press_releases.
    destruct (web_releases TECDAX_COMPANIES) as [web|] eqn:Hweb; cbn [bind];
      [|discriminate].
    destruct (web_releases_items _ order_sound Hweb) as [Hlen Hall].
    change (30 * length TECDAX_COMPANIES) with 360 in Hlen.
    destruct (isdir LOCAL_FALLBACK_DIR).
    + destruct (listdir LOCAL_FALLBACK_DIR) as [fnames|]; cbn [bind]; [|discriminate].
      intros H. inversion H; subst. exists web, (local_releases fnames).
      split; [reflexivity|]. split; [exact Hlen|]. split; [exact Hall|].
      split; [discriminate|].
      intros fnames' E. inversion E; subst. apply local_releases_items.
    + intros H. inversion H; subst. exists releases, [].
      split; [rewrite app_nil_r; reflexivity|]. split; [exact Hlen|].
      split; [exact Hall|]. split; [reflexivity|].
      intros fnames _. split; [apply Nat.le_0_l|constructor].
  - unfold run_pipeline_collected.
    destruct collect_press_releases as [releases|]; cbn [bind].
    + rewrite run_pipeline_closed. split; discriminate.
    + split; reflexivity.
Qed.

Lemma collection_is_bounded_witness :
  exists releases web locals : list release,
    @collect_press_releases sample_libs sample_page sample_web sample_files sample_dir
    = Ok releases /\
    length releases = 25 /\
    releases = web ++ locals /\
    length web <= 360 /\
    Forall (fun item =>
              local item = false /\
              In (company item) (keys TECDAX_COMPANIES)) web.
Proof.
  assert (Hsound : forall (l : list str) (x : str),
            In x (@set_order sample_dir l) -> In x l).
  { intros l x H. cbn in H. apply in_rev in H. apply nodup_In in H. exact H. }
  pose proof (@collection_is_bounded sample_libs sample_page sample_web
                sample_files sample_dir Hsound) as [_ [_ [_ [Hok _]]]].
  destruct (@collect_press_releases sample_libs sample_page sample_web
              sample_files sample_dir) as [releases|] eqn:E.
  - destruct (Hok releases eq_refl) as [web [locals [Hsplit [Hlen [Hall _]]]]].
    exists releases, web, locals. split; [reflexivity|].
    assert (Hr : Ok releases = @collect_press_releases sample_libs sample_page
                                 sample_web sample_files sample_dir)
      by (symmetry; exact E).
    vm_compute in Hr. injection Hr as Hrel.
    split; [rewrite Hrel; reflexivity|].
    split; [exact Hsplit|]. split; [exact Hlen|exact Hall].
  - exfalso. vm_compute in E. discriminate E.
Defined.

(** ** A month name before the year *)

(** ** Month names before a year *)

Lemma year_at_head (c : ascii) (s : str) :
  c <> "2"%char -> Spec.year_at (c :: s) = None.
Proof.
  intros Hc. destruct s as [|b [|x [|d s]]]; try reflexivity.
  unfold Spec.year_at.
  destruct (Str.eqb [c; b] (u "20")) eqn:E; [|reflexivity].
  apply str_eqb_eq in E. inversion E. congruence.
Qed.

Lemma split_inside {X : Type} (pre post pre1 post1 : list X) :
  pre ++ post = pre1 ++ post1 -> length pre1 < length pre ->
  exists (c : X) (more : list X), post1 = c :: more /\ In c pre.
Proof.
  revert pre. induction pre1 as [|a pre1 IH]; intros pre E Hlen.
  - destruct pre as [|c pre]; [cbn in Hlen; lia|].
    cbn in E. exists c, (pre ++ post). split; [now rewrite E|left; reflexivity].
  - destruct pre as [|c pre]; [cbn in Hlen; lia|].
    cbn in E, Hlen. inversion E; subst.
    destruct (IH pre H1 ltac:(lia)) as [x [more [Hp Hin]]].
    exists x, more. split; [exact Hp|right; exact Hin].
Qed.

Lemma lower_letter (c : ascii) :
  is_letter (lower_char c) = true -> is_letter c = true.
Proof. destruct c as [[] [] [] [] [] [] [] []]; cbn; congruence. Qed.

Lemma space_not_letter (c : ascii) : is_space c = true -> is_letter c = false.
Proof. destruct c as [[] [] [] [] [] [] [] []]; cbn; congruence. Qed.

Lemma month_names_known :
  Forall (fun item =>
            month_lookup (fst item) = Some (snd item) /\
            forallb is_letter (fst item) = true /\ fst item <> [])
         (MONTHS_EN ++ MONTHS_DE).
Proof. repeat constructor; discriminate. Qed.

Lemma forallb_lower_letter (w : str) :
  forallb is_letter (lower w) = true -> forallb is_letter w = true.
Proof.
  induction w as [|c w IH]; [reflexivity|]. cbn [lower map forallb].
  intros H. apply andb_prop in H. destruct H as [Hc Hw].
  rewrite (lower_letter _ Hc). apply IH. exact Hw.
Qed.

(** X27: a month name of either table, in any mix of upper and lower
    case, followed by whitespace and a year token at the start of a text
    is found by [_find_date_in_text]: it returns the first day of that
    month of that year, whatever follows the year. *)
Theorem month_name_before_year (w ws y post name : str) (n : Z)
    (in_table : In (name, n) (MONTHS_EN ++ MONTHS_DE))
    (spelled : lower w = name)
    (spaces : ws <> [] /\ forallb is_space ws = true)
    (year_token : is_year_token y) :
  _find_date_in_text (w ++ ws ++ y ++ post) = Ok (Some (Datetime (int_of y) n 1)).
Proof.
  pose proof month_names_known as Hknown. rewrite Forall_forall in Hknown.
  destruct (Hknown _ in_table) as [Hlook [Hletters Hne]]. cbn [fst snd] in *.
  rewrite <- spelled in Hlook, Hletters, Hne.
  apply forallb_lower_letter in Hletters.
  destruct spaces as [Hws Hspaces].
  destruct ws as [|sp ws]; [congruence|]. clear Hws.
  destruct w as [|l w]; [exfalso; apply Hne; reflexivity|].
  pose proof Hspaces as Hsp. cbn [forallb] in Hsp. apply andb_prop in Hsp.
  destruct Hsp as [Hsp _].
  destruct year_token as [c [d [Hy [Hc Hd]]]].
  assert (Hyear : Spec.first_at (fun _ s => Spec.year_at s) []
                    ((l :: w) ++ (sp :: ws) ++ y ++ post) = Some y).
  { rewrite app_assoc.
    apply (@first_at_first _ (fun _ s => Spec.year_at s) ((l :: w) ++ sp :: ws)
             (y ++ post) [] y).
    - apply startswith_year_at; [exists c, d; auto|].
      apply startswith_spec. exists post. reflexivity.
    - intros pre1 post1 E Hlen.
      destruct (split_inside _ _ _ _ E Hlen) as [x [more [-> Hin]]].
      apply year_at_head. intros ->.
      apply in_app_or in Hin. destruct Hin as [Hin|Hin].
      + rewrite forallb_forall in Hletters. specialize (Hletters _ Hin).
        discriminate Hletters.
      + rewrite forallb_forall in Hspaces. specialize (Hspaces _ Hin).
        discriminate Hspaces. }
  assert (Hword : Spec.word_year_at y ((l :: w) ++ (sp :: ws) ++ y ++ post)
                  = Some (l :: w)).
  { unfold Spec.word_year_at.
    destruct (@take_while_app is_letter (l :: w) ((sp :: ws) ++ y ++ post) Hletters)
      as [Ht Hdrop].
    { cbn [app]. apply space_not_letter. exact Hsp. }
    rewrite Ht, Hdrop.
    destruct (@take_while_app is_space (sp :: ws) (y ++ post) Hspaces) as [Ht2 Hd2].
    { rewrite Hy. reflexivity. }
    rewrite Ht2, Hd2.
    assert (Hs : startswith y (y ++ post) = true).
    { apply startswith_spec. exists post. reflexivity. }
    rewrite Hs. reflexivity. }
  rewrite find_date_refines. unfold Spec.find_date. rewrite Hyear.
  assert (Hfirst : Spec.first_at (fun _ s => Spec.word_year_at y s) []
                     ((l :: w) ++ (sp :: ws) ++ y ++ post) = Some (l :: w)).
  { cbn [app] in *. cbn [Spec.first_at]. rewrite Hword. reflexivity. }
  rewrite Hfirst. unfold Spec.month_from. rewrite Hlook. reflexivity.
Qed.

Lemma month_name_before_year_witness :
  _find_date_in_text (u "MÄRZ" ++ u "  " ++ u "2021" ++ u ", Berlin") =
  Ok (Some (Datetime (int_of (u "2021")) 3 1)).
Proof.
  apply (@month_name_before_year (u "MÄRZ") (u "  ") (u "2021") (u ", Berlin")
           (u "märz") 3).
  - apply in_or_app. right. right. right. left. reflexivity.
  - reflexivity.
  - split; [discriminate|reflexivity].
  - exists "2"%char, "1"%char. repeat split; reflexivity.
Defined.

(** ** Dates written with a month name *)

Lemma rep_blocked (A : Type) (p : ascii -> bool) (lo : nat) (hi : option nat)
    (b : str) (c : ascii) (s : str) (cs : list (string * str))
    (k : state -> option A) :
  p c = false -> rep p (S lo) hi b (c :: s) cs k = None.
Proof. intros H. cbn [rep]. rewrite H. reflexivity. Qed.

Lemma space_not_two (c : ascii) : is_space c = true -> c <> "2"%char.
Proof. intros H ->. discriminate H. Qed.

Lemma firstn_taken (p : ascii -> bool) (s b : str) :
  firstn (length (rev (Spec.take_while p s) ++ b) - length b) s =
  Spec.take_while p s.
Proof.
  rewrite length_app, length_rev.
  replace (length (Spec.take_while p s) + length b - length b)
    with (length (Spec.take_while p s)) by lia.
  apply take_while_firstn.
Qed.

Lemma day_or_month_digits (ds : str) :
  is_day_or_month ds ->
  forallb is_digit ds = true /\
  (1 <=? length ds) && Spec.within (Some 2) (length ds) = true.
Proof.
  intros [[a [-> Ha]]|[a [b [-> [Ha Hb]]]]]; cbn [forallb]; rewrite ?Ha, ?Hb;
    split; reflexivity.
Qed.

Lemma dmy_match_here (ds ws1 w ws2 y post : str) :
  is_day_or_month ds ->
  ws1 <> [] -> forallb is_space ws1 = true ->
  w <> [] -> forallb is_letter w = true ->
  ws2 <> [] -> forallb is_space ws2 = true ->
  is_year_token y ->
  exists st : state,
    match_here re_dmy [] (ds ++ ws1 ++ w ++ ws2 ++ y ++ post) = Some st /\
    lookup "d" (caps st) = Some ds /\ lookup "mon" (caps st) = Some w /\
    lookup "y" (caps st) = Some y.
Proof.
  intros Hds N1 S1 Nw Lw N2 S2 Hy.
  destruct ws1 as [|s1 ws1]; [congruence|]. destruct w as [|l w]; [congruence|].
  destruct ws2 as [|s2 ws2]; [congruence|]. clear N1 Nw N2.
  assert (Hs1 : is_space s1 = true) by (cbn in S1; apply andb_prop in S1; apply S1).
  assert (Hl : is_letter l = true) by (cbn in Lw; apply andb_prop in Lw; apply Lw).
  assert (Hs2 : is_space s2 = true) by (cbn in S2; apply andb_prop in S2; apply S2).
  destruct (@day_or_month_digits _ Hds) as [Dds Lds].
  destruct (@take_while_app is_digit ds ((s1 :: ws1) ++ (l :: w) ++ (s2 :: ws2) ++ y ++ post) Dds)
    as [T1 D1]; [cbn [app]; apply space_not_digit; exact Hs1|].
  destruct (@take_while_app is_space (s1 :: ws1) ((l :: w) ++ (s2 :: ws2) ++ y ++ post) S1)
    as [T2 D2]; [cbn [app]; apply letter_not_space; exact Hl|].
  destruct (@take_while_app is_letter (l :: w) ((s2 :: ws2) ++ y ++ post) Lw)
    as [T3 D3]; [cbn [app]; apply space_not_letter; exact Hs2|].
  assert (Hy2 : match y ++ post with c :: _ => is_space c = false | [] => True end).
  { destruct Hy as [c [d [-> _]]]. reflexivity. }
  destruct (@take_while_app is_space (s2 :: ws2) (y ++ post) S2 Hy2) as [T4 D4].
  unfold match_here, re_dmy. cbn [run before rest caps].
  rewrite rep_exclusive.
  2:{ intros b' c s' cs' Hc. cbn [before rest caps].
      apply rep_blocked. apply digit_not_space. exact Hc. }
  rewrite T1, D1, Lds. cbn [before rest caps].
  rewrite rep_exclusive.
  2:{ intros b' c s' cs' Hc. cbn [before rest caps].
      apply rep_blocked. apply space_not_letter. exact Hc. }
  rewrite T2, D2. cbn [length Nat.leb Spec.within andb before rest caps].
  rewrite rep_exclusive.
  2:{ intros b' c s' cs' Hc. cbn [before rest caps].
      apply rep_blocked. apply letter_not_space. exact Hc. }
  rewrite T3, D3. cbn [length Nat.leb Spec.within andb before rest caps].
  rewrite rep_exclusive.
  2:{ intros b' c s' cs' Hc. rewrite match_here_20dd. cbn [rest].
      rewrite (@year_at_head c s' (@space_not_two c Hc)). reflexivity. }
  rewrite T4, D4. cbn [length Nat.leb Spec.within andb].
  rewrite match_here_20dd. cbn [rest before caps].
  rewrite (@year_at_app y post Hy).
  eexists. split; [reflexivity|]. cbn [caps lookup String.eqb Ascii.eqb Bool.eqb].
  unfold pos. cbn [before].
  split; [|split].
  - f_equal. rewrite app_nil_r, length_rev. cbn [length]. rewrite Nat.sub_0_r.
    rewrite <- T1 at 1. rewrite take_while_firstn. exact T1.
  - f_equal. rewrite <- T3 at 1. rewrite firstn_taken. exact T3.
  - f_equal. rewrite length_app, length_rev.
    replace (length y + length (rev (s2 :: ws2) ++ rev (l :: w) ++ rev (s1 :: ws1) ++ rev ds ++ [])
             - length (rev (s2 :: ws2) ++ rev (l :: w) ++ rev (s1 :: ws1) ++ rev ds ++ []))
      with (length y + 0) by lia.
    rewrite firstn_app_2, firstn_O, app_nil_r. reflexivity.
Qed.

Section NeedsFacts.

Variable A : Type.

(** When the pattern [x] can only start on a character of the class [q],
    a match of [r x r'] passes over such a character. *)
Lemma run_needs (r x r' : regex) (q : ascii -> bool) :
  (forall (st : state) (k : state -> option A) (v : A),
     run x st k = Some v ->
     exists (c : ascii) (s' : str), rest st = c :: s' /\ q c = true) ->
  forall (st : state) (k : state -> option A) (v : A),
    run (Cat r (Cat x r')) st k = Some v ->
    Exists (fun c => q c = true) (rest st).
Proof.
  intros Hx st k v H. rewrite run_cat in H. apply run_suffix in H.
  destruct H as [st1 [c1 [H Hs1]]]. rewrite run_cat in H.
  apply Hx in H. destruct H as [c [s' [Hs Hq]]].
  rewrite Hs1, Hs. apply Exists_app. right. apply Exists_cons_hd. exact Hq.
Qed.

Lemma cls_needs (p : ascii -> bool) (st : state) (k : state -> option A) (v : A) :
  run (Cls p) st k = Some v ->
  exists (c : ascii) (s' : str), rest st = c :: s' /\ p c = true.
Proof.
  cbn [run]. destruct (rest st) as [|c s']; [discriminate|].
  destruct (p c) eqn:E; [|discriminate]. intros _. exists c, s'. auto.
Qed.

Lemma chr_needs (x : ascii) (st : state) (k : state -> option A) (v : A) :
  run (Chr x) st k = Some v ->
  exists (c : ascii) (s' : str), rest st = c :: s' /\ Ascii.eqb c x = true.
Proof.
  cbn [run]. destruct (rest st) as [|c s']; [discriminate|].
  destruct (ascii_dec x c) as [->|]; [|discriminate].
  intros _. exists c, s'. split; [reflexivity|apply Ascii.eqb_refl].
Qed.

End NeedsFacts.

Lemma ymd_needs_sep (b s : str) (st : state) :
  match_here re_ymd b s = Some st -> Exists (fun c => is_sep c = true) s.
Proof.
  intros H.
  apply (@run_needs state (Grp "y" re_20dd) (Cls is_sep)
           (Cat (Grp "m" (Rep is_digit 1 (Some 2)))
              (Cat (Cls is_sep) (Grp "d" (Rep is_digit 1 (Some 2)))))
           is_sep (@cls_needs state is_sep) (St b s []) (fun st => Some st) st).
  exact H.
Qed.

Lemma mdy_needs_comma (b s : str) (st : state) :
  match_here re_mdy b s = Some st ->
  Exists (fun c => Ascii.eqb c "," = true) s.
Proof.
  intros H.
  apply (@run_needs state
           (Cat (Grp "mon" (Rep is_letter 1 None))
              (Cat (Rep is_space 1 None) (Grp "d" (Rep is_digit 1 (Some 2)))))
           (Chr ",") (Cat (Rep is_space 0 None) (Grp "y" re_20dd))
           (fun c => Ascii.eqb c ",") (@chr_needs state ",")
           (St b s []) (fun st => Some st) st).
  exact H.
Qed.

Lemma strip_fixed (s : str) :
  lstrip s = s -> lstrip (rev s) = rev s -> strip s = s.
Proof.
  intros H1 H2. unfold strip, rstrip. rewrite H1, H2. apply rev_involutive.
Qed.

Lemma plain_char (c : ascii) :
  is_digit c = true \/ is_space c = true \/ is_letter c = true ->
  is_sep c = false /\ Ascii.eqb c "," = false.
Proof.
  destruct c as [[] [] [] [] [] [] [] []]; cbn; intuition congruence.
Qed.

(** X28: a string that is one or two digits, whitespace, a month name of
    either table in any mix of case, whitespace and a year token, and that
    the strict ISO parser rejects, is read by the second pattern: the
    result is the date [datetime] builds from year, month number and day,
    and [None], without an error, when the month has no such day. *)
Theorem named_date_string (L : Libs) (ds ws1 w ws2 y name : str) (n : Z)
    (day_digits : is_day_or_month ds)
    (first_gap : ws1 <> [] /\ forallb is_space ws1 = true)
    (in_table : In (name, n) (MONTHS_EN ++ MONTHS_DE))
    (spelled : lower w = name)
    (second_gap : ws2 <> [] /\ forallb is_space ws2 = true)
    (year_token : is_year_token y)
    (iso_rejects : fromisoformat (ds ++ ws1 ++ w ++ ws2 ++ y) = None) :
  _parse_date_string (ds ++ ws1 ++ w ++ ws2 ++ y) =
  match datetime_new (int_of y) n (int_of ds) with
  | Ok d => Some d
  | Raised => None
  end.
Proof.
  pose proof month_names_known as Hknown. rewrite Forall_forall in Hknown.
  destruct (Hknown _ in_table) as [Hlook [Hletters Hne]]. cbn [fst snd] in *.
  rewrite <- spelled in Hlook, Hletters, Hne.
  apply forallb_lower_letter in Hletters.
  assert (Hw : w <> []) by (intros ->; apply Hne; reflexivity).
  destruct first_gap as [N1 S1]. destruct second_gap as [N2 S2].
  destruct (@day_or_month_digits _ day_digits) as [Dds _].
  set (s := ds ++ ws1 ++ w ++ ws2 ++ y) in *.
  assert (Hplain : Forall (fun c => is_digit c = true \/ is_space c = true
                                    \/ is_letter c = true) s).
  { subst s. rewrite forallb_forall in Dds, S1, Hletters, S2.
    destruct year_token as [c [d [-> [Hc Hd]]]].
    apply Forall_app. split; [apply Forall_forall; intros x Hx; left; apply Dds, Hx|].
    apply Forall_app. split;
      [apply Forall_forall; intros x Hx; right; left; apply S1, Hx|].
    apply Forall_app. split;
      [apply Forall_forall; intros x Hx; right; right; apply Hletters, Hx|].
    apply Forall_app. split;
      [apply Forall_forall; intros x Hx; right; left; apply S2, Hx|].
    repeat (apply Forall_cons; [left; first [assumption | reflexivity]|]).
    apply Forall_nil. }
  assert (Hstrip : strip s = s).
  { apply strip_fixed.
    - subst s. destruct day_digits as [[a [-> Ha]]|[a [b [-> [Ha _]]]]];
        cbn [app]; apply lstrip_nonspace, digit_not_space, Ha.
    - subst s. destruct year_token as [c [d [-> [Hc Hd]]]].
      rewrite !rev_app_distr. cbn [rev app].
      apply lstrip_nonspace, digit_not_space, Hd. }
  assert (Hempty : is_empty s = false).
  { subst s. destruct day_digits as [[a [-> _]]|[a [b [-> _]]]]; reflexivity. }
  assert (Hymd : Spec.attempt_ymd s = None).
  { unfold Spec.attempt_ymd.
    rewrite (@search_needs_class re_ymd is_sep s ymd_needs_sep); [reflexivity|].
    revert Hplain. apply Forall_impl. intros c Hc. apply (plain_char c Hc). }
  assert (Hmdy : Spec.attempt_mdy s = None).
  { unfold Spec.attempt_mdy.
    rewrite (@search_needs_class re_mdy (fun c => Ascii.eqb c ",") s mdy_needs_comma);
      [reflexivity|].
    revert Hplain. apply Forall_impl. intros c Hc. apply (plain_char c Hc). }
  destruct (@dmy_match_here ds ws1 w ws2 y [] day_digits N1 S1 Hw Hletters N2 S2
              year_token) as [st [Hst [Gd [Gm Gy]]]].
  rewrite app_nil_r in Hst. fold s in Hst.
  assert (Hsearch : search re_dmy s = Some (Match 0 st)).
  { unfold search. destruct s; cbn [search_from]; rewrite Hst; reflexivity. }
  rewrite parse_date_string_attempts, Hempty, Hstrip, iso_rejects, Hymd, Hmdy.
  cbn [Spec.first_success]. unfold Spec.attempt_dmy. rewrite Hsearch.
  unfold Spec.named_month, group. cbn [m_end]. rewrite Gd, Gm, Gy, Hlook.
  apply month_lookup_range in Hlook.
  assert (Hn : (n =? 0)%Z = false) by (apply Z.eqb_neq; lia).
  rewrite Hn. destruct (datetime_new (int_of y) n (int_of ds)); reflexivity.
Qed.

Lemma named_date_string_witness :
  @_parse_date_string sample_libs (u "15" ++ u " " ++ u "März" ++ u " " ++ u "2021")
  = Some (Datetime 2021 3 15) /\
  @_parse_date_string sample_libs (u "31" ++ u " " ++ u "April" ++ u " " ++ u "2021")
  = None.
Proof.
  split.
  - apply (@named_date_string sample_libs (u "15") (u " ") (u "März") (u " ")
             (u "2021") (u "märz") 3).
    + right. exists "1"%char, "5"%char. repeat split; reflexivity.
    + split; [discriminate|reflexivity].
    + apply in_or_app. right. right. right. left. reflexivity.
    + reflexivity.
    + split; [discriminate|reflexivity].
    + exists "2"%char, "1"%char. repeat split; reflexivity.
    + reflexivity.
  - apply (@named_date_string sample_libs (u "31") (u " ") (u "April") (u " ")
             (u "2021") (u "april") 4).
    + right. exists "3"%char, "1"%char. repeat split; reflexivity.
    + split; [discriminate|reflexivity].
    + apply in_or_app. left. right. right. right. left. reflexivity.
    + reflexivity.
    + split; [discriminate|reflexivity].
    + exists "2"%char, "1"%char. repeat split; reflexivity.
    + reflexivity.
Defined.
